(** * imaged: fingerprint index, similarity, grouping, hashing and quality

    A shallow embedding of the parts of the [imaged] engine that its
    specification makes promises about, together with the theorems that
    settle those promises against the Go code.

    Conventions of the embedding.
    - Go [float64] values are modelled by exact rationals [Q]; equalities
      between them are stated with [==].  Every concrete input used below is
      built from small dyadic or decimal constants.
    - Go [uint64] values are modelled by [Z] with the wrap-around written
      out ([mod 2^64]) where an operation can leave the range.
    - Go maps and BoltDB buckets are [gmap]s; slices are lists.
    - A Go [(T, error)] result is a pair of a value and an [option] error,
      or an [option] when the value is meaningless on error. *)

From Stdlib Require Import ZArith QArith Qabs Qround Lqa Lia Ascii String.
From stdpp Require Import gmap strings list fin_maps pretty.

Local Open Scope Z_scope.

(** ** Floating-point helpers ([math.Max], [math.Min], comparisons) *)

Module F64.

Definition ltb (a b : Q) : bool := negb (Qle_bool b a).
Definition gtb (a b : Q) : bool := ltb b a.
Definition geb (a b : Q) : bool := Qle_bool b a.
Definition eqb (a b : Q) : bool := Qeq_bool a b.

(** [math.Max] and [math.Min] on finite values. *)
Definition Max (a b : Q) : Q := if ltb a b then b else a.
Definition Min (a b : Q) : Q := if ltb b a then b else a.

(** [float64(n)] for an integer [n]. *)
Definition ofZ (n : Z) : Q := inject_Z n.

End F64.

(** ** pkg/api: the data model *)

Module Api.

(** [type ImageID string] *)
Abbreviation ImageID := string.

Record ImageMetadata := {
  Path : string;
  SizeBytes : Z;
  Format : string;
  Width : Z;
  Height : Z;
  ModifiedAt : Z;   (* Unix seconds of the modification time *)
  SHA256 : string
}.

Record PerceptualHashes := {
  AHash : Z;
  PHash : Z;
  DHash : Z;
  WHash : Z
}.

Record ImageQuality := {
  Sharpness : Q;
  Noise : Q;
  Exposure : Q;
  Contrast : Q;
  Compression : Q;
  ColorCast : Q;
  FinalScore : Q
}.

Record ImageFingerprint := {
  ID : ImageID;
  Metadata : ImageMetadata;
  PHashes : PerceptualHashes;
  Quality : ImageQuality
}.

Record DuplicateGroup := {
  GroupID : string;
  MainImage : ImageID;
  DuplicateIDs : list ImageID;
  Reason : string;
  Confidence : Q
}.

Inductive SelectionPolicy :=
| PolicyHighestQuality
| PolicyHighestResolution
| PolicyBestExposure
| PolicyOldest
| PolicyNewest.

(** The zero value of [ImageFingerprint], which a Go map lookup yields for
    a missing key. *)
Definition zeroMetadata : ImageMetadata :=
  {| Path := EmptyString; SizeBytes := 0; Format := EmptyString; Width := 0; Height := 0;
     ModifiedAt := 0; SHA256 := EmptyString |}.
Definition zeroHashes : PerceptualHashes :=
  {| AHash := 0; PHash := 0; DHash := 0; WHash := 0 |}.
Definition zeroQuality : ImageQuality :=
  {| Sharpness := 0; Noise := 0; Exposure := 0; Contrast := 0;
     Compression := 0; ColorCast := 0; FinalScore := 0 |}.
Definition zeroFingerprint : ImageFingerprint :=
  {| ID := EmptyString; Metadata := zeroMetadata; PHashes := zeroHashes;
     Quality := zeroQuality |}.

(** The ids a group talks about: its main image and its duplicates. *)
Definition group_ids (g : DuplicateGroup) : list ImageID :=
  MainImage g :: DuplicateIDs g.

(** [api.Cluster] *)
Record Cluster := {
  ClusterID : string;
  Name : string;
  Images : list ImageID;
  Centroid : list Q
}.

End Api.

Import Api.

(** ** internal/similarity: the comparator and the grouper *)

Module Similarity.

Local Open Scope Q_scope.

Record ComparatorConfig := {
  MinSimilarity : Q;
  UseFeatureVec : bool;
  AHashWeight : Q;
  PHashWeight : Q;
  DHashWeight : Q;
  WHashWeight : Q
}.

(** [NewComparator]: the default weights are installed when the four
    configured weights sum to zero. *)
Definition NewComparator (cfg : ComparatorConfig) : ComparatorConfig :=
  if F64.eqb (AHashWeight cfg + PHashWeight cfg + DHashWeight cfg + WHashWeight cfg) 0
  then {| MinSimilarity := MinSimilarity cfg;
          UseFeatureVec := UseFeatureVec cfg;
          AHashWeight := 2 # 10;
          PHashWeight := 4 # 10;
          DHashWeight := 3 # 10;
          WHashWeight := 1 # 10 |}
  else cfg.

(** [hammingDistance]: the loop [for xor != 0 { distance++; xor &= xor - 1 }].
    Each round clears the lowest set bit, so 64 rounds are enough for a
    64-bit word (see [hamming_loop_fuel]). *)
Fixpoint hamming_loop (fuel : nat) (xor distance : Z) : Z :=
  match fuel with
  | O => distance
  | S fuel' =>
      if (xor =? 0)%Z then distance
      else hamming_loop fuel' (Z.land xor (xor - 1)%Z) (distance + 1)%Z
  end.

Definition hammingDistance (a b : Z) : Z :=
  hamming_loop 64 (Z.lxor a b) 0%Z.

Definition compareAHash (hash1 hash2 : Z) : Q :=
  let distance := hammingDistance hash1 hash2 in
  let maxDistance := 64 in
  let similarity := 1 - (F64.ofZ distance / maxDistance) in
  F64.Max 0 similarity.

Definition comparePHash (hash1 hash2 : Z) : Q :=
  let distance := hammingDistance hash1 hash2 in
  let maxDistance := 64 in
  let similarity := 1 - (F64.ofZ distance / maxDistance) in
  if F64.gtb similarity (9 # 10) then similarity
  else if F64.gtb similarity (7 # 10) then similarity * (9 # 10)
  else similarity * (8 # 10).

Definition compareDHash (hash1 hash2 : Z) : Q :=
  let distance := hammingDistance hash1 hash2 in
  let maxDistance := 64 in
  1 - (F64.ofZ distance / maxDistance).

Definition compareWHash (hash1 hash2 : Z) : Q :=
  let distance := hammingDistance hash1 hash2 in
  let maxDistance := 64 in
  let similarity := 1 - (F64.ofZ distance / maxDistance) in
  if F64.gtb similarity (6 # 10) then F64.Min 1 (similarity * (11 # 10))
  else similarity.

(** One of the four guarded blocks of [CompareFingerprints]: the kind takes
    part when its weight is positive and both hashes are non-zero. *)
Definition accumulate (weight : Q) (h1 h2 : Z) (cmp : Z -> Z -> Q)
    (acc : Q * Q) : Q * Q :=
  let '(totalSimilarity, totalWeight) := acc in
  if F64.gtb weight 0 && negb (h1 =? 0)%Z && negb (h2 =? 0)%Z
  then (totalSimilarity + cmp h1 h2 * weight, totalWeight + weight)
  else acc.

(** [CompareFingerprints] returns [(float64, error)]; the second component
    is the error, [None] standing for [nil]. *)
Definition CompareFingerprints (c : ComparatorConfig) (fp1 fp2 : ImageFingerprint)
    : Q * option string :=
  let acc := (0, 0) in
  let acc := accumulate (AHashWeight c) (AHash (PHashes fp1)) (AHash (PHashes fp2)) compareAHash acc in
  let acc := accumulate (PHashWeight c) (PHash (PHashes fp1)) (PHash (PHashes fp2)) comparePHash acc in
  let acc := accumulate (DHashWeight c) (DHash (PHashes fp1)) (DHash (PHashes fp2)) compareDHash acc in
  let acc := accumulate (WHashWeight c) (WHash (PHashes fp1)) (WHash (PHashes fp2)) compareWHash acc in
  let '(totalSimilarity, totalWeight) := acc in
  if F64.eqb totalWeight 0 then (0, None)
  else
    let finalSimilarity := totalSimilarity / totalWeight in
    (F64.Max 0 (F64.Min 1 finalSimilarity), None).

(** One round of the loop of [FindSimilarImages]. *)
Definition similarStep (c : ComparatorConfig) (target : ImageFingerprint) (threshold : Q)
    (similar : list ImageFingerprint) (candidate : ImageFingerprint)
    : list ImageFingerprint :=
  if bool_decide (ID candidate = ID target) then similar
  else
    let '(similarity, err) := CompareFingerprints c target candidate in
    match err with
    | Some _ => similar
    | None => if F64.geb similarity threshold then similar ++ [candidate] else similar
    end.

Definition FindSimilarImages (c : ComparatorConfig) (target : ImageFingerprint)
    (candidates : list ImageFingerprint) (threshold : Q) : list ImageFingerprint :=
  foldl (similarStep c target threshold) [] candidates.

(** [generateClusterID] of grouping.go. *)
Definition generateClusterID (id : Z) : string := "cluster_" +:+ pretty id.

(** The inner loop shared by [ClusterImages] and [ClusterByContent]: the
    cluster under construction and the [assigned] map. *)
Definition clusterStep (c : ComparatorConfig) (threshold : Q) (fp1 : ImageFingerprint)
    (st : Cluster * gset string) (fp2 : ImageFingerprint) : Cluster * gset string :=
  let '(cluster, assigned) := st in
  if bool_decide (ID fp2 ∈ assigned) then st
  else
    let '(similarity, err) := CompareFingerprints c fp1 fp2 in
    match err with
    | Some _ => st
    | None =>
        if F64.geb similarity threshold
        then ({| ClusterID := ClusterID cluster;
                 Name := Name cluster;
                 Images := Images cluster ++ [ID fp2];
                 Centroid := Centroid cluster |},
              assigned ∪ {[ID fp2]})
        else st
    end.

(** [Comparator.ClusterImages]: the cluster id is the number of clusters
    found so far. *)
Fixpoint clusterImagesLoop (c : ComparatorConfig) (threshold : Q)
    (fingerprints : list ImageFingerprint)
    (clusters : list Cluster) (assigned : gset string) : list Cluster :=
  match fingerprints with
  | [] => clusters
  | fp1 :: later =>
      if bool_decide (ID fp1 ∈ assigned)
      then clusterImagesLoop c threshold later clusters assigned
      else
        let cluster := {| ClusterID := generateClusterID (Z.of_nat (length clusters));
                          Name := EmptyString;
                          Images := [ID fp1];
                          Centroid := [] |} in
        let assigned := assigned ∪ {[ID fp1]} in
        let '(cluster, assigned) :=
          foldl (clusterStep c threshold fp1) (cluster, assigned) later in
        let clusters :=
          if (0 <? Z.of_nat (length (Images cluster)))%Z
          then clusters ++ [cluster] else clusters in
        clusterImagesLoop c threshold later clusters assigned
  end.

Definition ClusterImages (c : ComparatorConfig)
    (fingerprints : list ImageFingerprint) (threshold : Q) : list Cluster :=
  clusterImagesLoop c threshold fingerprints [] ∅.

End Similarity.

(** ** internal/index: the BoltDB store and the in-memory store *)

Module Index.

(** What a bucket value holds.  [SaveFingerprint] writes the bare id,
    [[]byte(fp.ID)], into the SHA-256 and path buckets, while
    [updateHashIndex] writes [json.Marshal(images)].  Image ids are opaque
    tokens of the form [img_<hex>], never JSON text, so [json.Unmarshal] into
    [[]ImageID] succeeds on the second form and fails on the first. *)
Inductive Bytes :=
| RawID (id : ImageID)
| JSONIDs (ids : list ImageID).

Definition unmarshalIDs (data : Bytes) : option (list ImageID) :=
  match data with
  | JSONIDs ids => Some ids
  | RawID _ => None
  end.

(** The database inside one transaction.  The [fingerprints] bucket, whose
    values are [json.Marshal(fp)], is kept as the records themselves; the
    other buckets are looked up by name as in [tx.Bucket]. *)
Record DB := {
  fingerprints : gmap string ImageFingerprint;
  buckets : gmap string (gmap string Bytes)
}.

(** [initBuckets] on a fresh file. *)
Definition indexBuckets : list string :=
  ["sha256_index"; "ahash_index"; "phash_index"; "dhash_index";
   "whash_index"; "path_index"; "metadata"].

Definition initBuckets : DB :=
  {| fingerprints := ∅;
     buckets := list_to_map ((fun name => (name, ∅)) <$> indexBuckets) |}.

(** [Bucket.Put] refuses an empty key ([ErrKeyRequired]) and a key longer
    than [MaxKeySize]. *)
Definition MaxKeySize : Z := 32768.

Definition keyOK (key : string) : bool :=
  negb (String.eqb key EmptyString) && (Z.of_nat (String.length key) <=? MaxKeySize).

Definition Put (name key : string) (value : Bytes) (tx : DB) : option DB :=
  b ← buckets tx !! name;
  if keyOK key
  then Some {| fingerprints := fingerprints tx;
               buckets := <[name := <[key := value]> b]> (buckets tx) |}
  else None.

Definition Get (name key : string) (tx : DB) : option Bytes :=
  b ← buckets tx !! name; b !! key.

Definition Delete (name key : string) (tx : DB) : option DB :=
  b ← buckets tx !! name;
  Some {| fingerprints := fingerprints tx;
          buckets := <[name := delete key b]> (buckets tx) |}.

Definition putFingerprint (fp : ImageFingerprint) (tx : DB) : option DB :=
  if keyOK (ID fp)
  then Some {| fingerprints := <[ID fp := fp]> (fingerprints tx);
               buckets := buckets tx |}
  else None.

(** [fmt.Sprintf("%016x", hash)] *)
Definition hexdigit (d : Z) : Ascii.ascii :=
  nth (Z.to_nat d) (list_ascii_of_string "0123456789abcdef") "0"%char.

Fixpoint hex_digits (n : nat) (h : Z) (acc : string) : string :=
  match n with
  | O => acc
  | S n' => hex_digits n' (h / 16) (String (hexdigit (h mod 16)) acc)
  end.

Definition hex16 (hash : Z) : string := hex_digits 16 hash EmptyString.

(** [updateHashIndex]: nothing for a zero hash; otherwise the id is
    appended to the list stored under the hash, unless already there. *)
Definition updateHashIndex (bucketName : string) (hash : Z) (imageID : ImageID)
    (tx : DB) : option DB :=
  if hash =? 0 then Some tx
  else
    let key := hex16 hash in
    images ← match Get bucketName key tx with
              | Some existingData => unmarshalIDs existingData
              | None => Some []
              end;
    if bool_decide (imageID ∈ images) then Some tx
    else Put bucketName key (JSONIDs (images ++ [imageID])) tx.

(** The body of the [db.Update] closure of [SaveFingerprint]; [None] is a
    returned error. *)
Definition saveTx (fp : ImageFingerprint) (tx : DB) : option DB :=
  tx ← putFingerprint fp tx;
  tx ← Put "sha256_index" (SHA256 (Metadata fp)) (RawID (ID fp)) tx;
  tx ← Put "path_index" (Path (Metadata fp)) (RawID (ID fp)) tx;
  tx ← updateHashIndex "ahash_index" (AHash (PHashes fp)) (ID fp) tx;
  tx ← updateHashIndex "phash_index" (PHash (PHashes fp)) (ID fp) tx;
  tx ← updateHashIndex "dhash_index" (DHash (PHashes fp)) (ID fp) tx;
  updateHashIndex "whash_index" (WHash (PHashes fp)) (ID fp) tx.

(** [db.Update]: the closure's writes are committed when it returns [nil]
    and rolled back otherwise.  The result is the new database and whether
    an error was returned. *)
Definition Update (f : DB -> option DB) (db : DB) : DB * bool :=
  match f db with
  | Some db' => (db', false)
  | None => (db, true)
  end.

Definition SaveFingerprint (fp : ImageFingerprint) (db : DB) : DB * bool :=
  Update (saveTx fp) db.

(** [GetFingerprint]: [None] is [ErrImageNotFound]. *)
Definition GetFingerprint (imageID : ImageID) (db : DB) : option ImageFingerprint :=
  fingerprints db !! imageID.

(** [GetAllFingerprints]: one record per key of the bucket. *)
Definition GetAllFingerprints (db : DB) : list ImageFingerprint :=
  (map_to_list (fingerprints db)).*2.

Definition removeFromHashIndex (bucketName : string) (hash : Z) (imageID : ImageID)
    (tx : DB) : option DB :=
  if hash =? 0 then Some tx
  else
    let key := hex16 hash in
    match Get bucketName key tx with
    | None => Some tx
    | Some existingData =>
        images ← unmarshalIDs existingData;
        let newImages := filter (fun id => id ≠ imageID) images in
        match newImages with
        | [] => Delete bucketName key tx
        | _ => Put bucketName key (JSONIDs newImages) tx
        end
    end.

Definition deleteTx (imageID : ImageID) (tx : DB) : option DB :=
  fp ← GetFingerprint imageID tx;
  let tx := {| fingerprints := delete imageID (fingerprints tx);
               buckets := buckets tx |} in
  tx ← Delete "sha256_index" (SHA256 (Metadata fp)) tx;
  tx ← Delete "path_index" (Path (Metadata fp)) tx;
  tx ← removeFromHashIndex "ahash_index" (AHash (PHashes fp)) imageID tx;
  tx ← removeFromHashIndex "phash_index" (PHash (PHashes fp)) imageID tx;
  tx ← removeFromHashIndex "dhash_index" (DHash (PHashes fp)) imageID tx;
  removeFromHashIndex "whash_index" (WHash (PHashes fp)) imageID tx.

Definition DeleteFingerprint (imageID : ImageID) (db : DB) : DB * bool :=
  Update (deleteTx imageID) db.

(** [FindBySHA256]: the stored bytes are read as a JSON list of ids and,
    when that fails, as one bare id; ids without a primary record are
    skipped. *)
Definition FindBySHA256 (hash : string) (db : DB) : list ImageFingerprint :=
  match Get "sha256_index" hash db with
  | None => []
  | Some imageIDData =>
      let imageIDs :=
        match imageIDData with
        | JSONIDs ids => ids
        | RawID id => [id]
        end in
      omap (fun imageID => fingerprints db !! imageID) imageIDs
  end.

(** The states an index can be in: a fresh store, changed by saves and
    deletes. *)
Inductive reachable : DB -> Prop :=
| reachable_init : reachable initBuckets
| reachable_save fp db : reachable db -> reachable (SaveFingerprint fp db).1
| reachable_delete id db : reachable db -> reachable (DeleteFingerprint id db).1.

(** *** The in-memory store *)

Record MemoryStore := {
  m_fingerprints : gmap string ImageFingerprint;
  m_sha256Index : gmap string ImageID;
  m_pathIndex : gmap string ImageID
}.

Definition NewMemoryStore : MemoryStore :=
  {| m_fingerprints := ∅; m_sha256Index := ∅; m_pathIndex := ∅ |}.

Definition MemSaveFingerprint (fp : ImageFingerprint) (m : MemoryStore) : MemoryStore :=
  {| m_fingerprints := <[ID fp := fp]> (m_fingerprints m);
     m_sha256Index := <[SHA256 (Metadata fp) := ID fp]> (m_sha256Index m);
     m_pathIndex := <[Path (Metadata fp) := ID fp]> (m_pathIndex m) |}.

Definition MemFindBySHA256 (hash : string) (m : MemoryStore) : list ImageFingerprint :=
  match m_sha256Index m !! hash with
  | None => []
  | Some imageID =>
      match m_fingerprints m !! imageID with
      | None => []
      | Some fp => [fp]
      end
  end.


Definition MemGetAllFingerprints (m : MemoryStore) : list ImageFingerprint :=
  (map_to_list (m_fingerprints m)).*2.


(** The copy of [hammingDistance] in the index package. *)
Definition hammingDistance (a b : Z) : Z :=
  Similarity.hamming_loop 64 (Z.lxor a b) 0.

(** The [switch hashType] of [MemoryStore.FindSimilarHashes]; [None] is the
    [default: continue]. *)
Definition hashOfType (hashType : string) (fp : ImageFingerprint) : option Z :=
  if String.eqb hashType "ahash" then Some (AHash (PHashes fp))
  else if String.eqb hashType "phash" then Some (PHash (PHashes fp))
  else if String.eqb hashType "dhash" then Some (DHash (PHashes fp))
  else if String.eqb hashType "whash" then Some (WHash (PHashes fp))
  else None.

Definition similarHashStep (targetHash maxDistance : Z) (hashType : string)
    (similar : list ImageFingerprint) (fp : ImageFingerprint) : list ImageFingerprint :=
  match hashOfType hashType fp with
  | None => similar
  | Some hashValue =>
      if hashValue =? 0 then similar
      else if hammingDistance targetHash hashValue <=? maxDistance
           then similar ++ [fp] else similar
  end.

(** [MemoryStore.FindSimilarHashes].  Go visits the map in no fixed order,
    the model in the order of [map_to_list]. *)
Definition MemFindSimilarHashes (targetHash maxDistance : Z) (hashType : string)
    (m : MemoryStore) : list ImageFingerprint :=
  foldl (similarHashStep targetHash maxDistance hashType) []
        (map_to_list (m_fingerprints m)).*2.

End Index.

(** *** The grouper of internal/similarity/grouping.go *)

Module Grouper.

Import Similarity.

Definition generateGroupID (id : Z) : string := "group_" +:+ pretty id.

(** The state of the inner loop of [GroupBySimilarity]: the group under
    construction and the [assigned] map. *)
Definition groupStep (c : ComparatorConfig) (threshold : Q) (fp1 : ImageFingerprint)
    (st : DuplicateGroup * gset string) (fp2 : ImageFingerprint)
    : DuplicateGroup * gset string :=
  let '(group, assigned) := st in
  if bool_decide (ID fp2 ∈ assigned) then st
  else
    let '(similarity, err) := CompareFingerprints c fp1 fp2 in
    match err with
    | Some _ => st
    | None =>
        if F64.geb similarity threshold
        then ({| GroupID := GroupID group;
                 MainImage := MainImage group;
                 DuplicateIDs := DuplicateIDs group ++ [ID fp2];
                 Reason := Reason group;
                 Confidence := similarity |},
              assigned ∪ {[ID fp2]})
        else st
    end.

Fixpoint groupLoop (c : ComparatorConfig) (threshold : Q)
    (fingerprints : list ImageFingerprint)
    (groups : list DuplicateGroup) (assigned : gset string) (groupID : Z)
    : list DuplicateGroup :=
  match fingerprints with
  | [] => groups
  | fp1 :: later =>
      if bool_decide (ID fp1 ∈ assigned)
      then groupLoop c threshold later groups assigned groupID
      else
        let group := {| GroupID := generateGroupID groupID;
                        MainImage := ID fp1;
                        DuplicateIDs := [];
                        Reason := "similarity";
                        Confidence := 0 |} in
        let groupID := groupID + 1 in
        let assigned := assigned ∪ {[ID fp1]} in
        let '(group, assigned) :=
          foldl (groupStep c threshold fp1) (group, assigned) later in
        let groups :=
          if 0 <? Z.of_nat (length (DuplicateIDs group))
          then groups ++ [group] else groups in
        groupLoop c threshold later groups assigned groupID
  end.

Definition GroupBySimilarity (c : ComparatorConfig)
    (fingerprints : list ImageFingerprint) (threshold : Q) : list DuplicateGroup :=
  groupLoop c threshold fingerprints [] ∅ 0.

(** [Grouper.ClusterByContent]: the same loops with a counter of its own. *)
Fixpoint clusterLoop (c : ComparatorConfig) (threshold : Q)
    (fingerprints : list ImageFingerprint)
    (clusters : list Cluster) (assigned : gset string) (clusterID : Z) : list Cluster :=
  match fingerprints with
  | [] => clusters
  | fp1 :: later =>
      if bool_decide (ID fp1 ∈ assigned)
      then clusterLoop c threshold later clusters assigned clusterID
      else
        let cluster := {| ClusterID := generateClusterID clusterID;
                          Name := EmptyString;
                          Images := [ID fp1];
                          Centroid := [] |} in
        let clusterID := (clusterID + 1)%Z in
        let assigned := assigned ∪ {[ID fp1]} in
        let '(cluster, assigned) :=
          foldl (clusterStep c threshold fp1) (cluster, assigned) later in
        let clusters :=
          if (0 <? Z.of_nat (length (Images cluster)))%Z
          then clusters ++ [cluster] else clusters in
        clusterLoop c threshold later clusters assigned clusterID
  end.

Definition ClusterByContent (c : ComparatorConfig)
    (fingerprints : list ImageFingerprint) (threshold : Q) : list Cluster :=
  clusterLoop c threshold fingerprints [] ∅ 0%Z.

End Grouper.

(** ** internal/engine: duplicate detection *)

Module Engine.

Import Similarity.

Local Open Scope Q_scope.

Record Engine := {
  index : Index.DB;
  similarity : ComparatorConfig
}.

(** [NewEngine] builds its comparator from a configuration without
    weights, so that [NewComparator] installs the defaults. *)
Definition NewEngine (store : Index.DB) : Engine :=
  {| index := store;
     similarity := NewComparator {| MinSimilarity := 8 # 10;
                                    UseFeatureVec := false;
                                    AHashWeight := 0;
                                    PHashWeight := 0;
                                    DHashWeight := 0;
                                    WHashWeight := 0 |} |}.

Definition calculateImageScore (fp : ImageFingerprint) (policy : SelectionPolicy) : Q :=
  match policy with
  | PolicyHighestQuality => FinalScore (Quality fp)
  | PolicyHighestResolution =>
      F64.ofZ (Width (Metadata fp) * Height (Metadata fp))
  | PolicyBestExposure => 1 - Qabs (Exposure (Quality fp) - (5 # 10)) * 2
  | PolicyOldest => - F64.ofZ (ModifiedAt (Metadata fp))
  | PolicyNewest => F64.ofZ (ModifiedAt (Metadata fp))
  end.

(** The lookup table [fpMap] that [selectBestImage] and
    [calculateGroupConfidence] build: later records win. *)
Definition buildFpMap (fingerprints : list ImageFingerprint)
    : gmap string ImageFingerprint :=
  foldl (fun fpMap fp => <[ID fp := fp]> fpMap) ∅ fingerprints.

(** One round of the loop of [selectBestImage] over [images[1:]]. *)
Definition selectStep (fpMap : gmap string ImageFingerprint) (policy : SelectionPolicy)
    (st : ImageID * Q) (imgID : ImageID) : ImageID * Q :=
  let '(bestImage, bestScore) := st in
  match fpMap !! imgID with
  | None => st
  | Some fp =>
      let score := calculateImageScore fp policy in
      if F64.gtb score bestScore then (imgID, score) else st
  end.

Definition selectBestImage (images : list ImageID)
    (fingerprints : list ImageFingerprint) (policy : SelectionPolicy) : ImageID :=
  match images with
  | [] => EmptyString
  | first :: others =>
      let fpMap := buildFpMap fingerprints in
      let bestImage := first in
      let bestScore :=
        calculateImageScore (default zeroFingerprint (fpMap !! bestImage)) policy in
      fst (foldl (selectStep fpMap policy) (bestImage, bestScore) others)
  end.

Definition removeElement (slice : list ImageID) (element : ImageID) : list ImageID :=
  filter (fun item => item ≠ element) slice.

(** One comparison of [calculateGroupConfidence]: the pair is counted when
    both fingerprints exist and the comparison returns no error. *)
Definition confidenceStep (c : ComparatorConfig) (fpMap : gmap string ImageFingerprint)
    (a : ImageID) (acc : Q * Z) (b : ImageID) : Q * Z :=
  let '(totalSimilarity, comparisons) := acc in
  match fpMap !! a, fpMap !! b with
  | Some fp1, Some fp2 =>
      let '(similarity, err) := CompareFingerprints c fp1 fp2 in
      match err with
      | None => (totalSimilarity + similarity, (comparisons + 1)%Z)
      | Some _ => acc
      end
  | _, _ => acc
  end.

Fixpoint confidenceLoop (c : ComparatorConfig) (fpMap : gmap string ImageFingerprint)
    (images : list ImageID) (acc : Q * Z) : Q * Z :=
  match images with
  | [] => acc
  | a :: later =>
      confidenceLoop c fpMap later (foldl (confidenceStep c fpMap a) acc later)
  end.

Definition calculateGroupConfidence (e : Engine) (images : list ImageID)
    (fingerprints : list ImageFingerprint) : Q :=
  if (Z.of_nat (length images) <? 2)%Z then 0
  else
    let fpMap := buildFpMap fingerprints in
    let '(totalSimilarity, comparisons) :=
      confidenceLoop (similarity e) fpMap images (0, 0%Z) in
    if (comparisons =? 0)%Z then 0
    else totalSimilarity / F64.ofZ comparisons.

(** [FindExactDuplicates].  The table [hashGroups] collects the ids per
    digest in index order; one group is emitted per digest with more than
    one id.  Go visits the table in no fixed order, the model in the order
    of [map_to_list]. *)
Definition buildHashGroups (fingerprints : list ImageFingerprint)
    : gmap string (list ImageID) :=
  foldl (fun hashGroups fp =>
           <[SHA256 (Metadata fp) :=
               default [] (hashGroups !! SHA256 (Metadata fp)) ++ [ID fp]]> hashGroups)
        ∅ fingerprints.

Definition exactStep (e : Engine) (fingerprints : list ImageFingerprint)
    (st : list DuplicateGroup * Z) (entry : string * list ImageID)
    : list DuplicateGroup * Z :=
  let '(groups, groupCounter) := st in
  let imageIDs := entry.2 in
  if (1 <? Z.of_nat (length imageIDs))%Z
  then
    let mainImage := selectBestImage imageIDs fingerprints PolicyHighestQuality in
    (groups ++ [ {| GroupID := "exact_" +:+ pretty groupCounter;
                    MainImage := mainImage;
                    DuplicateIDs := removeElement imageIDs mainImage;
                    Reason := "exact";
                    Confidence := 1 |} ],
     (groupCounter + 1)%Z)
  else st.

Definition FindExactDuplicates (e : Engine) : list DuplicateGroup :=
  let fingerprints := Index.GetAllFingerprints (index e) in
  let hashGroups := buildHashGroups fingerprints in
  fst (foldl (exactStep e fingerprints) ([], 0%Z) (map_to_list hashGroups)).

(** [FindNearDuplicates]: the inner loop extends [similarImages] and the
    [processed] map. *)
Definition nearStep (e : Engine) (threshold : Q) (fp1 : ImageFingerprint)
    (st : list ImageID * gset string) (fp2 : ImageFingerprint)
    : list ImageID * gset string :=
  let '(similarImages, processed) := st in
  if bool_decide (ID fp2 ∈ processed) then st
  else
    let '(similarity, err) := CompareFingerprints (similarity e) fp1 fp2 in
    match err with
    | Some _ => st
    | None =>
        if F64.geb similarity threshold
        then (similarImages ++ [ID fp2], processed ∪ {[ID fp2]})
        else st
    end.

Fixpoint nearLoop (e : Engine) (threshold : Q) (fingerprints : list ImageFingerprint)
    (rest : list ImageFingerprint)
    (groups : list DuplicateGroup) (processed : gset string) (groupCounter : Z)
    : list DuplicateGroup :=
  match rest with
  | [] => groups
  | fp1 :: later =>
      if bool_decide (ID fp1 ∈ processed)
      then nearLoop e threshold fingerprints later groups processed groupCounter
      else
        let '(similarImages, processed) :=
          foldl (nearStep e threshold fp1) ([ID fp1], processed ∪ {[ID fp1]}) later in
        if (1 <? Z.of_nat (length similarImages))%Z
        then
          let mainImage :=
            selectBestImage similarImages fingerprints PolicyHighestQuality in
          let group := {| GroupID := "near_" +:+ pretty groupCounter;
                          MainImage := mainImage;
                          DuplicateIDs := removeElement similarImages mainImage;
                          Reason := "near";
                          Confidence :=
                            calculateGroupConfidence e similarImages fingerprints |} in
          nearLoop e threshold fingerprints later (groups ++ [group]) processed
                   (groupCounter + 1)%Z
        else nearLoop e threshold fingerprints later groups processed groupCounter
  end.

Definition FindNearDuplicates (e : Engine) (threshold : Q) : list DuplicateGroup :=
  let fingerprints := Index.GetAllFingerprints (index e) in
  nearLoop e threshold fingerprints fingerprints [] ∅ 0%Z.

End Engine.

(** ** Images as the hash and quality kernels read them *)

Module Imaging.

(** The result of [Color.RGBA()]: four 16-bit channels. *)
Record Color := { cr : Z; cg : Z; cb : Z; ca : Z }.

(** An [image.Image]: its bounds and its pixel function [At(x, y)]. *)
Record Image := {
  MinX : Z; MinY : Z; MaxX : Z; MaxY : Z;
  At : Z -> Z -> Color
}.

Definition Dx (img : Image) : Z := MaxX img - MinX img.
Definition Dy (img : Image) : Z := MaxY img - MinY img.

(** An opaque gray pixel of 16-bit level [v]. *)
Definition gray16 (v : Z) : Color := {| cr := v; cg := v; cb := v; ca := 65535 |}.

(** The rows [lo, lo+1, ..., hi-1] of a [for] loop. *)
Definition range (lo hi : Z) : list Z := seqZ lo (hi - lo).

(** [for v := lo; v < hi; v += step]. *)
Definition rangeBy (step lo hi : Z) : list Z :=
  (fun k => lo + step * k)%Z <$> seqZ 0 ((hi - lo + step - 1) / step).

(** The positions [(x, y)] visited by two nested loops, rows outside. *)
Definition grid (ys xs : list Z) : list (Z * Z) :=
  y ← ys; x ← xs; [(x, y)].

End Imaging.

Import Imaging.

(** ** The hash kernels of the engine

    [imaging.Resize] and [imaging.Grayscale] belong to an external library;
    each kernel below is the code that follows those two calls and takes
    their result [gray] as its argument. *)

Module EngineHash.

Local Open Scope Q_scope.

Definition uint64_max : Z := (2 ^ 64 - 1)%Z.

(** [hash |= 1 << uint(i)] on a [uint64]: bits shifted past the top are lost. *)
Definition setBit (hash i : Z) : Z :=
  Z.lor hash ((Z.shiftl 1 i) mod 2 ^ 64)%Z.

(** [computeAHash] after the resize to 8x8.  [None] is the run-time panic of
    the integer division when the image has no pixel. *)
Definition computeAHash (gray : Image) : option Z :=
  let pixels :=
    y ← range (MinY gray) (MaxY gray);
    x ← range (MinX gray) (MaxX gray);
    let c := At gray x y in
    [((cr c + cg c + cb c) / 3)%Z] in
  let sum := foldl Z.add 0%Z pixels in
  if (Z.of_nat (length pixels) =? 0)%Z then None
  else
    let average := (sum / Z.of_nat (length pixels))%Z in
    Some (fst (foldl (fun '(hash, i) pixel =>
                        ((if (average <? pixel)%Z then setBit hash i else hash),
                         (i + 1)%Z))
                     (0%Z, 0%Z) pixels)).

(** [computePHash] after the resize to 32x32.  [None] is the returned
    error for unexpected dimensions. *)
Definition computePHash (gray : Image) : option Z :=
  if negb (Dx gray =? 32)%Z || negb (Dy gray =? 32)%Z then None
  else
    let values :=
      y ← range 0 32;
      x ← range 0 32;
      let c := At gray x y in
      [(F64.ofZ (cr c) + F64.ofZ (cg c) + F64.ofZ (cb c)) / 3 / 65535] in
    let sum := foldl Qplus 0 values in
    let average := sum / F64.ofZ (Z.of_nat (length values)) in
    Some (fst (foldl (fun '(hash, i) value =>
                        ((if F64.gtb value average then setBit hash (i mod 64)%Z
                          else hash),
                         (i + 1)%Z))
                     (0%Z, 0%Z) values)).

(** [computeWHash] hands its image to [computeAHash]. *)
Definition computeWHash (gray : Image) : option Z := computeAHash gray.

(** One round of the loops of [computeDHash]; once 64 bits are written both
    loops are left, so the rounds that would follow change nothing. *)
Definition dhashStep (gray : Image) (st : Z * Z) (p : Z * Z) : Z * Z :=
  let '(hash, bitPosition) := st in
  if (64 <=? bitPosition)%Z then st
  else
    let '(x, y) := p in
    let c1 := At gray x y in
    let c2 := At gray (x + 1) y in
    let luminance1 := ((cr c1 + cg c1 + cb c1) / 3)%Z in
    let luminance2 := ((cr c2 + cg c2 + cb c2) / 3)%Z in
    ((if (luminance1 <? luminance2)%Z then setBit hash bitPosition else hash),
     (bitPosition + 1)%Z).

(** [computeDHash] after the resize to 9x8. *)
Definition computeDHash (gray : Image) : Z :=
  fst (foldl (dhashStep gray) (0%Z, 0%Z)
             (grid (range (MinY gray) (MaxY gray)) (range (MinX gray) (MaxX gray - 1)))).

End EngineHash.

(** ** internal/hash/perceptual: the stand-alone hash calculators *)

Module Perceptual.

Local Open Scope Q_scope.

(** Reading a square matrix stored as rows; [m[y][x]]. *)
Definition at2 (m : list (list Q)) (y x : Z) : Q :=
  default 0 (row ← m !! Z.to_nat y; row !! Z.to_nat x).

(** The coordinates visited by the two loops over the low-frequency block,
    in row-major order, without the DC position (0,0). *)
Definition blockCoords (smallSize : Z) : list (Z * Z) :=
  filter (fun p => ¬ (p.1 = 0%Z ∧ p.2 = 0%Z))
         (y ← range 0 smallSize; x ← range 0 smallSize; [(y, x)]).

(** The packing loop shared by [PHash.Compute] and [WHash.Compute]: one bit
    per visited coefficient, stopping once 64 bits are written. *)
Definition packStep (mean : Q) (st : Z * Z) (c : Q) : Z * Z :=
  let '(hash, bitPos) := st in
  if (64 <=? bitPos)%Z then (hash, bitPos)
  else ((if F64.gtb c mean then EngineHash.setBit hash bitPos else hash),
        (bitPos + 1)%Z).

Definition packBits (coeffs : list Q) (mean : Q) : Z :=
  fst (foldl (packStep mean) (0%Z, 0%Z) coeffs).

(** [PHash.Compute] from the DCT matrix on: mean of the block without DC,
    then one bit per coefficient above the mean. *)
Definition phashOfDCT (smallSize : Z) (dctMatrix : list (list Q)) : Z :=
  let coeffs := (fun p => at2 dctMatrix p.1 p.2) <$> blockCoords smallSize in
  let sum := foldl Qplus 0 coeffs in
  let count := Z.of_nat (length coeffs) in
  if (count =? 0)%Z then 0%Z
  else packBits coeffs (sum / F64.ofZ count).

Section DCT.

(** [math.Cos] and [math.Pi], as the floating-point library provides them. *)
Variable Cos : Q -> Q.
Variable Pi : Q.

(** [applyDCT]: the direct double sum over the [size] x [size] pixels. *)
Definition applyDCT (img : Image) : list (list Q) :=
  let size := Dx img in
  let matrix i j := F64.ofZ (cr (At img j i)) / 65535 in
  (fun u =>
     (fun v =>
        foldl (fun sum ij =>
                 let i := ij.1 in
                 let j := ij.2 in
                 let cos1 := Cos (F64.ofZ ((2 * i + 1) * u) * Pi / (2 * F64.ofZ size)) in
                 let cos2 := Cos (F64.ofZ ((2 * j + 1) * v) * Pi / (2 * F64.ofZ size)) in
                 sum + matrix i j * cos1 * cos2)
              0 (i ← range 0 size; j ← range 0 size; [(i, j)]))
       <$> range 0 size)
    <$> range 0 size.

(** [PHash.Compute] on the resized grayscale image. *)
Definition PHashCompute (smallSize : Z) (resized : Image) : Z :=
  phashOfDCT smallSize (applyDCT resized).

End DCT.

(** [haarWavelet]: the in-place row then column passes, for
    [level = size, size/2, ..., 2]. *)
Definition setAt (m : list (list Q)) (y x : Z) (v : Q) : list (list Q) :=
  match m !! Z.to_nat y with
  | Some row => <[Z.to_nat y := <[Z.to_nat x := v]> row]> m
  | None => m
  end.

Definition haarRows (level : Z) (m : list (list Q)) : list (list Q) :=
  foldl (fun m yx =>
           let y := yx.1 in
           let x := yx.2 in
           let avg := (at2 m y (2 * x) + at2 m y (2 * x + 1)) / 2 in
           let diff := (at2 m y (2 * x) - at2 m y (2 * x + 1)) / 2 in
           setAt (setAt m y x avg) y (x + level / 2) diff)
        m (y ← range 0 level; x ← range 0 (level / 2); [(y, x)]).

Definition haarCols (level : Z) (m : list (list Q)) : list (list Q) :=
  foldl (fun m yx =>
           let y := yx.1 in
           let x := yx.2 in
           let avg := (at2 m (2 * y) x + at2 m (2 * y + 1) x) / 2 in
           let diff := (at2 m (2 * y) x - at2 m (2 * y + 1) x) / 2 in
           setAt (setAt m y x avg) (y + level / 2) x diff)
        m (y ← range 0 (level / 2); x ← range 0 level; [(y, x)]).

(** The levels [size, size/2, ...] visited by [for level := size; level > 1;
    level /= 2]; the fuel bounds the number of halvings. *)
Fixpoint haarLevels (fuel : nat) (level : Z) : list Z :=
  match fuel with
  | O => []
  | S fuel' => if (1 <? level)%Z then level :: haarLevels fuel' (level / 2) else []
  end.

Definition haarWavelet (img : Image) : list (list Q) :=
  let size := Dx img in
  let matrix :=
    (fun y => (fun x => F64.ofZ (cr (At img x y)) / 65535) <$> range 0 size)
      <$> range 0 size in
  foldl (fun m level => haarCols level (haarRows level m))
        matrix (haarLevels (Z.to_nat size) size).

(** [WHash.Compute] on the resized grayscale image. *)
Definition WHashCompute (resized : Image) : Z :=
  let wavelet := haarWavelet resized in
  let coeffs := (fun p => Qabs (at2 wavelet p.1 p.2)) <$> blockCoords 8 in
  let sum := foldl Qplus 0 coeffs in
  let count := Z.of_nat (length coeffs) in
  if (count =? 0)%Z then 0%Z
  else packBits coeffs (sum / F64.ofZ count).

End Perceptual.

(** ** internal/quality: the analyzer's composite and the score calculator *)

Module Quality.

Local Open Scope Q_scope.

(** *** analyzer.go *)

(** [math.Sqrt], as the square root rounded down to a multiple of 2^-32;
    zero on arguments that are not positive. *)
Definition Sqrt (x : Q) : Q :=
  if Qle_bool x 0 then 0
  else inject_Z (Z.sqrt (Qfloor (x * inject_Z (2 ^ 64)))) / inject_Z (2 ^ 32).

(** An [*image.Gray]: bounds and the 8-bit level [GrayAt(x, y).Y]. *)
Record Gray := {
  gMinX : Z; gMinY : Z; gMaxX : Z; gMaxY : Z;
  GrayAt : Z -> Z -> Z
}.

Definition gDx (gray : Gray) : Z := gMaxX gray - gMinX gray.
Definition gDy (gray : Gray) : Z := gMaxY gray - gMinY gray.

(** The conversion of [color.GrayModel], applied by [gray.Set]. *)
Definition grayLevel (c : Color) : Z :=
  Z.shiftr (19595 * cr c + 38470 * cg c + 7471 * cb c + 2 ^ 15) 24.

(** [toGray]: the same bounds, every pixel converted by the gray model. *)
Definition toGray (img : Image) : Gray :=
  {| gMinX := MinX img; gMinY := MinY img; gMaxX := MaxX img; gMaxY := MaxY img;
     GrayAt := fun x y => grayLevel (At img x y) |}.

(** [float64(gray.GrayAt(x, y).Y)]. *)
Definition Y (gray : Gray) (x y : Z) : Q := F64.ofZ (GrayAt gray x y).

(** One round of the Laplacian loop of [analyzeSharpness]. *)
Definition sharpnessStep (gray : Gray) (acc : Q * Z) (p : Z * Z) : Q * Z :=
  let '(sum, count) := acc in
  let '(x, y) := p in
  let center := Y gray x y in
  let top := Y gray x (y - 1) in
  let bottom := Y gray x (y + 1) in
  let left := Y gray (x - 1) y in
  let right := Y gray (x + 1) y in
  let laplacian := Qabs (4 * center - (top + bottom + left + right)) in
  (sum + laplacian, (count + 1)%Z).

(** The positions of both 3 x 3 kernels: every pixel but the border. *)
Definition interior (gray : Gray) : list (Z * Z) :=
  grid (range (gMinY gray + 1) (gMaxY gray - 1)) (range (gMinX gray + 1) (gMaxX gray - 1)).

(** [api.ErrImageTooSmall]. *)
Definition ErrImageTooSmall : string := "image too small for analysis".

(** [Analyzer.analyzeSharpness]: the mean absolute Laplacian over 100, capped at 1. *)
Definition analyzeSharpness (gray : Gray) : Q * option string :=
  if (gDx gray <? 3)%Z || (gDy gray <? 3)%Z then (0, Some ErrImageTooSmall)
  else
    let '(sum, count) := foldl (sharpnessStep gray) (0, 0%Z) (interior gray) in
    if (count =? 0)%Z then (0, None)
    else
      let variance := sum / F64.ofZ count in
      (F64.Min (variance / 100) 1, None).

(** One round of the loop of [analyzeNoise]: the standard deviation of the
    eight neighbours is added where the centre is within 10 of their mean. *)
Definition noiseStep (gray : Gray) (acc : Q * Z) (p : Z * Z) : Q * Z :=
  let '(noiseSum, count) := acc in
  let '(x, y) := p in
  let center := Y gray x y in
  let neighbors :=
    [Y gray (x - 1) (y - 1); Y gray x (y - 1); Y gray (x + 1) (y - 1);
     Y gray (x - 1) y; Y gray (x + 1) y;
     Y gray (x - 1) (y + 1); Y gray x (y + 1); Y gray (x + 1) (y + 1)] in
  let mean := foldl Qplus 0 neighbors / F64.ofZ (Z.of_nat (length neighbors)) in
  let variance :=
    foldl (fun variance neighbor =>
             let diff := neighbor - mean in variance + diff * diff) 0 neighbors
    / F64.ofZ (Z.of_nat (length neighbors)) in
  let gradient := Qabs (center - mean) in
  if F64.ltb gradient 10 then (noiseSum + Sqrt variance, (count + 1)%Z)
  else acc.

(** [Analyzer.analyzeNoise]. *)
Definition analyzeNoise (gray : Gray) : Q * option string :=
  if (gDx gray <? 3)%Z || (gDy gray <? 3)%Z then (0, Some ErrImageTooSmall)
  else
    let '(noiseSum, count) := foldl (noiseStep gray) (0, 0%Z) (interior gray) in
    if (count =? 0)%Z then (5 # 10, None)
    else
      let avgNoise := noiseSum / F64.ofZ count in
      (F64.Min (avgNoise / 50) 1, None).

(** The positions of a full scan, row by row. *)
Definition allPixels (gray : Gray) : list (Z * Z) :=
  grid (range (gMinY gray) (gMaxY gray)) (range (gMinX gray) (gMaxX gray)).

(** One round of the histogram loop of [analyzeExposure]. *)
Definition exposureStep (gray : Gray) (acc : Q * Z * Z) (p : Z * Z) : Q * Z * Z :=
  let '(sum, darkPixels, brightPixels) := acc in
  let '(x, y) := p in
  let luminance := Y gray x y / 255 in
  let sum := sum + luminance in
  if F64.ltb luminance (1 # 10) then (sum, (darkPixels + 1)%Z, brightPixels)
  else if F64.gtb luminance (9 # 10) then (sum, darkPixels, (brightPixels + 1)%Z)
  else (sum, darkPixels, brightPixels).

(** [Analyzer.analyzeExposure]: the mean luminance, shifted when more than
    30% of the pixels are dark or bright, clamped to [0, 1]. *)
Definition analyzeExposure (gray : Gray) : Q * option string :=
  let totalPixels := (gDx gray * gDy gray)%Z in
  if (totalPixels =? 0)%Z then (5 # 10, None)
  else
    let '(sum, darkPixels, brightPixels) :=
      foldl (exposureStep gray) (0, 0%Z, 0%Z) (allPixels gray) in
    let avgLuminance := sum / F64.ofZ totalPixels in
    let darkRatio := F64.ofZ darkPixels / F64.ofZ totalPixels in
    let brightRatio := F64.ofZ brightPixels / F64.ofZ totalPixels in
    let exposure := avgLuminance in
    let exposure :=
      if F64.gtb darkRatio (3 # 10) then exposure - (darkRatio - (3 # 10)) * (5 # 10)
      else exposure in
    let exposure :=
      if F64.gtb brightRatio (3 # 10) then exposure + (brightRatio - (3 # 10)) * (5 # 10)
      else exposure in
    (F64.Max 0 (F64.Min 1 exposure), None).

(** One round of the loop of [analyzeContrast]. *)
Definition contrastStep (gray : Gray) (acc : Q * Q) (p : Z * Z) : Q * Q :=
  let '(sum, sumSquares) := acc in
  let '(x, y) := p in
  let value := Y gray x y / 255 in
  (sum + value, sumSquares + value * value).

(** [Analyzer.analyzeContrast]: the standard deviation of the luminance
    over 0.4, capped at 1. *)
Definition analyzeContrast (gray : Gray) : Q * option string :=
  let totalPixels := (gDx gray * gDy gray)%Z in
  if (totalPixels =? 0)%Z then (5 # 10, None)
  else
    let '(sum, sumSquares) := foldl (contrastStep gray) (0, 0) (allPixels gray) in
    let mean := sum / F64.ofZ totalPixels in
    let variance := sumSquares / F64.ofZ totalPixels - mean * mean in
    let stdDev := Sqrt (F64.Max 0 variance) in
    (F64.Min (stdDev / (4 # 10)) 1, None).

(** [Analyzer.analyzeCompression]: a fixed 0.1 below 100 pixels on a side
    and a fixed 0.3 otherwise; the pixels are not read. *)
Definition analyzeCompression (img : Image) : Q :=
  if (Dx img <? 100)%Z || (Dy img <? 100)%Z then 1 # 10
  else 3 # 10.

(** One round of the sampling loop of [analyzeColorCast]. *)
Definition colorStep (img : Image) (acc : Q * Q * Q) (p : Z * Z) : Q * Q * Q :=
  let '(rSum, gSum, bSum) := acc in
  let '(x, y) := p in
  let c := At img x y in
  (rSum + F64.ofZ (cr c) / 65535, gSum + F64.ofZ (cg c) / 65535,
   bSum + F64.ofZ (cb c) / 65535).

(** Every fourth pixel of every fourth row. *)
Definition sampled (img : Image) : list (Z * Z) :=
  grid (rangeBy 4 (MinY img) (MaxY img)) (rangeBy 4 (MinX img) (MaxX img)).

(** [Analyzer.analyzeColorCast]: the distance of the normalised channel
    means from (1, 1, 1), over the square root of 3. *)
Definition analyzeColorCast (img : Image) : Q * option string :=
  let totalPixels := (Dx img * Dy img)%Z in
  if (totalPixels =? 0)%Z then (0, None)
  else
    let '(rSum, gSum, bSum) := foldl (colorStep img) (0, 0, 0) (sampled img) in
    let sampledPixels := F64.ofZ ((Dx img / 4 + 1) * (Dy img / 4 + 1)) in
    let rAvg := rSum / sampledPixels in
    let gAvg := gSum / sampledPixels in
    let bAvg := bSum / sampledPixels in
    let maxChannel := F64.Max (F64.Max rAvg gAvg) bAvg in
    if F64.eqb maxChannel 0 then (0, None)
    else
      let rNorm := rAvg / maxChannel in
      let gNorm := gAvg / maxChannel in
      let bNorm := bAvg / maxChannel in
      let deviation :=
        Sqrt ((1 - rNorm) * (1 - rNorm) + (1 - gNorm) * (1 - gNorm)
              + (1 - bNorm) * (1 - bNorm)) / Sqrt 3 in
      (deviation, None).

(** The weight table of [Analyzer.calculateFinalScore]. *)
Definition analyzerWeights : gmap string Q :=
  <["sharpness" := 3 # 10]> (<["noise" := 25 # 100]> (<["exposure" := 2 # 10]>
  (<["contrast" := 15 # 100]> (<["compression" := 5 # 100]>
  (<["color_cast" := 5 # 100]> ∅))))).

(** [weights["key"]]: a missing key reads as zero. *)
Definition weight (weights : gmap string Q) (key : string) : Q :=
  default 0 (weights !! key).

(** The weighted sum shared by [Analyzer.calculateFinalScore] and
    [ScoreCalculator.CalculateFinalScore]. *)
Definition weightedScore (weights : gmap string Q) (quality : ImageQuality) : Q :=
  let exposureScore := 1 - Qabs (Exposure quality - (5 # 10)) * 2 in
  let score :=
    Sharpness quality * weight weights "sharpness" +
    (1 - Noise quality) * weight weights "noise" +
    exposureScore * weight weights "exposure" +
    Contrast quality * weight weights "contrast" +
    (1 - Compression quality) * weight weights "compression" +
    (1 - ColorCast quality) * weight weights "color_cast" in
  let finalScore := score * 100 in
  F64.Max 0 (F64.Min 100 finalScore).

(** [Analyzer.calculateFinalScore]. *)
Definition calculateFinalScore (quality : ImageQuality) : Q :=
  weightedScore analyzerWeights quality.

(** The record [Analyze] returns once the six metrics are known. *)
Definition withFinalScore (q : ImageQuality) : ImageQuality :=
  {| Sharpness := Sharpness q; Noise := Noise q; Exposure := Exposure q;
     Contrast := Contrast q; Compression := Compression q;
     ColorCast := ColorCast q; FinalScore := calculateFinalScore q |}.

(** [Analyzer.Analyze]: the six metrics, the errors of the kernels being
    logged and dropped, then the composite. *)
Definition Analyze (img : Image) : ImageQuality :=
  let gray := toGray img in
  withFinalScore
    {| Sharpness := (analyzeSharpness gray).1;
       Noise := (analyzeNoise gray).1;
       Exposure := (analyzeExposure gray).1;
       Contrast := (analyzeContrast gray).1;
       Compression := analyzeCompression img;
       ColorCast := (analyzeColorCast img).1;
       FinalScore := 0 |}.

(** *** score_calculator.go *)

Record ScoreCalculator := { weights : gmap string Q }.

Definition NewScoreCalculator : ScoreCalculator :=
  {| weights := analyzerWeights |}.

Definition CalculateFinalScore (sc : ScoreCalculator) (quality : ImageQuality) : Q :=
  weightedScore (weights sc) quality.

(** [SetWeights] stores the map it is given. *)
Definition SetWeights (sc : ScoreCalculator) (w : gmap string Q) : ScoreCalculator :=
  {| weights := w |}.

Definition GetWeights (sc : ScoreCalculator) : gmap string Q := weights sc.

(** The sum over a weight map, as the [range] loop of [NormalizeWeights]
    accumulates it. *)
Definition weightTotal (w : gmap string Q) : Q :=
  foldr (fun kv total => kv.2 + total) 0 (map_to_list w).

(** [NormalizeWeights]: nothing when the total is zero, otherwise every
    weight is divided by the total. *)
Definition NormalizeWeights (sc : ScoreCalculator) : ScoreCalculator :=
  let total := weightTotal (weights sc) in
  if F64.eqb total 0 then sc
  else {| weights := (fun weight => weight / total) <$> weights sc |}.

(** The tolerance of the specification: [| s - 1 | <= 10^-9]. *)
Definition sumsToOne (s : Q) : Prop := Qabs (s - 1) <= 1 # 1000000000.

(** The helpers at the end of score_calculator.go. *)
Definition abs (x : Q) : Q := if F64.ltb x 0 then - x else x.
Definition min (a b : Q) : Q := if F64.ltb a b then a else b.
Definition max (a b : Q) : Q := if F64.gtb a b then a else b.

(** [ScoreCalculator.CalculateSubscores]. *)
Definition CalculateSubscores (sc : ScoreCalculator) (quality : ImageQuality)
    : gmap string Q :=
  let exposureScore := 1 - abs (Exposure quality - (5 # 10)) * 2 in
  <["sharpness" := Sharpness quality * 100]>
  (<["noise" := (1 - Noise quality) * 100]>
  (<["exposure" := exposureScore * 100]>
  (<["contrast" := Contrast quality * 100]>
  (<["compression" := (1 - Compression quality) * 100]>
  (<["color_cast" := (1 - ColorCast quality) * 100]> ∅))))).

End Quality.

(** * Vocabulary of the statements

    Predicates, reference functions and sample data that the theorems
    below are stated with.  None of them is part of the Go code. *)

Section SelfComparisonTerms.

Import Similarity.

Local Open Scope Q_scope.

(** The running totals of a self-comparison: both sums agree, and the total
    weight is positive as soon as one kind has taken part. *)
Definition selfTotals (started : bool) (acc : Q * Q) : Prop :=
  acc.1 == acc.2 /\ 0 <= acc.2 /\ (started = true -> 0 < acc.2).

End SelfComparisonTerms.

Section PopcountTerms.

Import Similarity.

(** The number of ones in the binary writing of a number. *)
Fixpoint popcountPos (p : positive) : nat :=
  match p with
  | xH => 1
  | xO q => popcountPos q
  | xI q => S (popcountPos q)
  end.

(** The number of ones of a non-negative integer. *)
Definition popcount (x : Z) : nat :=
  match x with
  | Zpos p => popcountPos p
  | _ => 0
  end.

End PopcountTerms.

Section SampleHashes.

Import Similarity.

Local Open Scope Q_scope.

(** A fingerprint with the given four hashes and nothing else of note. *)
Definition hashesOnly (a p d w : Z) : ImageFingerprint :=
  {| ID := "img_0"; Metadata := zeroMetadata;
     PHashes := {| AHash := a; PHash := p; DHash := d; WHash := w |};
     Quality := zeroQuality |}.

End SampleHashes.

Section IndexInvariants.

Import Index.

(** [tx'] differs from [tx] at most in the bucket [name]. *)
Definition sameExcept (name : string) (tx tx' : DB) : Prop :=
  fingerprints tx' = fingerprints tx /\
  forall n, n <> name -> buckets tx' !! n = buckets tx !! n.

(** Every record of a reachable index is stored under its own id. *)
Definition keyedById (db : DB) : Prop :=
  forall k fp, fingerprints db !! k = Some fp -> ID fp = k.

(** The SHA-256 bucket of a reachable index only holds bare ids. *)
Definition rawOnly (name : string) (db : DB) : Prop :=
  forall key value, Get name key db = Some value -> exists id, value = RawID id.

End IndexInvariants.

Section SampleFingerprints.

Import Index.

(** Sample records. *)
Definition sampleFingerprint (id path sha : string) (a p d w : Z) (score : Q)
    : ImageFingerprint :=
  {| ID := id;
     Metadata := {| Path := path; SizeBytes := 1024; Format := "png";
                    Width := 800; Height := 600; ModifiedAt := 1700000000;
                    SHA256 := sha |};
     PHashes := {| AHash := a; PHash := p; DHash := d; WHash := w |};
     Quality := {| Sharpness := 0; Noise := 0; Exposure := 5 # 10; Contrast := 0;
                   Compression := 0; ColorCast := 0; FinalScore := score |} |}.

(** Two SHA-256 digests in hexadecimal. *)
Definition digest1 : string :=
  "9f86d081884c7d659a2feaa0c55ad015a3bf4f1b2b0b822cd15d6c15b0f00a08".
Definition digest2 : string :=
  "60303ae22b998861bce3b28f33eec1be758a213c86c93c076dbe9f558c11c752".

(** [fpA] and [fpB] are two records with the same digest; [fpA'] is a
    later scan of [fpA]'s id, moved and with other content. *)
Definition fpA : ImageFingerprint :=
  sampleFingerprint "img_00000000000000aa" "/photos/a.png" digest1 1 2 3 4 70.
Definition fpB : ImageFingerprint :=
  sampleFingerprint "img_00000000000000bb" "/photos/b.png" digest1 1 2 3 4 60.
Definition fpA' : ImageFingerprint :=
  sampleFingerprint "img_00000000000000aa" "/sorted/a.png" digest2 9 10 11 12 70.

End SampleFingerprints.

Section WeightTerms.

Import Quality.

Local Open Scope Q_scope.

(** The sum of the values of an association list. *)
Definition sumValues (l : list (string * Q)) : Q :=
  foldr (fun kv total => kv.2 + total) 0 l.

(** A user override whose weights sum to 8. *)
Definition overrideWeights : gmap string Q :=
  <["sharpness" := 2]> (<["noise" := 6]> ∅).

End WeightTerms.

Section FlatImages.

Import Quality.

Local Open Scope Q_scope.

(** A [w] x [h] image whose every pixel is [c]. *)
Definition constantImage (w h : Z) (c : Color) : Image :=
  {| MinX := 0; MinY := 0; MaxX := w; MaxY := h; At := fun _ _ => c |}.

(** A [w] x [h] image of constant 8-bit gray level 128. *)
Definition flat (w h : Z) : Image := constantImage w h (gray16 (128 * 257)).

(** 800 x 600 pixels of gray level 128, i.e. luminance 0.5. *)
Definition flatGray : Image := flat 800 600.

(** The metrics the scenario expects besides compression, around a
    given exposure, with a given compression. *)
Definition flatGrayMetrics (exposure compression : Q) : ImageQuality :=
  {| Sharpness := 0; Noise := 0; Exposure := exposure; Contrast := 0;
     Compression := compression; ColorCast := 0; FinalScore := 0 |}.

(** The gray level every pixel of [flat w h] has after [toGray]. *)
Definition flatLevel : Q := F64.ofZ 128.

End FlatImages.

Section SpotImages.

Import EngineHash Perceptual.

(** A black image with one white pixel at [(sx, sy)]. *)
Definition spotImage (w h sx sy : Z) : Image :=
  {| MinX := 0; MinY := 0; MaxX := w; MaxY := h;
     At := fun x y => if (x =? sx) && (y =? sy) then gray16 65535 else gray16 0 |}.

(** The mean of the 63 coefficients of the 8 x 8 block besides (0,0). *)
Definition blockMean (dctMatrix : list (list Q)) : Q :=
  (foldl Qplus 0%Q ((fun p => at2 dctMatrix p.1 p.2) <$> blockCoords 8) / 63)%Q.

End SpotImages.

Section GroupingTerms.

Import Similarity Engine.


(** The ids of the records with digest [k], in index order. *)
Definition idsWithDigest (fps : list ImageFingerprint) (k : string) : list ImageID :=
  ID <$> filter (fun fp => SHA256 (Metadata fp) = k) fps.

Local Open Scope Q_scope.

(** The sum of a list of rationals. *)
Definition Qsum (l : list Q) : Q := foldr Qplus 0 l.

(** All unordered pairs of positions of a list, each taken once. *)
Fixpoint unorderedPairs {A} (l : list A) : list (A * A) :=
  match l with
  | [] => []
  | x :: rest => (pair x <$> rest) ++ unorderedPairs rest
  end.

(** The arithmetic mean of the similarities over all unordered pairs. *)
Definition meanPairwiseSimilarity (c : ComparatorConfig)
    (members : list ImageFingerprint) : Q :=
  Qsum ((fun p => (CompareFingerprints c p.1 p.2).1) <$> unorderedPairs members)
  / F64.ofZ (Z.of_nat (length (unorderedPairs members))).

(** The record [calculateGroupConfidence] reads for an id. *)
Definition fpOf (fps : list ImageFingerprint) (id : ImageID) : ImageFingerprint :=
  default zeroFingerprint (buildFpMap fps !! id).

(** The similarity of a pair of records. *)
Definition simOf (c : ComparatorConfig) (p : ImageFingerprint * ImageFingerprint) : Q :=
  (CompareFingerprints c p.1 p.2).1.

(** The group [FindNearDuplicates] builds from a list of candidates. *)
Definition nearGroup (e : Engine) (fingerprints : list ImageFingerprint)
    (similarImages : list ImageID) (groupID : string) : DuplicateGroup :=
  let mainImage := selectBestImage similarImages fingerprints PolicyHighestQuality in
  {| GroupID := groupID;
     MainImage := mainImage;
     DuplicateIDs := removeElement similarImages mainImage;
     Reason := "near";
     Confidence := calculateGroupConfidence e similarImages fingerprints |}.

(** A sample index: three near-identical pictures, two of them with the
    same digest. *)
Definition fpC : ImageFingerprint :=
  sampleFingerprint "img_00000000000000cc" "/photos/c.png" digest2 1 2 255 4 80.

(** The engine over the index that holds [fpA], [fpB] and [fpC]. *)
Definition sampleEngine : Engine :=
  NewEngine (Index.SaveFingerprint fpC
               (Index.SaveFingerprint fpB
                  (Index.SaveFingerprint fpA Index.initBuckets).1).1).1.

(** The first group the sample engine reports at threshold 0.8. *)
Definition sampleNearGroup : DuplicateGroup :=
  default {| GroupID := EmptyString; MainImage := EmptyString; DuplicateIDs := []; Reason := EmptyString;
             Confidence := 0 |}
          (head (FindNearDuplicates sampleEngine (8 # 10))).

(** The groups of the grouper of grouping.go on the three sample records. *)
Definition sampleGrouped : list DuplicateGroup :=
  Grouper.GroupBySimilarity (similarity sampleEngine) [fpA; fpB; fpC] (8 # 10).

End GroupingTerms.

Section ClusterTerms.

Import Similarity Grouper Engine.

(** The ids a list of clusters holds, cluster after cluster. *)
Definition clusteredIds (clusters : list Cluster) : list ImageID :=
  concat (Images <$> clusters).

(** The lists of at least two ids. *)
Definition proper (ids : list ImageID) : Prop := (1 < length ids)%nat.

(** The first cluster of the three sample records at threshold 0.8. *)
Definition sampleCluster : Cluster :=
  default {| ClusterID := EmptyString; Name := EmptyString; Images := []; Centroid := [] |}
          (head (ClusterByContent (similarity sampleEngine) [fpA; fpB; fpC] (8 # 10))).

End ClusterTerms.

Section IndexTerms.

Import Index.

(** The four buckets that [updateHashIndex] writes. *)
Definition hashBuckets : list string :=
  ["ahash_index"; "phash_index"; "dhash_index"; "whash_index"].

(** Every value of the bucket is a JSON list of ids that is not empty and
    holds no id twice. *)
Definition listsOnly (name : string) (db : DB) : Prop :=
  forall key value, Get name key db = Some value ->
    exists ids, value = JSONIDs ids /\ ids <> [] /\ NoDup ids.

(** The buckets of [initBuckets] exist. *)
Definition bucketsExist (db : DB) : Prop :=
  forall name, name ∈ indexBuckets -> is_Some (buckets db !! name).

(** The value of a hexadecimal digit. *)
Definition hexval (c : Ascii.ascii) : Z :=
  let n := Z.of_nat (Ascii.nat_of_ascii c) in
  if (48 <=? n) && (n <=? 57) then n - 48
  else if (97 <=? n) && (n <=? 102) then n - 87
  else 0.

(** Reading a hexadecimal numeral from the left. *)
Fixpoint parseHex (s : string) (v : Z) : Z :=
  match s with
  | EmptyString => v
  | String c s' => parseHex s' (16 * v + hexval c)
  end.


(** The index as the transactions leave it: the buckets exist and the
    hash buckets hold lists of ids. *)
Definition wellFormed (db : DB) : Prop :=
  bucketsExist db /\ forall n, n ∈ hashBuckets -> listsOnly n db.


End IndexTerms.

Section StoreTerms.

Import Index.







End StoreTerms.

Section SelectionTerms.

Import Similarity Engine.


Local Open Scope Q_scope.

(** The group [FindExactDuplicates] builds from the ids of one digest. *)
Definition exactGroup (fps : list ImageFingerprint) (groupCounter : Z)
    (imageIDs : list ImageID) : DuplicateGroup :=
  let mainImage := selectBestImage imageIDs fps PolicyHighestQuality in
  {| GroupID := "exact_" +:+ pretty groupCounter;
     MainImage := mainImage;
     DuplicateIDs := removeElement imageIDs mainImage;
     Reason := "exact";
     Confidence := 1 |}.

End SelectionTerms.

Section KernelTerms.

Import EngineHash Perceptual.

(** The integer luminance the a-hash and d-hash kernels read at a pixel. *)
Definition lum (gray : Image) (x y : Z) : Z :=
  let c := At gray x y in (cr c + cg c + cb c) / 3.

(** The loop the a-hash and p-hash kernels end with: the [i]-th value sets
    the bit at [pos i] when it passes the test. *)
Definition bitStep {A} (test : A -> bool) (pos : Z -> Z) (st : Z * Z) (x : A) : Z * Z :=
  let '(hash, i) := st in
  ((if test x then setBit hash (pos i) else hash), i + 1).

(** The pixels [computeAHash] collects and their integer mean. *)
Definition ahashPixels (gray : Image) : list Z :=
  (fun p => lum gray p.1 p.2)
    <$> grid (range (MinY gray) (MaxY gray)) (range (MinX gray) (MaxX gray)).

Definition ahashMean (gray : Image) : Z :=
  foldl Z.add 0 (ahashPixels gray) / Z.of_nat (length (ahashPixels gray)).

Local Open Scope Q_scope.




(** The mean of the absolute values of the 63 entries of the 8 x 8 block
    besides (0,0). *)
Definition absBlockMean (wavelet : list (list Q)) : Q :=
  (foldl Qplus 0%Q ((fun p => Qabs (at2 wavelet p.1 p.2)) <$> blockCoords 8) / 63)%Q.

End KernelTerms.

Section ScoreTerms.

(** The names of the six metrics. *)
Definition metricNames : list string :=
  ["sharpness"; "noise"; "exposure"; "contrast"; "compression"; "color_cast"].

End ScoreTerms.

(** * Properties *)

(** ** Comparisons on [Q] *)

Section F64Facts.

Local Open Scope Q_scope.

(** The boolean comparisons decide the order of [Q]. *)
Lemma ltb_lt (a b : Q) : F64.ltb a b = true <-> a < b.
Proof.
  unfold F64.ltb. rewrite negb_true_iff. split.
  - intros H. apply Qnot_le_lt. intros Hle.
    apply Qle_bool_iff in Hle. congruence.
  - intros H. destruct (Qle_bool b a) eqn:E; [|done].
    apply Qle_bool_iff in E. exfalso. by apply (Qlt_not_le a b).
Qed.

Lemma ltb_ge (a b : Q) : F64.ltb a b = false <-> b <= a.
Proof.
  unfold F64.ltb. rewrite negb_false_iff. apply Qle_bool_iff.
Qed.

Lemma gtb_gt (a b : Q) : F64.gtb a b = true <-> b < a.
Proof. apply ltb_lt. Qed.

Lemma gtb_le (a b : Q) : F64.gtb a b = false <-> a <= b.
Proof. apply ltb_ge. Qed.

Lemma eqb_eq (a b : Q) : F64.eqb a b = true <-> a == b.
Proof. apply Qeq_bool_iff. Qed.

Lemma eqb_neq (a b : Q) : F64.eqb a b = false <-> ~ a == b.
Proof.
  unfold F64.eqb. split.
  - apply Qeq_bool_neq.
  - intros H. destruct (Qeq_bool a b) eqn:E; [|done].
    apply Qeq_bool_iff in E. done.
Qed.

(** [math.Max] and [math.Min] return the larger and the smaller argument. *)
Lemma Max_spec (a b : Q) :
  (a < b /\ F64.Max a b = b) \/ (b <= a /\ F64.Max a b = a).
Proof.
  unfold F64.Max. destruct (F64.ltb a b) eqn:E.
  - left. by apply ltb_lt in E.
  - right. by apply ltb_ge in E.
Qed.

Lemma Min_spec (a b : Q) :
  (b < a /\ F64.Min a b = b) \/ (a <= b /\ F64.Min a b = a).
Proof.
  unfold F64.Min. destruct (F64.ltb b a) eqn:E.
  - left. by apply ltb_lt in E.
  - right. by apply ltb_ge in E.
Qed.

(** Clamping a value that equals one leaves one. *)
Lemma clamp_one (x : Q) : x == 1 -> F64.Max 0 (F64.Min 1 x) == 1.
Proof.
  intros Hx.
  destruct (Min_spec 1 x) as [[H1 ->]|[H1 ->]];
    [destruct (Max_spec 0 x) as [[H2 ->]|[H2 ->]]
    |destruct (Max_spec 0 1) as [[H2 ->]|[H2 ->]]]; lra.
Qed.

End F64Facts.

(** ** The comparator *)

Section ComparatorFacts.

Import Similarity.

Local Open Scope Q_scope.

(** The distance of a hash to itself is 0. *)
Lemma hammingDistance_self (h : Z) : hammingDistance h h = 0%Z.
Proof. unfold hammingDistance. by rewrite Z.lxor_nilpotent. Qed.

Lemma hammingDistance_sym (a b : Z) : hammingDistance a b = hammingDistance b a.
Proof. unfold hammingDistance. by rewrite Z.lxor_comm. Qed.

(** Each per-kind similarity of a hash with itself is 1. *)
Lemma compareAHash_self h : compareAHash h h == 1.
Proof. unfold compareAHash. rewrite hammingDistance_self. reflexivity. Qed.

(** The bias branch of [comparePHash] taken at distance 0 is the first
    one, which returns the similarity unchanged. *)
Lemma comparePHash_self h : comparePHash h h == 1.
Proof. unfold comparePHash. rewrite hammingDistance_self. reflexivity. Qed.

Lemma compareDHash_self h : compareDHash h h == 1.
Proof. unfold compareDHash. rewrite hammingDistance_self. reflexivity. Qed.

(** At distance 0 [compareWHash] boosts 1.0 to 1.1 and caps it at 1.0. *)
Lemma compareWHash_self h : compareWHash h h == 1.
Proof. unfold compareWHash. rewrite hammingDistance_self. reflexivity. Qed.

(** A self-comparison step keeps both running totals equal. *)
Lemma accumulate_self weight h cmp acc started :
  (forall x, cmp x x == 1) ->
  selfTotals started acc ->
  selfTotals (started || (F64.gtb weight 0 && negb (h =? 0)%Z))
             (accumulate weight h h cmp acc).
Proof.
  intros Hcmp (Heq & Hnn & Hpos). destruct acc as [ts tw]. simpl in *.
  unfold accumulate.
  destruct (F64.gtb weight 0) eqn:Hw; simpl.
  - apply gtb_gt in Hw.
    destruct (h =? 0)%Z; simpl.
    + rewrite orb_false_r. by repeat split.
    + repeat split; simpl.
      * rewrite (Hcmp h). lra.
      * lra.
      * intros _. lra.
  - rewrite orb_false_r. by repeat split.
Qed.

(** A self-comparison in which some kind takes part yields 1. *)
Lemma CompareFingerprints_self c fp :
  (F64.gtb (AHashWeight c) 0 && negb (AHash (PHashes fp) =? 0)%Z)
  || (F64.gtb (PHashWeight c) 0 && negb (PHash (PHashes fp) =? 0)%Z)
  || (F64.gtb (DHashWeight c) 0 && negb (DHash (PHashes fp) =? 0)%Z)
  || (F64.gtb (WHashWeight c) 0 && negb (WHash (PHashes fp) =? 0)%Z) = true ->
  (CompareFingerprints c fp fp).1 == 1.
Proof.
  intros Hsome. unfold CompareFingerprints.
  assert (H0 : selfTotals false (0, 0)) by (repeat split; simpl; [lra|done]).
  pose proof (accumulate_self (AHashWeight c) (AHash (PHashes fp)) _ _ _
                compareAHash_self H0) as H1.
  pose proof (accumulate_self (PHashWeight c) (PHash (PHashes fp)) _ _ _
                comparePHash_self H1) as H2.
  pose proof (accumulate_self (DHashWeight c) (DHash (PHashes fp)) _ _ _
                compareDHash_self H2) as H3.
  pose proof (accumulate_self (WHashWeight c) (WHash (PHashes fp)) _ _ _
                compareWHash_self H3) as H4.
  simpl in H4. rewrite Hsome in H4.
  destruct (accumulate (WHashWeight c) _ _ compareWHash _) as [ts tw].
  destruct H4 as (Heq & _ & Hpos). simpl in *. specialize (Hpos eq_refl).
  destruct (F64.eqb tw 0) eqn:E.
  - apply eqb_eq in E. lra.
  - simpl. apply clamp_one. rewrite Heq. field. lra.
Qed.

(** Every path through [CompareFingerprints] returns a [nil] error. *)
Lemma CompareFingerprints_nil_error c fp1 fp2 :
  (CompareFingerprints c fp1 fp2).2 = None.
Proof.
  unfold CompareFingerprints.
  destruct (accumulate (WHashWeight c) _ _ compareWHash _) as [ts tw].
  by destruct (F64.eqb tw 0).
Qed.

(** The similarity is symmetric: every kind compares through the
    symmetric Hamming distance. *)
Lemma accumulate_sym weight h1 h2 cmp acc :
  (forall a b, cmp a b = cmp b a) ->
  accumulate weight h1 h2 cmp acc = accumulate weight h2 h1 cmp acc.
Proof.
  intros Hcmp. unfold accumulate. destruct acc as [ts tw].
  rewrite (Hcmp h1 h2).
  by destruct (F64.gtb weight 0), (h1 =? 0)%Z, (h2 =? 0)%Z.
Qed.

(** The comparison is symmetric in its two fingerprints. *)
Lemma CompareFingerprints_sym c fp1 fp2 :
  CompareFingerprints c fp1 fp2 = CompareFingerprints c fp2 fp1.
Proof.
  unfold CompareFingerprints.
  rewrite (accumulate_sym (AHashWeight c) (AHash (PHashes fp1))),
          (accumulate_sym (PHashWeight c) (PHash (PHashes fp1))),
          (accumulate_sym (DHashWeight c) (DHash (PHashes fp1))),
          (accumulate_sym (WHashWeight c) (WHash (PHashes fp1))); [done|..];
    intros a b; unfold compareAHash, comparePHash, compareDHash, compareWHash;
    by rewrite (hammingDistance_sym a b).
Qed.

End ComparatorFacts.

(** ** The Hamming distance loop *)

Section HammingFacts.

Import Similarity.

(** Clearing the lowest set bit of an odd number. *)
Lemma land_pred_odd (a : Z) : Z.land (2 * a + 1) (2 * a) = 2 * a.
Proof.
  apply Z.bits_inj'. intros n Hn. rewrite Z.land_spec.
  destruct (Z.eq_dec n 0) as [->|Hn0].
  - by rewrite Z.testbit_odd_0, Z.testbit_even_0.
  - replace n with (Z.succ (n - 1)) by lia.
    rewrite Z.testbit_odd_succ, Z.testbit_even_succ by lia. apply andb_diag.
Qed.

Lemma land_pred_even (a : Z) : Z.land (2 * a) (2 * a - 1) = 2 * Z.land a (a - 1).
Proof.
  replace (2 * a - 1) with (2 * (a - 1) + 1) by lia.
  apply Z.bits_inj'. intros n Hn. rewrite Z.land_spec.
  destruct (Z.eq_dec n 0) as [->|Hn0].
  - by rewrite !Z.testbit_even_0.
  - replace n with (Z.succ (n - 1)) by lia.
    rewrite Z.testbit_odd_succ, !Z.testbit_even_succ by lia. by rewrite Z.land_spec.
Qed.

(** Doubling a number keeps its number of ones. *)
Lemma popcount_double (a : Z) : 0 <= a -> popcount (2 * a) = popcount a.
Proof. by destruct a. Qed.

(** One round of the loop clears one set bit. *)
Lemma popcount_clear_lowest (p : positive) :
  popcount (Z.land (Zpos p) (Zpos p - 1)) = pred (popcountPos p).
Proof.
  induction p as [q IH|q IH|].
  - change (Zpos q~1) with (2 * Zpos q + 1).
    replace (2 * Zpos q + 1 - 1) with (2 * Zpos q) by lia.
    rewrite land_pred_odd. done.
  - change (Zpos q~0) with (2 * Zpos q). rewrite land_pred_even.
    rewrite popcount_double by (apply Z.land_nonneg; lia). exact IH.
  - done.
Qed.

(** A positive number has at least one bit set. *)
Lemma popcountPos_pos (p : positive) : (0 < popcountPos p)%nat.
Proof. induction p; simpl; lia. Qed.

(** With at least as much fuel as there are set bits, the loop counts them. *)
Lemma hamming_loop_popcount (fuel : nat) : forall (x d : Z),
  0 <= x -> (popcount x <= fuel)%nat ->
  hamming_loop fuel x d = d + Z.of_nat (popcount x).
Proof.
  induction fuel as [|fuel IH]; intros x d Hx Hp.
  - destruct x as [|p|p]; [simpl; lia| |lia].
    pose proof (popcountPos_pos p). simpl in Hp. lia.
  - destruct x as [|p|p]; [simpl; lia| |lia].
    cbn [hamming_loop]. change (Z.pos p =? 0) with false. cbv iota.
    pose proof (popcountPos_pos p) as Hpos.
    rewrite IH.
    + rewrite popcount_clear_lowest. simpl. lia.
    + apply Z.land_nonneg. lia.
    + rewrite popcount_clear_lowest. simpl in Hp. lia.
Qed.

(** A number below [2^n] has at most [n] bits set. *)
Lemma popcountPos_bound (p : positive) : forall n : nat,
  Zpos p < 2 ^ Z.of_nat n -> (popcountPos p <= n)%nat.
Proof.
  induction p as [q IH|q IH|]; intros [|n] H; try (simpl in H; lia).
  - rewrite Nat2Z.inj_succ, Z.pow_succ_r in H by lia.
    simpl. apply le_n_S, IH. lia.
  - rewrite Nat2Z.inj_succ, Z.pow_succ_r in H by lia.
    simpl. apply Nat.le_le_succ_r, IH. lia.
  - simpl. lia.
Qed.

(** The exclusive or of two 64-bit values is a 64-bit value. *)
Lemma lxor_uint64 (a b : Z) :
  0 <= a < 2 ^ 64 -> 0 <= b < 2 ^ 64 -> 0 <= Z.lxor a b < 2 ^ 64.
Proof.
  intros Ha Hb. split; [apply Z.lxor_nonneg; lia|].
  destruct (Z.eq_dec (Z.lxor a b) 0) as [->|Hne]; [done|].
  assert (0 < Z.lxor a b) by (pose proof (proj2 (Z.lxor_nonneg a b)); lia).
  apply Z.log2_lt_pow2; [done|].
  pose proof (Z.log2_lxor a b ltac:(lia) ltac:(lia)) as Hl.
  assert (Z.log2 a < 64).
  { destruct (Z.eq_dec a 0) as [->|]; [done|]. apply Z.log2_lt_pow2; lia. }
  assert (Z.log2 b < 64).
  { destruct (Z.eq_dec b 0) as [->|]; [done|]. apply Z.log2_lt_pow2; lia. }
  lia.
Qed.

(** On 64-bit words the 64 rounds of fuel are enough: the result is the
    number of differing bits, and more fuel would not change it. *)
Lemma hamming_loop_fuel (a b : Z) (extra : nat) :
  0 <= a < 2 ^ 64 -> 0 <= b < 2 ^ 64 ->
  hammingDistance a b = Z.of_nat (popcount (Z.lxor a b)) /\
  hamming_loop (64 + extra) (Z.lxor a b) 0 = hammingDistance a b.
Proof.
  intros Ha Hb. pose proof (lxor_uint64 a b Ha Hb) as Hx.
  assert (Hp : (popcount (Z.lxor a b) <= 64)%nat).
  { destruct (Z.lxor a b) as [|p|p]; [simpl; lia| |lia].
    apply popcountPos_bound. simpl. lia. }
  unfold hammingDistance.
  rewrite !hamming_loop_popcount by lia. split; lia.
Qed.

End HammingFacts.

(** ** Identity and totality of the comparison *)

Section ComparatorClaims.

Import Similarity.

Local Open Scope Q_scope.

(** The comparator of [NewEngine] carries the default weights. *)
Lemma NewEngine_weights store :
  let c := Engine.similarity (Engine.NewEngine store) in
  AHashWeight c = 2 # 10 /\ PHashWeight c = 4 # 10 /\
  DHashWeight c = 3 # 10 /\ WHashWeight c = 1 # 10.
Proof. done. Qed.

(** C7.  For every fingerprint with at least one non-zero perceptual hash,
    the engine's weighted similarity of the fingerprint with itself is 1:
    at Hamming distance 0 the p_hash bias keeps 1.0 and the w_hash boost is
    capped at 1.0, so the weighted sum equals the total weight. *)
Theorem C7_similarity_identity (store : Index.DB) (fp : ImageFingerprint) :
  AHash (PHashes fp) <> 0%Z \/ PHash (PHashes fp) <> 0%Z \/
  DHash (PHashes fp) <> 0%Z \/ WHash (PHashes fp) <> 0%Z ->
  (CompareFingerprints (Engine.similarity (Engine.NewEngine store)) fp fp).1 == 1.
Proof.
  intros Hnz. apply CompareFingerprints_self. simpl.
  change (F64.gtb (2 # 10) 0) with true. change (F64.gtb (4 # 10) 0) with true.
  change (F64.gtb (3 # 10) 0) with true. change (F64.gtb (1 # 10) 0) with true.
  simpl. rewrite !orb_true_iff, !negb_true_iff, !Z.eqb_neq. tauto.
Qed.

Lemma C7_similarity_identity_witness :
  (AHash (PHashes (hashesOnly 0 5 0 9)) <> 0%Z \/
   PHash (PHashes (hashesOnly 0 5 0 9)) <> 0%Z \/
   DHash (PHashes (hashesOnly 0 5 0 9)) <> 0%Z \/
   WHash (PHashes (hashesOnly 0 5 0 9)) <> 0%Z) /\
  (CompareFingerprints (Engine.similarity (Engine.NewEngine Index.initBuckets))
     (hashesOnly 0 5 0 9) (hashesOnly 0 5 0 9)).1 == 1.
Proof.
  assert (H : AHash (PHashes (hashesOnly 0 5 0 9)) <> 0%Z \/
              PHash (PHashes (hashesOnly 0 5 0 9)) <> 0%Z \/
              DHash (PHashes (hashesOnly 0 5 0 9)) <> 0%Z \/
              WHash (PHashes (hashesOnly 0 5 0 9)) <> 0%Z).
  { right. left. simpl. lia. }
  split; [exact H|].
  exact (C7_similarity_identity Index.initBuckets (hashesOnly 0 5 0 9) H).
Defined.

(** C10.  [CompareFingerprints] returns a [nil] error for every comparator
    and every pair of fingerprints, so the [err != nil] branches of its
    callers are never taken: each inner-loop step of [GroupBySimilarity] and
    of [FindNearDuplicates] is the step that looks at the similarity alone. *)
Theorem C10_compare_never_fails :
  (forall c fp1 fp2, (CompareFingerprints c fp1 fp2).2 = None) /\
  (forall c threshold fp1 st fp2,
     Grouper.groupStep c threshold fp1 st fp2 =
     if bool_decide (ID fp2 ∈ st.2) then st
     else if F64.geb (CompareFingerprints c fp1 fp2).1 threshold
          then ({| GroupID := GroupID st.1;
                   MainImage := MainImage st.1;
                   DuplicateIDs := DuplicateIDs st.1 ++ [ID fp2];
                   Reason := Reason st.1;
                   Confidence := (CompareFingerprints c fp1 fp2).1 |},
                st.2 ∪ {[ID fp2]})
          else st) /\
  (forall e threshold fp1 st fp2,
     Engine.nearStep e threshold fp1 st fp2 =
     if bool_decide (ID fp2 ∈ st.2) then st
     else if F64.geb (CompareFingerprints (Engine.similarity e) fp1 fp2).1 threshold
          then (st.1 ++ [ID fp2], st.2 ∪ {[ID fp2]})
          else st).
Proof.
  split; [apply CompareFingerprints_nil_error|]. split.
  - intros c threshold fp1 [group assigned] fp2. unfold Grouper.groupStep. simpl.
    pose proof (CompareFingerprints_nil_error c fp1 fp2) as Herr.
    destruct (CompareFingerprints c fp1 fp2) as [s err]. simpl in *. by subst.
  - intros e threshold fp1 [similarImages processed] fp2. unfold Engine.nearStep. simpl.
    pose proof (CompareFingerprints_nil_error (Engine.similarity e) fp1 fp2) as Herr.
    destruct (CompareFingerprints (Engine.similarity e) fp1 fp2) as [s err].
    simpl in *. by subst.
Qed.

End ComparatorClaims.

(** ** The index: what a transaction touches *)

Section IndexFacts.

Import Index.

(** Changing nothing is a change of one bucket. *)
Lemma sameExcept_refl name tx : sameExcept name tx tx.
Proof. by split. Qed.

Lemma Put_sameExcept name key value tx tx' :
  Put name key value tx = Some tx' -> sameExcept name tx tx'.
Proof.
  unfold Put. intros H. apply bind_Some in H as (b & Hb & H).
  destruct (keyOK key); [|done]. injection H as <-. split; [done|].
  intros n Hn. simpl. by rewrite lookup_insert_ne.
Qed.

Lemma Delete_sameExcept name key tx tx' :
  Delete name key tx = Some tx' -> sameExcept name tx tx'.
Proof.
  unfold Delete. intros H. apply bind_Some in H as (b & Hb & H).
  injection H as <-. split; [done|].
  intros n Hn. simpl. by rewrite lookup_insert_ne.
Qed.

Lemma updateHashIndex_sameExcept name hash id tx tx' :
  updateHashIndex name hash id tx = Some tx' -> sameExcept name tx tx'.
Proof.
  unfold updateHashIndex. destruct (hash =? 0).
  { intros [= <-]. apply sameExcept_refl. }
  intros H. apply bind_Some in H as (images & _ & H).
  destruct (bool_decide (id ∈ images)).
  - injection H as <-. apply sameExcept_refl.
  - by apply Put_sameExcept in H.
Qed.

Lemma removeFromHashIndex_sameExcept name hash id tx tx' :
  removeFromHashIndex name hash id tx = Some tx' -> sameExcept name tx tx'.
Proof.
  unfold removeFromHashIndex. destruct (hash =? 0).
  { intros [= <-]. apply sameExcept_refl. }
  destruct (Get name (hex16 hash) tx) as [data|].
  2:{ intros [= <-]. apply sameExcept_refl. }
  intros H. apply bind_Some in H as (images & _ & H).
  destruct (filter _ images).
  - by apply Delete_sameExcept in H.
  - by apply Put_sameExcept in H.
Qed.

(** Reading a bucket after a write to it. *)
Lemma Get_Put name key value tx tx' key' :
  Put name key value tx = Some tx' ->
  Get name key' tx' = if decide (key = key') then Some value else Get name key' tx.
Proof.
  unfold Put, Get. intros H. apply bind_Some in H as (b & Hb & H).
  destruct (keyOK key); [|done]. injection H as <-. simpl.
  rewrite lookup_insert_eq, Hb. simpl. by rewrite lookup_insert.
Qed.

(** Reading a key after deleting one. *)
Lemma Get_Delete name key tx tx' key' :
  Delete name key tx = Some tx' ->
  Get name key' tx' = if decide (key = key') then None else Get name key' tx.
Proof.
  unfold Delete, Get. intros H. apply bind_Some in H as (b & Hb & H).
  injection H as <-. simpl.
  rewrite lookup_insert_eq, Hb. simpl. by rewrite lookup_delete.
Qed.

(** A bucket reads the same after changes to another bucket. *)
Lemma Get_sameExcept name n key tx tx' :
  sameExcept name tx tx' -> n <> name -> Get n key tx' = Get n key tx.
Proof. intros [_ H] Hn. unfold Get. by rewrite H. Qed.

(** The steps of a save, one after the other. *)
Lemma saveTx_steps fp tx tx' :
  saveTx fp tx = Some tx' ->
  exists t1 t2 t3 t4 t5 t6,
    putFingerprint fp tx = Some t1 /\
    Put "sha256_index" (SHA256 (Metadata fp)) (RawID (ID fp)) t1 = Some t2 /\
    Put "path_index" (Path (Metadata fp)) (RawID (ID fp)) t2 = Some t3 /\
    updateHashIndex "ahash_index" (AHash (PHashes fp)) (ID fp) t3 = Some t4 /\
    updateHashIndex "phash_index" (PHash (PHashes fp)) (ID fp) t4 = Some t5 /\
    updateHashIndex "dhash_index" (DHash (PHashes fp)) (ID fp) t5 = Some t6 /\
    updateHashIndex "whash_index" (WHash (PHashes fp)) (ID fp) t6 = Some tx'.
Proof.
  unfold saveTx. intros H.
  apply bind_Some in H as (t1 & H1 & H). apply bind_Some in H as (t2 & H2 & H).
  apply bind_Some in H as (t3 & H3 & H). apply bind_Some in H as (t4 & H4 & H).
  apply bind_Some in H as (t5 & H5 & H). apply bind_Some in H as (t6 & H6 & H).
  by exists t1, t2, t3, t4, t5, t6.
Qed.

(** The delete transaction, bucket by bucket. *)
Lemma deleteTx_steps id tx tx' :
  deleteTx id tx = Some tx' ->
  exists fp t1 t2 t3 t4 t5,
    GetFingerprint id tx = Some fp /\
    Delete "sha256_index" (SHA256 (Metadata fp))
      {| fingerprints := delete id (fingerprints tx); buckets := buckets tx |} = Some t1 /\
    Delete "path_index" (Path (Metadata fp)) t1 = Some t2 /\
    removeFromHashIndex "ahash_index" (AHash (PHashes fp)) id t2 = Some t3 /\
    removeFromHashIndex "phash_index" (PHash (PHashes fp)) id t3 = Some t4 /\
    removeFromHashIndex "dhash_index" (DHash (PHashes fp)) id t4 = Some t5 /\
    removeFromHashIndex "whash_index" (WHash (PHashes fp)) id t5 = Some tx'.
Proof.
  unfold deleteTx. intros H.
  apply bind_Some in H as (fp & H0 & H). apply bind_Some in H as (t1 & H1 & H).
  apply bind_Some in H as (t2 & H2 & H). apply bind_Some in H as (t3 & H3 & H).
  apply bind_Some in H as (t4 & H4 & H). apply bind_Some in H as (t5 & H5 & H).
  by exists fp, t1, t2, t3, t4, t5.
Qed.

(** The primary bucket after a save and after a delete. *)
Lemma saveTx_fingerprints fp tx tx' :
  saveTx fp tx = Some tx' -> fingerprints tx' = <[ID fp := fp]> (fingerprints tx).
Proof.
  intros H. apply saveTx_steps in H as (t1 & t2 & t3 & t4 & t5 & t6 & H1 & H2 & H3 & H4 & H5 & H6 & H7).
  apply Put_sameExcept in H2 as [E2 _], H3 as [E3 _].
  apply updateHashIndex_sameExcept in H4 as [E4 _], H5 as [E5 _], H6 as [E6 _], H7 as [E7 _].
  rewrite E7, E6, E5, E4, E3, E2.
  unfold putFingerprint in H1. destruct (keyOK (ID fp)); [|done]. by injection H1 as <-.
Qed.

(** The delete transaction removes the primary record of the id. *)
Lemma deleteTx_fingerprints id tx tx' :
  deleteTx id tx = Some tx' -> fingerprints tx' = delete id (fingerprints tx).
Proof.
  intros H. apply deleteTx_steps in H as (fp & t1 & t2 & t3 & t4 & t5 & H0 & H1 & H2 & H3 & H4 & H5 & H6).
  apply Delete_sameExcept in H1 as [E1 _], H2 as [E2 _].
  apply removeFromHashIndex_sameExcept in H3 as [E3 _], H4 as [E4 _], H5 as [E5 _], H6 as [E6 _].
  by rewrite E6, E5, E4, E3, E2, E1.
Qed.

(** Every reachable index stores each record under its own id. *)
Lemma reachable_keyedById db : reachable db -> keyedById db.
Proof.
  induction 1 as [|fp db Hr IH|id db Hr IH].
  - intros k fp. simpl. by rewrite lookup_empty.
  - unfold SaveFingerprint, Update. destruct (saveTx fp db) as [db'|] eqn:E; [|done].
    simpl. intros k fp'. rewrite (saveTx_fingerprints _ _ _ E), lookup_insert.
    case_decide; [by intros [= <-]|apply IH].
  - unfold DeleteFingerprint, Update. destruct (deleteTx id db) as [db'|] eqn:E; [|done].
    simpl. intros k fp'. rewrite (deleteTx_fingerprints _ _ _ E), lookup_delete.
    case_decide; [done|apply IH].
Qed.

(** In a reachable index no id is listed twice. *)
Lemma GetAllFingerprints_NoDup db :
  keyedById db -> NoDup (ID <$> GetAllFingerprints db).
Proof.
  intros Hk. unfold GetAllFingerprints.
  assert (E : ID <$> (map_to_list (fingerprints db)).*2 = (map_to_list (fingerprints db)).*1).
  { rewrite <- list_fmap_compose. apply Forall_fmap_ext, Forall_forall.
    intros [k fp] Hin. apply elem_of_map_to_list in Hin. simpl. by apply Hk. }
  rewrite E. apply NoDup_fst_map_to_list.
Qed.

(** In a reachable index the SHA-256 bucket holds bare ids only. *)
Lemma reachable_sha256_rawOnly db : reachable db -> rawOnly "sha256_index" db.
Proof.
  induction 1 as [|fp db Hr IH|id db Hr IH].
  - intros key value. vm_compute. done.
  - unfold SaveFingerprint, Update. destruct (saveTx fp db) as [db'|] eqn:E; [|done].
    simpl. apply saveTx_steps in E as (t1 & t2 & t3 & t4 & t5 & t6 & H1 & H2 & H3 & H4 & H5 & H6 & H7).
    intros key value.
    rewrite (Get_sameExcept _ _ _ _ _ (updateHashIndex_sameExcept _ _ _ _ _ H7)) by done.
    rewrite (Get_sameExcept _ _ _ _ _ (updateHashIndex_sameExcept _ _ _ _ _ H6)) by done.
    rewrite (Get_sameExcept _ _ _ _ _ (updateHashIndex_sameExcept _ _ _ _ _ H5)) by done.
    rewrite (Get_sameExcept _ _ _ _ _ (updateHashIndex_sameExcept _ _ _ _ _ H4)) by done.
    rewrite (Get_sameExcept _ _ _ _ _ (Put_sameExcept _ _ _ _ _ H3)) by done.
    rewrite (Get_Put _ _ _ _ _ key H2).
    case_decide; [intros [= <-]; by eexists|].
    unfold putFingerprint in H1. destruct (keyOK (ID fp)); [|done]. injection H1 as <-.
    apply IH.
  - unfold DeleteFingerprint, Update. destruct (deleteTx id db) as [db'|] eqn:E; [|done].
    simpl. apply deleteTx_steps in E as (fp & t1 & t2 & t3 & t4 & t5 & H0 & H1 & H2 & H3 & H4 & H5 & H6).
    intros key value.
    rewrite (Get_sameExcept _ _ _ _ _ (removeFromHashIndex_sameExcept _ _ _ _ _ H6)) by done.
    rewrite (Get_sameExcept _ _ _ _ _ (removeFromHashIndex_sameExcept _ _ _ _ _ H5)) by done.
    rewrite (Get_sameExcept _ _ _ _ _ (removeFromHashIndex_sameExcept _ _ _ _ _ H4)) by done.
    rewrite (Get_sameExcept _ _ _ _ _ (removeFromHashIndex_sameExcept _ _ _ _ _ H3)) by done.
    rewrite (Get_sameExcept _ _ _ _ _ (Delete_sameExcept _ _ _ _ H2)) by done.
    rewrite (Get_Delete _ _ _ _ key H1).
    case_decide; [done|apply IH].
Qed.

(** In a reachable index a digest leads to at most one fingerprint. *)
Lemma FindBySHA256_at_most_one db hash :
  reachable db -> (length (FindBySHA256 hash db) <= 1)%nat.
Proof.
  intros Hr. unfold FindBySHA256.
  destruct (Get "sha256_index" hash db) as [data|] eqn:E; [|simpl; lia].
  apply (reachable_sha256_rawOnly _ Hr) in E as [id ->]. simpl.
  destruct (fingerprints db !! id); simpl; lia.
Qed.

End IndexFacts.

(** ** Saving twice: what the secondary buckets hold afterwards *)

Section SaveTwice.

Import Index.

(** The path and SHA-256 buckets after a save: the saved record's key is
    (re)bound to its id, every other key is as before. *)
Lemma saveTx_path fp tx tx' key :
  saveTx fp tx = Some tx' ->
  Get "path_index" key tx' =
  if decide (Path (Metadata fp) = key) then Some (RawID (ID fp))
  else Get "path_index" key tx.
Proof.
  intros E. apply saveTx_steps in E as (t1 & t2 & t3 & t4 & t5 & t6 & H1 & H2 & H3 & H4 & H5 & H6 & H7).
  rewrite (Get_sameExcept _ _ _ _ _ (updateHashIndex_sameExcept _ _ _ _ _ H7)) by done.
  rewrite (Get_sameExcept _ _ _ _ _ (updateHashIndex_sameExcept _ _ _ _ _ H6)) by done.
  rewrite (Get_sameExcept _ _ _ _ _ (updateHashIndex_sameExcept _ _ _ _ _ H5)) by done.
  rewrite (Get_sameExcept _ _ _ _ _ (updateHashIndex_sameExcept _ _ _ _ _ H4)) by done.
  rewrite (Get_Put _ _ _ _ _ key H3). case_decide; [done|].
  rewrite (Get_sameExcept _ _ _ _ _ (Put_sameExcept _ _ _ _ _ H2)) by done.
  unfold putFingerprint in H1. destruct (keyOK (ID fp)); [|done]. by injection H1 as <-.
Qed.

(** After a save the SHA-256 bucket maps the digest of the record to its id
    and reads as before at every other key. *)
Lemma saveTx_sha256 fp tx tx' key :
  saveTx fp tx = Some tx' ->
  Get "sha256_index" key tx' =
  if decide (SHA256 (Metadata fp) = key) then Some (RawID (ID fp))
  else Get "sha256_index" key tx.
Proof.
  intros E. apply saveTx_steps in E as (t1 & t2 & t3 & t4 & t5 & t6 & H1 & H2 & H3 & H4 & H5 & H6 & H7).
  rewrite (Get_sameExcept _ _ _ _ _ (updateHashIndex_sameExcept _ _ _ _ _ H7)) by done.
  rewrite (Get_sameExcept _ _ _ _ _ (updateHashIndex_sameExcept _ _ _ _ _ H6)) by done.
  rewrite (Get_sameExcept _ _ _ _ _ (updateHashIndex_sameExcept _ _ _ _ _ H5)) by done.
  rewrite (Get_sameExcept _ _ _ _ _ (updateHashIndex_sameExcept _ _ _ _ _ H4)) by done.
  rewrite (Get_sameExcept _ _ _ _ _ (Put_sameExcept _ _ _ _ _ H3)) by done.
  rewrite (Get_Put _ _ _ _ _ key H2). case_decide; [done|].
  unfold putFingerprint in H1. destruct (keyOK (ID fp)); [|done]. by injection H1 as <-.
Qed.

(** A save never removes a key from any bucket. *)
Lemma Put_keeps name key value tx tx' n k :
  Put name key value tx = Some tx' -> is_Some (Get n k tx) -> is_Some (Get n k tx').
Proof.
  intros H Hs. destruct (decide (n = name)) as [->|Hn].
  - rewrite (Get_Put _ _ _ _ _ k H). by case_decide.
  - by rewrite (Get_sameExcept _ _ _ _ _ (Put_sameExcept _ _ _ _ _ H)).
Qed.

(** Updating a hash bucket deletes no entry of any bucket. *)
Lemma updateHashIndex_keeps name hash id tx tx' n k :
  updateHashIndex name hash id tx = Some tx' ->
  is_Some (Get n k tx) -> is_Some (Get n k tx').
Proof.
  unfold updateHashIndex. destruct (hash =? 0); [by intros [= <-]|].
  intros H. apply bind_Some in H as (images & _ & H).
  destruct (bool_decide (id ∈ images)); [by injection H as <-|].
  intros Hs. eapply Put_keeps; eauto.
Qed.

(** A save deletes no entry of any bucket. *)
Lemma saveTx_keeps fp tx tx' n k :
  saveTx fp tx = Some tx' -> is_Some (Get n k tx) -> is_Some (Get n k tx').
Proof.
  intros E Hs. apply saveTx_steps in E as (t1 & t2 & t3 & t4 & t5 & t6 & H1 & H2 & H3 & H4 & H5 & H6 & H7).
  eapply updateHashIndex_keeps; [exact H7|]. eapply updateHashIndex_keeps; [exact H6|].
  eapply updateHashIndex_keeps; [exact H5|]. eapply updateHashIndex_keeps; [exact H4|].
  eapply Put_keeps; [exact H3|]. eapply Put_keeps; [exact H2|].
  unfold putFingerprint in H1. destruct (keyOK (ID fp)); [|done]. by injection H1 as <-.
Qed.

(** Re-saving an id under a new path leaves the old path bound to the id,
    and re-saving it under a new digest leaves the old digest bound to it. *)
Lemma resave_leaves_stale_entries old new db db1 db2 :
  saveTx old db = Some db1 ->
  saveTx new db1 = Some db2 ->
  ID new = ID old ->
  GetFingerprint (ID new) db2 = Some new /\
  (Path (Metadata new) <> Path (Metadata old) ->
   Get "path_index" (Path (Metadata old)) db2 = Some (RawID (ID new))) /\
  (SHA256 (Metadata new) <> SHA256 (Metadata old) ->
   Get "sha256_index" (SHA256 (Metadata old)) db2 = Some (RawID (ID new))).
Proof.
  intros E1 E2 Hid. split; [|split].
  - unfold GetFingerprint. rewrite (saveTx_fingerprints _ _ _ E2). apply lookup_insert_eq.
  - intros Hp. rewrite (saveTx_path _ _ _ (Path (Metadata old)) E2).
    case_decide; [done|]. rewrite (saveTx_path _ _ _ (Path (Metadata old)) E1).
    case_decide; [|done]. by rewrite Hid.
  - intros Hs. rewrite (saveTx_sha256 _ _ _ (SHA256 (Metadata old)) E2).
    case_decide; [done|]. rewrite (saveTx_sha256 _ _ _ (SHA256 (Metadata old)) E1).
    case_decide; [|done]. by rewrite Hid.
Qed.

(** C3.  Two fingerprints with distinct ids and one digest are saved into a
    fresh store, both saves succeed and both records can be read back by id,
    but [FindBySHA256] on the shared digest returns the second one only: the
    SHA-256 bucket holds the bare id of the last save under that digest. *)
Theorem C3_find_by_sha256_returns_last_saved :
  let db1 := SaveFingerprint fpA initBuckets in
  let db2 := SaveFingerprint fpB db1.1 in
  ID fpA <> ID fpB /\
  SHA256 (Metadata fpA) = digest1 /\ SHA256 (Metadata fpB) = digest1 /\
  db1.2 = false /\ db2.2 = false /\
  GetFingerprint (ID fpA) db2.1 = Some fpA /\
  GetFingerprint (ID fpB) db2.1 = Some fpB /\
  Get "sha256_index" digest1 db2.1 = Some (RawID (ID fpB)) /\
  FindBySHA256 digest1 db2.1 = [fpB].
Proof. vm_compute. repeat split; done. Qed.

(** The in-memory store does the same. *)
Lemma MemoryStore_find_by_sha256_returns_last_saved :
  MemFindBySHA256 digest1 (MemSaveFingerprint fpB (MemSaveFingerprint fpA NewMemoryStore))
  = [fpB].
Proof. by vm_compute. Qed.

(** C4.  A record is saved and then saved again under the same id with a
    new path, a new digest and new perceptual hashes.  Both saves succeed
    and the primary record is the new one, yet the path bucket still binds
    the old path to the id, the SHA-256 bucket still binds the old digest to
    it, and each per-kind hash bucket still lists the id under the old hash;
    a lookup by the old digest even returns the record carrying the new
    digest. *)
Theorem C4_resave_keeps_stale_index_entries :
  let db1 := SaveFingerprint fpA initBuckets in
  let db2 := SaveFingerprint fpA' db1.1 in
  ID fpA' = ID fpA /\
  db1.2 = false /\ db2.2 = false /\
  GetFingerprint (ID fpA) db2.1 = Some fpA' /\
  Path (Metadata fpA') <> Path (Metadata fpA) /\
  Get "path_index" (Path (Metadata fpA)) db2.1 = Some (RawID (ID fpA)) /\
  SHA256 (Metadata fpA') <> SHA256 (Metadata fpA) /\
  Get "sha256_index" (SHA256 (Metadata fpA)) db2.1 = Some (RawID (ID fpA)) /\
  Get "ahash_index" (hex16 (AHash (PHashes fpA))) db2.1 = Some (JSONIDs [ID fpA]) /\
  Get "phash_index" (hex16 (PHash (PHashes fpA))) db2.1 = Some (JSONIDs [ID fpA]) /\
  Get "dhash_index" (hex16 (DHash (PHashes fpA))) db2.1 = Some (JSONIDs [ID fpA]) /\
  Get "whash_index" (hex16 (WHash (PHashes fpA))) db2.1 = Some (JSONIDs [ID fpA]) /\
  hex16 (AHash (PHashes fpA')) <> hex16 (AHash (PHashes fpA)) /\
  FindBySHA256 (SHA256 (Metadata fpA)) db2.1 = [fpA'].
Proof. vm_compute. repeat split; done. Qed.

End SaveTwice.

(** ** The score calculator's weights *)

Section WeightFacts.

Import Quality.

Local Open Scope Q_scope.

(** Dividing every value divides the sum. *)
Lemma sumValues_scale (c : Q) (l : list (string * Q)) :
  sumValues (prod_map id (fun weight => weight / c) <$> l) == sumValues l / c.
Proof.
  induction l as [|[k x] l IH].
  - unfold sumValues, Qdiv. simpl. ring.
  - change (sumValues (prod_map id (fun weight => weight / c) <$> (k, x) :: l))
      with (x / c + sumValues (prod_map id (fun weight => weight / c) <$> l)).
    change (sumValues ((k, x) :: l)) with (x + sumValues l).
    rewrite IH. unfold Qdiv. ring.
Qed.

(** Dividing every weight by the total makes the total 1. *)
Lemma weightTotal_normalized (w : gmap string Q) :
  ~ weightTotal w == 0 ->
  weightTotal ((fun weight => weight / weightTotal w) <$> w) == 1.
Proof.
  intros Hc. unfold weightTotal at 1. rewrite map_to_list_fmap.
  change (sumValues (prod_map id (fun weight => weight / weightTotal w) <$> map_to_list w) == 1).
  rewrite sumValues_scale.
  change (sumValues (map_to_list w)) with (weightTotal w). field. done.
Qed.

(** C9 as stated fails: [SetWeights] stores the map it is given, so after
    overriding the weights with the single entry sharpness = 2 the stored
    weights sum to 2. *)
Lemma C9_set_weights_stores_unnormalized :
  ~ (forall (sc : ScoreCalculator) (w : gmap string Q),
       w <> ∅ -> sumsToOne (weightTotal (GetWeights (SetWeights sc w)))).
Proof.
  intros H.
  specialize (H NewScoreCalculator {["sharpness" := 2]} (map_non_empty_singleton _ _)).
  unfold sumsToOne in H. apply Qle_bool_iff in H. vm_compute in H. done.
Qed.

(** C9, amended.  [SetWeights] stores the given map unchanged; once
    [NormalizeWeights] has been called on it, and provided the given weights
    do not sum to zero, the stored weights sum to 1 (in particular within
    10^-9 of 1). *)
Theorem C9_weights_sum_to_one_after_normalize (sc : ScoreCalculator) (w : gmap string Q) :
  ~ weightTotal w == 0 ->
  GetWeights (SetWeights sc w) = w /\
  weightTotal (GetWeights (NormalizeWeights (SetWeights sc w))) == 1 /\
  sumsToOne (weightTotal (GetWeights (NormalizeWeights (SetWeights sc w)))).
Proof.
  intros Hc. split; [done|].
  assert (E : weightTotal (GetWeights (NormalizeWeights (SetWeights sc w))) == 1).
  { unfold NormalizeWeights, SetWeights, GetWeights. simpl.
    apply eqb_neq in Hc. rewrite Hc. simpl. apply weightTotal_normalized.
    by apply eqb_neq. }
  split; [exact E|]. unfold sumsToOne. rewrite E. by vm_compute.
Qed.

Lemma C9_weights_sum_to_one_after_normalize_witness :
  ~ weightTotal overrideWeights == 0 /\
  sumsToOne (weightTotal (GetWeights
    (NormalizeWeights (SetWeights NewScoreCalculator overrideWeights)))).
Proof.
  assert (H : ~ weightTotal overrideWeights == 0).
  { intros H. apply Qeq_bool_iff in H. vm_compute in H. done. }
  split; [exact H|].
  exact (proj2 (proj2 (C9_weights_sum_to_one_after_normalize
                         NewScoreCalculator overrideWeights H))).
Defined.

(** With a zero total, [NormalizeWeights] leaves the weights alone. *)
Lemma NormalizeWeights_zero_total sc :
  weightTotal (weights sc) == 0 -> NormalizeWeights sc = sc.
Proof. intros H. unfold NormalizeWeights. apply eqb_eq in H. by rewrite H. Qed.

End WeightFacts.

(** ** The composite score of a flat gray image *)

Section FlatGray.

Import Quality.

Local Open Scope Q_scope.

(** From 100 x 100 pixels on, the compression metric is 0.3. *)
Lemma analyzeCompression_large img :
  (100 <= Dx img)%Z -> (100 <= Dy img)%Z -> analyzeCompression img = 3 # 10.
Proof.
  intros Hx Hy. unfold analyzeCompression.
  destruct (Z.ltb_spec (Dx img) 100); [lia|].
  destruct (Z.ltb_spec (Dy img) 100); [lia|]. done.
Qed.

(** With compression 0.3 and the other metrics of the scenario the
    composite is at most 53.5, whatever the exposure. *)
Lemma calculateFinalScore_flat_bound exposure :
  calculateFinalScore (flatGrayMetrics exposure (3 # 10)) <= 535 # 10.
Proof.
  unfold calculateFinalScore, weightedScore, flatGrayMetrics.
  cbn [Sharpness Noise Exposure Contrast Compression ColorCast].
  change (weight analyzerWeights "sharpness") with (3 # 10).
  change (weight analyzerWeights "noise") with (25 # 100).
  change (weight analyzerWeights "exposure") with (2 # 10).
  change (weight analyzerWeights "contrast") with (15 # 100).
  change (weight analyzerWeights "compression") with (5 # 100).
  change (weight analyzerWeights "color_cast") with (5 # 100).
  pose proof (Qabs_nonneg (exposure - (5 # 10))) as Habs.
  set (a := Qabs (exposure - (5 # 10))) in *.
  set (fs := (_ * 100)).
  assert (Hfs : fs <= 535 # 10) by (unfold fs; lra).
  destruct (Min_spec 100 fs) as [[H1 ->]|[H1 ->]];
    [destruct (Max_spec 0 fs) as [[H2 ->]|[H2 ->]]
    |destruct (Max_spec 0 100) as [[H2 ->]|[H2 ->]]]; lra.
Qed.

(** At exposure 0.5 and compression 0 the composite is 55. *)
Lemma calculateFinalScore_flat_uncompressed :
  calculateFinalScore (flatGrayMetrics (5 # 10) 0) == 55.
Proof. by vm_compute. Qed.

(** [math.Min] and [math.Max] respect equality of rationals. *)
Lemma Min_compat a a' b b' : a == a' -> b == b' -> F64.Min a b == F64.Min a' b'.
Proof.
  intros Ha Hb.
  destruct (Min_spec a b) as [[? ->]|[? ->]], (Min_spec a' b') as [[? ->]|[? ->]]; lra.
Qed.

Lemma Max_compat a a' b b' : a == a' -> b == b' -> F64.Max a b == F64.Max a' b'.
Proof.
  intros Ha Hb.
  destruct (Max_spec a b) as [[? ->]|[? ->]], (Max_spec a' b') as [[? ->]|[? ->]]; lra.
Qed.

(** The composite only depends on the values of the six metrics. *)
Lemma weightedScore_compat w q q' :
  Sharpness q == Sharpness q' -> Noise q == Noise q' -> Exposure q == Exposure q' ->
  Contrast q == Contrast q' -> Compression q == Compression q' ->
  ColorCast q == ColorCast q' ->
  weightedScore w q == weightedScore w q'.
Proof.
  intros H1 H2 H3 H4 H5 H6. unfold weightedScore.
  apply Max_compat; [reflexivity|]. apply Min_compat; [reflexivity|].
  by rewrite H1, H2, H3, H4, H5, H6.
Qed.

(** Loops whose every round adds the same amounts. *)
Lemma foldl_sum_count {A} (step : Q * Z -> A -> Q * Z) (c : Q) :
  (forall s n p, step (s, n) p = (s + c, (n + 1)%Z)) ->
  forall l s n,
    (foldl step (s, n) l).2 = (n + Z.of_nat (length l))%Z /\
    (foldl step (s, n) l).1 == s + F64.ofZ (Z.of_nat (length l)) * c.
Proof.
  intros Hstep. induction l as [|p l IH]; intros s n.
  - simpl. split; [lia|]. unfold F64.ofZ. simpl. ring.
  - cbn [foldl]. rewrite Hstep. destruct (IH (s + c) (n + 1)%Z) as [IH2 IH1].
    split; [rewrite IH2, length_cons; lia|].
    rewrite IH1, length_cons, Nat2Z.inj_succ. unfold F64.ofZ, Z.succ.
    rewrite !inject_Z_plus. ring.
Qed.

(** The same for the loop of [analyzeExposure], whose counters stay. *)
Lemma foldl_sum_only {A} (step : Q * Z * Z -> A -> Q * Z * Z) (c : Q) :
  (forall s d b p, step (s, d, b) p = (s + c, d, b)) ->
  forall l s d b,
    exists s', foldl step (s, d, b) l = (s', d, b) /\
               s' == s + F64.ofZ (Z.of_nat (length l)) * c.
Proof.
  intros Hstep. induction l as [|p l IH]; intros s d b.
  - exists s. split; [done|]. unfold F64.ofZ. simpl. ring.
  - cbn [foldl]. rewrite Hstep. destruct (IH (s + c) d b) as (s' & E & Hs').
    exists s'. split; [done|].
    rewrite Hs', length_cons, Nat2Z.inj_succ. unfold F64.ofZ, Z.succ.
    rewrite !inject_Z_plus. ring.
Qed.

(** The same for two running sums. *)
Lemma foldl_sum_pair {A} (step : Q * Q -> A -> Q * Q) (c1 c2 : Q) :
  (forall s q p, step (s, q) p = (s + c1, q + c2)) ->
  forall l s q,
    (foldl step (s, q) l).1 == s + F64.ofZ (Z.of_nat (length l)) * c1 /\
    (foldl step (s, q) l).2 == q + F64.ofZ (Z.of_nat (length l)) * c2.
Proof.
  intros Hstep. induction l as [|p l IH]; intros s q.
  - simpl. unfold F64.ofZ. simpl. split; ring.
  - cbn [foldl]. rewrite Hstep. destruct (IH (s + c1) (q + c2)) as [IH1 IH2].
    rewrite IH1, IH2, length_cons, Nat2Z.inj_succ. unfold F64.ofZ, Z.succ.
    rewrite !inject_Z_plus. split; ring.
Qed.

(** The same for the three channel sums. *)
Lemma foldl_sum_triple {A} (step : Q * Q * Q -> A -> Q * Q * Q) (c : Q) :
  (forall r g b p, step (r, g, b) p = (r + c, g + c, b + c)) ->
  forall l r g b,
    exists r' g' b', foldl step (r, g, b) l = (r', g', b') /\
      r' == r + F64.ofZ (Z.of_nat (length l)) * c /\
      g' == g + F64.ofZ (Z.of_nat (length l)) * c /\
      b' == b + F64.ofZ (Z.of_nat (length l)) * c.
Proof.
  intros Hstep. induction l as [|p l IH]; intros r g b.
  - exists r, g, b. split; [done|]. unfold F64.ofZ. simpl. repeat split; ring.
  - cbn [foldl]. rewrite Hstep.
    destruct (IH (r + c) (g + c) (b + c)) as (r' & g' & b' & E & Hr & Hg & Hb).
    exists r', g', b'. split; [done|].
    rewrite Hr, Hg, Hb, length_cons, Nat2Z.inj_succ. unfold F64.ofZ, Z.succ.
    rewrite !inject_Z_plus. repeat split; ring.
Qed.

(** Two nested loops visit the product of their ranges. *)
Lemma length_grid (ys xs : list Z) :
  length (grid ys xs) = (length ys * length xs)%nat.
Proof.
  unfold grid. induction ys as [|y ys IH]; [done|].
  rewrite bind_cons, length_app, IH.
  assert (E : length (xs ≫= fun x => [(x, y)]) = length xs).
  { clear. induction xs as [|x xs IHx]; [done|].
    rewrite bind_cons, length_app, IHx. done. }
  rewrite E. simpl. done.
Qed.

Lemma length_grid_range (a b c d : Z) :
  (a <= b)%Z -> (c <= d)%Z ->
  Z.of_nat (length (grid (range a b) (range c d))) = ((b - a) * (d - c))%Z.
Proof.
  intros H1 H2. unfold range.
  rewrite length_grid, Nat2Z.inj_mul, !length_seqZ, !Z2Nat.id by lia. done.
Qed.

(** *** A flat gray image, metric by metric *)

(** [float64(n)] is not zero for [n] not zero. *)
Lemma ofZ_nonzero (n : Z) : n <> 0%Z -> ~ F64.ofZ n == 0.
Proof. intros Hn H. apply Hn. unfold F64.ofZ, Qeq in H. simpl in H. lia. Qed.

(** On a flat image every round of each loop adds the same amount. *)
Lemma flat_sharpnessStep w h s n p :
  sharpnessStep (toGray (flat w h)) (s, n) p
  = (s + Qabs (4 * flatLevel - (flatLevel + flatLevel + flatLevel + flatLevel)), (n + 1)%Z).
Proof. by destruct p. Qed.

Lemma flat_noiseStep w h s n p :
  noiseStep (toGray (flat w h)) (s, n) p = (s + 0, (n + 1)%Z).
Proof. by destruct p. Qed.

Lemma flat_exposureStep w h s d b p :
  exposureStep (toGray (flat w h)) (s, d, b) p = (s + flatLevel / 255, d, b).
Proof. by destruct p. Qed.

Lemma flat_contrastStep w h s q p :
  contrastStep (toGray (flat w h)) (s, q) p
  = (s + flatLevel / 255, q + flatLevel / 255 * (flatLevel / 255)).
Proof. by destruct p. Qed.

Lemma flat_colorStep w h r g b p :
  colorStep (flat w h) (r, g, b) p
  = (r + F64.ofZ (128 * 257) / 65535, g + F64.ofZ (128 * 257) / 65535,
     b + F64.ofZ (128 * 257) / 65535).
Proof. by destruct p. Qed.

(** The number of positions the loops visit. *)
Lemma flat_interior w h :
  (3 <= w)%Z -> (3 <= h)%Z ->
  Z.of_nat (length (interior (toGray (flat w h)))) = ((h - 2) * (w - 2))%Z.
Proof.
  intros Hw Hh.
  change (interior (toGray (flat w h)))
    with (grid (range (0 + 1) (h - 1)) (range (0 + 1) (w - 1))).
  rewrite length_grid_range by lia. ring.
Qed.

Lemma flat_allPixels w h :
  (0 <= w)%Z -> (0 <= h)%Z ->
  Z.of_nat (length (allPixels (toGray (flat w h)))) = ((w - 0) * (h - 0))%Z.
Proof.
  intros Hw Hh.
  change (allPixels (toGray (flat w h))) with (grid (range 0 h) (range 0 w)).
  rewrite length_grid_range by lia. ring.
Qed.

(** A flat image of at least 3 x 3 pixels is not too small. *)
Lemma flat_small_false w h :
  (3 <= w)%Z -> (3 <= h)%Z ->
  (gDx (toGray (flat w h)) <? 3)%Z || (gDy (toGray (flat w h)) <? 3)%Z = false.
Proof.
  intros Hw Hh. change (gDx (toGray (flat w h))) with (w - 0)%Z.
  change (gDy (toGray (flat w h))) with (h - 0)%Z.
  rewrite !(proj2 (Z.ltb_ge _ _)) by lia. done.
Qed.

(** The Laplacian of a flat image vanishes. *)
Lemma flat_sharpness w h :
  (3 <= w)%Z -> (3 <= h)%Z -> (analyzeSharpness (toGray (flat w h))).1 == 0.
Proof.
  intros Hw Hh. unfold analyzeSharpness. rewrite flat_small_false by done.
  destruct (foldl_sum_count _ _ (flat_sharpnessStep w h) (interior (toGray (flat w h))) 0 0%Z)
    as [H2 H1].
  destruct (foldl _ _ (interior _)) as [sum count]. cbn [fst snd] in H1, H2.
  destruct (Z.eqb_spec count 0); [reflexivity|]. cbn [fst].
  assert (Ha : Qabs (4 * flatLevel - (flatLevel + flatLevel + flatLevel + flatLevel)) == 0)
    by reflexivity.
  assert (Hs : sum == 0) by (rewrite H1, Ha; ring).
  rewrite (Min_compat _ 0 1 1); [reflexivity| |reflexivity].
  rewrite Hs. unfold Qdiv. ring.
Qed.

(** The neighbours of every pixel of a flat image have variance 0. *)
Lemma flat_noise w h :
  (3 <= w)%Z -> (3 <= h)%Z -> (analyzeNoise (toGray (flat w h))).1 == 0.
Proof.
  intros Hw Hh. unfold analyzeNoise. rewrite flat_small_false by done.
  destruct (foldl_sum_count _ _ (flat_noiseStep w h) (interior (toGray (flat w h))) 0 0%Z)
    as [H2 H1].
  destruct (foldl _ _ (interior _)) as [noiseSum count]. cbn [fst snd] in H1, H2.
  rewrite flat_interior in H2 by done.
  destruct (Z.eqb_spec count 0) as [E|E]; [nia|]. cbn [fst].
  assert (Hs : noiseSum == 0) by (rewrite H1; ring).
  rewrite (Min_compat _ 0 1 1); [reflexivity| |reflexivity].
  rewrite Hs. unfold Qdiv. ring.
Qed.

(** The exposure of a flat image of level 128 is 128/255. *)
Lemma flat_exposure w h :
  (0 < w)%Z -> (0 < h)%Z -> (analyzeExposure (toGray (flat w h))).1 == 128 # 255.
Proof.
  intros Hw Hh. unfold analyzeExposure.
  change (gDx (toGray (flat w h))) with (w - 0)%Z.
  change (gDy (toGray (flat w h))) with (h - 0)%Z.
  assert (Ht : ((w - 0) * (h - 0))%Z <> 0%Z) by nia.
  destruct (Z.eqb_spec ((w - 0) * (h - 0)) 0); [done|].
  destruct (foldl_sum_only _ _ (flat_exposureStep w h) (allPixels (toGray (flat w h)))
              0 0%Z 0%Z) as (sum & -> & Hs).
  rewrite flat_allPixels in Hs by lia.
  pose proof (ofZ_nonzero _ Ht) as Hq.
  assert (E0 : F64.ofZ 0 / F64.ofZ ((w - 0) * (h - 0)) == 0)
    by (change (F64.ofZ 0) with (0 : Q); unfold Qdiv; ring).
  assert (Hg : F64.gtb (F64.ofZ 0 / F64.ofZ ((w - 0) * (h - 0))) (3 # 10) = false).
  { apply gtb_le. rewrite E0. done. }
  rewrite Hg. cbn [fst].
  assert (E : sum / F64.ofZ ((w - 0) * (h - 0)) == 128 # 255).
  { rewrite Hs. transitivity (flatLevel / 255); [field; done|reflexivity]. }
  rewrite (Max_compat 0 0 _ (F64.Min 1 (128 # 255))); [reflexivity|reflexivity|].
  apply Min_compat; [reflexivity|exact E].
Qed.

(** [math.Sqrt(0)] is 0. *)
Lemma Sqrt_nonpositive x : x <= 0 -> Sqrt x = 0.
Proof. intros H. unfold Sqrt. apply Qle_bool_iff in H. by rewrite H. Qed.

(** The luminance of a flat image has variance 0. *)
Lemma flat_contrast w h :
  (0 < w)%Z -> (0 < h)%Z -> (analyzeContrast (toGray (flat w h))).1 == 0.
Proof.
  intros Hw Hh. unfold analyzeContrast.
  change (gDx (toGray (flat w h))) with (w - 0)%Z.
  change (gDy (toGray (flat w h))) with (h - 0)%Z.
  assert (Ht : ((w - 0) * (h - 0))%Z <> 0%Z) by nia.
  destruct (Z.eqb_spec ((w - 0) * (h - 0)) 0); [done|].
  destruct (foldl_sum_pair _ _ _ (flat_contrastStep w h) (allPixels (toGray (flat w h))) 0 0)
    as [H1 H2].
  destruct (foldl _ _ (allPixels _)) as [sum sumSquares]. cbn [fst snd] in H1, H2.
  rewrite flat_allPixels in H1, H2 by lia. cbn [fst].
  pose proof (ofZ_nonzero _ Ht) as Hq.
  set (T := F64.ofZ ((w - 0) * (h - 0))) in *.
  set (variance := sumSquares / T - sum / T * (sum / T)).
  assert (Hv : variance == 0).
  { unfold variance. rewrite H1, H2. field. done. }
  assert (Hm : F64.Max 0 variance <= 0).
  { destruct (Max_spec 0 variance) as [[? ->]|[? ->]]; lra. }
  rewrite (Sqrt_nonpositive _ Hm). reflexivity.
Qed.

(** The three channel means of a gray image agree. *)
Lemma flat_colorCast w h : (analyzeColorCast (flat w h)).1 == 0.
Proof.
  unfold analyzeColorCast.
  destruct (Dx (flat w h) * Dy (flat w h) =? 0)%Z; [reflexivity|].
  destruct (foldl_sum_triple _ _ (flat_colorStep w h) (sampled (flat w h)) 0 0 0)
    as (rSum & gSum & bSum & -> & Hr & Hg & Hb).
  set (S := F64.ofZ ((Dx (flat w h) / 4 + 1) * (Dy (flat w h) / 4 + 1))).
  set (avg := (0 + F64.ofZ (Z.of_nat (length (sampled (flat w h))))
                   * (F64.ofZ (128 * 257) / 65535)) / S).
  assert (Er : rSum / S == avg) by (unfold avg; by rewrite Hr).
  assert (Eg : gSum / S == avg) by (unfold avg; by rewrite Hg).
  assert (Eb : bSum / S == avg) by (unfold avg; by rewrite Hb).
  set (rAvg := rSum / S) in *. set (gAvg := gSum / S) in *. set (bAvg := bSum / S) in *.
  assert (Em : F64.Max (F64.Max rAvg gAvg) bAvg == avg).
  { destruct (Max_spec rAvg gAvg) as [[? ->]|[? ->]];
      [destruct (Max_spec gAvg bAvg) as [[? ->]|[? ->]]
      |destruct (Max_spec rAvg bAvg) as [[? ->]|[? ->]]]; lra. }
  set (maxChannel := F64.Max (F64.Max rAvg gAvg) bAvg) in *.
  destruct (F64.eqb maxChannel 0) eqn:E0; [reflexivity|]. cbn [fst].
  apply eqb_neq in E0.
  assert (Hn : forall a, a == avg -> 1 - a / maxChannel == 0).
  { intros a Ha. rewrite Ha, <- Em. field. done. }
  set (dev := (1 - rAvg / maxChannel) * (1 - rAvg / maxChannel)
              + (1 - gAvg / maxChannel) * (1 - gAvg / maxChannel)
              + (1 - bAvg / maxChannel) * (1 - bAvg / maxChannel)).
  assert (Hd : dev <= 0).
  { unfold dev. rewrite (Hn rAvg Er), (Hn gAvg Eg), (Hn bAvg Eb). lra. }
  rewrite (Sqrt_nonpositive _ Hd). reflexivity.
Qed.

(** On a flat gray image of at least 100 x 100 pixels the analyzer finds
    no sharpness, noise, contrast or color cast, the exposure of level
    128, and the fixed compression 0.3. *)
Lemma Analyze_flat w h :
  (100 <= w)%Z -> (100 <= h)%Z ->
  let q := Analyze (flat w h) in
  Sharpness q == 0 /\ Contrast q == 0 /\ Exposure q == 128 # 255 /\ Noise q == 0 /\
  ColorCast q == 0 /\ Compression q = 3 # 10 /\ FinalScore q == 5449 # 102.
Proof.
  intros Hw Hh. cbv zeta. unfold Analyze, withFinalScore.
  cbn [Sharpness Noise Exposure Contrast Compression ColorCast FinalScore].
  pose proof (flat_sharpness w h ltac:(lia) ltac:(lia)) as H1.
  pose proof (flat_noise w h ltac:(lia) ltac:(lia)) as H2.
  pose proof (flat_exposure w h ltac:(lia) ltac:(lia)) as H3.
  pose proof (flat_contrast w h ltac:(lia) ltac:(lia)) as H4.
  pose proof (flat_colorCast w h) as H5.
  assert (H6 : analyzeCompression (flat w h) = 3 # 10).
  { apply analyzeCompression_large; unfold Dx, Dy; simpl; lia. }
  repeat (split; [done|]).
  unfold calculateFinalScore.
  rewrite (weightedScore_compat _ _ (flatGrayMetrics (128 # 255) (3 # 10)));
    [reflexivity|done|done|done|done| |done].
  cbn [Compression]. by rewrite H6.
Qed.

(** C6.  On the 800 x 600 flat gray image the analyzer returns sharpness,
    contrast, noise and color cast 0 and the exposure 128/255 of gray level
    128, but compression 0.3 and not 0, and the composite 5449/102 (about
    53.42) and not 55.  With compression 0.3 the composite is at most 53.5
    at any exposure; 55 is what the composite would be at exposure 0.5 for
    a compression of 0. *)
Theorem C6_flat_gray_compression_and_score :
  let q := Analyze flatGray in
  Sharpness q == 0 /\ Contrast q == 0 /\ Exposure q == 128 # 255 /\ Noise q == 0 /\
  ColorCast q == 0 /\ Compression q = 3 # 10 /\ FinalScore q == 5449 # 102 /\
  ~ FinalScore q == 55 /\
  (forall exposure,
     calculateFinalScore (flatGrayMetrics exposure (Compression q)) <= 535 # 10) /\
  calculateFinalScore (flatGrayMetrics (5 # 10) 0) == 55.
Proof.
  unfold flatGray. cbv zeta.
  destruct (Analyze_flat 800 600 ltac:(lia) ltac:(lia)) as (H1 & H2 & H3 & H4 & H5 & H6 & H7).
  split; [exact H1|]. split; [exact H2|]. split; [exact H3|]. split; [exact H4|].
  split; [exact H5|]. split; [exact H6|]. split; [exact H7|].
  split; [intros E; rewrite H7 in E; discriminate E|].
  split; [|exact calculateFinalScore_flat_uncompressed].
  intros exposure. rewrite H6. apply calculateFinalScore_flat_bound.
Qed.

End FlatGray.

(** ** The perceptual hashes: what the engine computes and what the
    stand-alone calculators pack *)

Section HashFacts.

Import EngineHash Perceptual.

(** Setting bit [b] is an or with [2^b]. *)
Lemma setBit_pow2 (h b : Z) : 0 <= b < 64 -> setBit h b = Z.lor h (2 ^ b).
Proof.
  intros Hb. unfold setBit. rewrite Z.shiftl_1_l, Z.mod_small; [done|].
  split; [apply Z.pow_nonneg; lia|apply Z.pow_lt_mono_r; lia].
Qed.

Lemma setBit_testbit (h b k : Z) :
  0 <= b < 64 -> Z.testbit (setBit h b) k = Z.testbit h k || (b =? k).
Proof.
  intros Hb. rewrite setBit_pow2 by done.
  rewrite Z.lor_spec, Z.pow2_bits_eqb by lia. done.
Qed.

Ltac ztests :=
  repeat match goal with
         | |- context [(?a <? ?b)%Z] => destruct (Z.ltb_spec a b)
         | |- context [(?a =? ?b)%Z] => destruct (Z.eqb_spec a b)
         | |- context [(?a <=? ?b)%Z] => destruct (Z.leb_spec a b)
         end.

(** The packing loop writes the [i]-th coefficient to bit [b + i] and keeps
    the bits below [b]. *)
Lemma packLoop_bits (mean : Q) (coeffs : list Q) : forall (h b : Z),
  0 <= b -> b + Z.of_nat (length coeffs) <= 64 ->
  (forall k, b <= k -> Z.testbit h k = false) ->
  forall k, 0 <= k ->
  Z.testbit (foldl (packStep mean) (h, b) coeffs).1 k =
  if k <? b then Z.testbit h k
  else if k <? b + Z.of_nat (length coeffs)
       then F64.gtb (nth (Z.to_nat (k - b)) coeffs 0%Q) mean
       else false.
Proof.
  induction coeffs as [|c cs IH]; intros h b Hb Hlen Hclear k Hk.
  - cbn [foldl length fst]. ztests; try lia; [done|]. apply Hclear. lia.
  - rewrite length_cons in Hlen. cbn [foldl]. unfold packStep at 2.
    destruct (Z.leb_spec 64 b); [lia|].
    set (h1 := if F64.gtb c mean then setBit h b else h).
    assert (Hh1 : forall j, Z.testbit h1 j = Z.testbit h j || ((b =? j) && F64.gtb c mean)).
    { intros j. unfold h1. destruct (F64.gtb c mean).
      - rewrite setBit_testbit by lia. by rewrite andb_true_r.
      - by rewrite andb_false_r, orb_false_r. }
    rewrite IH; [| lia | lia | | done].
    2:{ intros j Hj. rewrite Hh1, Hclear by lia. ztests; [lia|done]. }
    rewrite length_cons, Hh1.
    destruct (Z.ltb_spec k (b + 1)), (Z.ltb_spec k b),
             (Z.ltb_spec k (b + Z.of_nat (S (length cs)))); try lia.
    + ztests; [lia|]. by rewrite orb_false_r.
    + assert (k = b) as -> by lia.
      rewrite Hclear, Z.eqb_refl, Z.sub_diag by lia. done.
    + destruct (Z.ltb_spec k (b + 1 + Z.of_nat (length cs))); [|lia].
      replace (Z.to_nat (k - b)) with (S (Z.to_nat (k - (b + 1)))) by lia. done.
    + destruct (Z.ltb_spec k (b + 1 + Z.of_nat (length cs))); [lia|]. done.
Qed.

(** Bit [k] of a packed hash tells whether the [k]-th coefficient exceeds
    the mean. *)
Lemma packBits_bits (mean : Q) (coeffs : list Q) (k : Z) :
  Z.of_nat (length coeffs) <= 64 -> 0 <= k ->
  Z.testbit (packBits coeffs mean) k =
  if k <? Z.of_nat (length coeffs)
  then F64.gtb (nth (Z.to_nat k) coeffs 0%Q) mean
  else false.
Proof.
  intros Hlen Hk. unfold packBits.
  rewrite (packLoop_bits mean coeffs 0 0); [| lia | lia | | lia].
  2:{ intros j _. apply Z.bits_0. }
  destruct (Z.ltb_spec k 0); [lia|]. by rewrite Z.sub_0_r.
Qed.

(** The [i]-th coordinate of the row-major scan without (0,0). *)
Lemma blockCoords_8_nth (k : Z) :
  0 <= k < 63 -> nth (Z.to_nat k) (blockCoords 8) (0, 0) = ((k + 1) / 8, (k + 1) mod 8).
Proof.
  intros Hk.
  assert (H : Forall (fun k => nth (Z.to_nat k) (blockCoords 8) (0, 0)
                               = ((k + 1) / 8, (k + 1) mod 8)) (seqZ 0 63)).
  { apply (bool_decide_unpack _). by vm_compute. }
  rewrite Forall_forall in H. apply H. apply elem_of_seqZ. lia.
Qed.

(** The stand-alone p-hash stores coefficient [(y, x)] at bit [8 y + x - 1]
    and never sets bit 63. *)
Lemma phashOfDCT_bits (dctMatrix : list (list Q)) :
  (forall y x, 0 <= y < 8 -> 0 <= x < 8 -> (y, x) <> (0, 0) ->
     Z.testbit (phashOfDCT 8 dctMatrix) (8 * y + x - 1)
     = F64.gtb (at2 dctMatrix y x) (blockMean dctMatrix)) /\
  Z.testbit (phashOfDCT 8 dctMatrix) 63 = false.
Proof.
  unfold phashOfDCT.
  set (coeffs := (fun p => at2 dctMatrix p.1 p.2) <$> blockCoords 8).
  assert (Hlen : length coeffs = 63%nat).
  { unfold coeffs. rewrite length_fmap. by vm_compute. }
  rewrite Hlen. change (Z.of_nat 63 =? 0) with false. cbv iota.
  change (F64.ofZ (Z.of_nat 63)) with (63 : Q).
  fold coeffs. 
  change (foldl Qplus 0%Q coeffs / 63)%Q with (blockMean dctMatrix).
  split.
  - intros y x Hy Hx Hne.
    assert (Hk : 0 <= 8 * y + x - 1 < 63).
    { assert (y <> 0 \/ x <> 0) as [|].
      { destruct (decide (y = 0)) as [->|]; [right; intros ->; by apply Hne|by left]. }
      all: lia. }
    rewrite packBits_bits by (rewrite ?Hlen; lia). rewrite Hlen.
    destruct (Z.ltb_spec (8 * y + x - 1) (Z.of_nat 63)); [|lia].
    unfold coeffs. set (f := fun p : Z * Z => at2 dctMatrix p.1 p.2).
    rewrite (nth_indep _ _ (f (0, 0)))
      by (rewrite length_fmap; change (length (blockCoords 8)) with 63%nat; lia).
    transitivity (F64.gtb (f (nth (Z.to_nat (8 * y + x - 1)) (blockCoords 8) (0, 0)))
                          (blockMean dctMatrix)).
    { f_equal. exact (map_nth f (blockCoords 8) (0, 0) (Z.to_nat (8 * y + x - 1))). }
    rewrite blockCoords_8_nth by lia. unfold f. cbn [fst snd].
    replace ((8 * y + x - 1 + 1) / 8) with y by (apply Z.div_unique with x; lia).
    replace ((8 * y + x - 1 + 1) mod 8) with x by (apply Z.mod_unique with y; lia).
    done.
  - rewrite packBits_bits by (rewrite ?Hlen; lia). by rewrite Hlen.
Qed.

(** [WHash.Compute] packs in the same way, over the absolute values of the
    top-left 8 x 8 entries of the transformed matrix. *)
Lemma WHashCompute_bit_63 (resized : Image) :
  Z.testbit (WHashCompute resized) 63 = false.
Proof.
  unfold WHashCompute.
  set (coeffs := (fun p => Qabs (at2 (haarWavelet resized) p.1 p.2)) <$> blockCoords 8).
  assert (Hlen : length coeffs = 63%nat).
  { unfold coeffs. rewrite length_fmap. by vm_compute. }
  rewrite Hlen. change (Z.of_nat 63 =? 0) with false. cbv iota.
  rewrite packBits_bits by (rewrite ?Hlen; lia). by rewrite Hlen.
Qed.

(** The transform of [WHash.Compute] on a 64 x 64 image runs through all
    six levels, down to a single approximation coefficient. *)
Lemma haarLevels_64 : haarLevels 64 64 = [64; 32; 16; 8; 4; 2].
Proof. by vm_compute. Qed.

(** C1.  On a 32 x 32 image that is black except for one white pixel in
    row 1, column 31, the engine's [computePHash] returns 2^63: the hash is
    the comparison of each of the 1024 pixels with the pixel mean, folded
    into 64 bits by [i mod 64]; no DCT is taken, the DC position is not
    skipped, and bit 63 is set. *)
Theorem C1_engine_phash_sets_bit_63 :
  computePHash (spotImage 32 32 31 1) = Some (2 ^ 63) /\
  Z.testbit (2 ^ 63) 63 = true.
Proof. split; by vm_compute. Qed.

(** C2.  The engine's [computeWHash] is [computeAHash] on every image; on
    an 8 x 8 image that is black except for its last pixel it returns 2^63,
    the comparison of the 64 pixels with their integer mean, with bit 63
    set and no wavelet transform involved. *)
Theorem C2_engine_whash_is_average_hash :
  (forall gray, computeWHash gray = computeAHash gray) /\
  computeWHash (spotImage 8 8 7 7) = Some (2 ^ 63) /\
  Z.testbit (2 ^ 63) 63 = true.
Proof. split; [done|]. split; by vm_compute. Qed.

End HashFacts.

(** ** Duplicate groups: disjointness and confidence *)

Section GroupingFacts.

Import Similarity Engine.



(** [selectBestImage] returns one of the candidates. *)
Lemma selectBestImage_elem images fingerprints policy :
  images <> [] -> selectBestImage images fingerprints policy ∈ images.
Proof.
  destruct images as [|first others]; [done|]. intros _. unfold selectBestImage.
  set (fpMap := buildFpMap fingerprints).
  assert (H : forall l st, st.1 ∈ first :: others -> (forall x, x ∈ l -> x ∈ first :: others) ->
                          (foldl (selectStep fpMap policy) st l).1 ∈ first :: others).
  { induction l as [|x l IH]; intros [b s] Hb Hl; [done|]. simpl. apply IH.
    - destruct (fpMap !! x); [|done].
      destruct (F64.gtb _ s); [|done]. simpl. apply Hl. left.
    - intros y Hy. apply Hl. by right. }
  apply H; [left|]. intros x Hx. by right.
Qed.



(** *** Near duplicates *)

(** The inner loop only adds ids that were not yet processed, and marks
    every id it adds. *)
Lemma nearStep_fold e threshold fp1 later : forall similarImages processed,
  processed ⊆ (foldl (nearStep e threshold fp1) (similarImages, processed) later).2 /\
  exists added,
    (foldl (nearStep e threshold fp1) (similarImages, processed) later).1
      = similarImages ++ added /\
    NoDup added /\
    (forall id, id ∈ added ->
       (id ∉ processed) /\
       id ∈ (foldl (nearStep e threshold fp1) (similarImages, processed) later).2 /\
       id ∈ (ID <$> later)).
Proof.
  induction later as [|fp2 later IH]; intros si pr.
  - simpl. split; [done|]. exists []. rewrite app_nil_r. split; [done|].
    split; [constructor|]. intros id Hid. by apply elem_of_nil in Hid.
  - assert (Hskip :
      pr ⊆ (foldl (nearStep e threshold fp1) (si, pr) later).2 /\
      exists added,
        (foldl (nearStep e threshold fp1) (si, pr) later).1 = si ++ added /\
        NoDup added /\
        (forall id, id ∈ added ->
           (id ∉ pr) /\
           id ∈ (foldl (nearStep e threshold fp1) (si, pr) later).2 /\
           id ∈ (ID <$> fp2 :: later))).
    { destruct (IH si pr) as (Hsub & added & E & Hnd & Hadd). split; [done|].
      exists added. split; [done|]. split; [done|]. intros id Hid.
      destruct (Hadd id Hid) as (? & ? & ?). repeat split; try done.
      rewrite fmap_cons. by right. }
    cbn [foldl]. unfold nearStep at 2 4 6.
    destruct (bool_decide (ID fp2 ∈ pr)) eqn:Hp; [exact Hskip|].
    apply bool_decide_eq_false in Hp.
    destruct (CompareFingerprints (similarity e) fp1 fp2) as [s err].
    destruct err; [exact Hskip|].
    destruct (F64.geb s threshold); [|exact Hskip].
    destruct (IH (si ++ [ID fp2]) (pr ∪ {[ID fp2]})) as (Hsub & added & E & Hnd & Hadd).
    assert (Hfp2 : ID fp2 ∈ pr ∪ {[ID fp2]}) by apply elem_of_union_r, elem_of_singleton, eq_refl.
    split; [intros x Hx; apply Hsub, elem_of_union_l, Hx|].
    exists (ID fp2 :: added). split; [by rewrite E, <- app_assoc|].
    split.
    + constructor; [|done]. intros Hin. by destruct (Hadd _ Hin) as (Hn & _).
    + intros id Hid. apply elem_of_cons in Hid as [->|Hid].
      * repeat split; [done|by apply Hsub|rewrite fmap_cons; left].
      * destruct (Hadd id Hid) as (Hn & ? & ?).
        repeat split; [|done|rewrite fmap_cons; by right].
        intros Hin. apply Hn, elem_of_union_l, Hin.
Qed.



(** *** Exact duplicates *)

(** Appending a record extends the list of its own digest only. *)
Lemma idsWithDigest_snoc fps fp k :
  idsWithDigest (fps ++ [fp]) k =
  if decide (SHA256 (Metadata fp) = k) then idsWithDigest fps k ++ [ID fp]
  else idsWithDigest fps k.
Proof.
  unfold idsWithDigest. rewrite filter_app, fmap_app.
  rewrite filter_cons, filter_nil. case_decide; [done|]. by rewrite app_nil_r.
Qed.

(** [hashGroups] binds every digest that occurs to the ids carrying it. *)
Lemma buildHashGroups_lookup fps k :
  buildHashGroups fps !! k =
  match idsWithDigest fps k with
  | [] => None
  | ids => Some ids
  end.
Proof.
  induction fps as [|fp fps IH] using rev_ind; [done|].
  unfold buildHashGroups in *. rewrite foldl_app. cbn [foldl].
  rewrite idsWithDigest_snoc, lookup_insert. case_decide as Hk.
  - subst k. rewrite IH.
    destruct (idsWithDigest fps (SHA256 (Metadata fp))); done.
  - exact IH.
Qed.





(** *** The confidence of a near-duplicate group *)

Local Open Scope Q_scope.

(** Sums over appended and over permuted lists. *)
Lemma Qsum_app l1 l2 : Qsum (l1 ++ l2) == Qsum l1 + Qsum l2.
Proof.
  induction l1 as [|x l1 IH]; [unfold Qsum; simpl; ring|].
  change (x + Qsum (l1 ++ l2) == x + Qsum l1 + Qsum l2). rewrite IH. ring.
Qed.


(** The number of unordered pairs depends on the length only. *)
Lemma unorderedPairs_length {A B} (l : list A) (l' : list B) :
  length l = length l' -> length (unorderedPairs l) = length (unorderedPairs l').
Proof.
  revert l'. induction l as [|x l IH]; intros [|y l'] Hlen; try done.
  simpl in *. rewrite !length_app, !length_fmap. injection Hlen as Hlen.
  by rewrite (IH l' Hlen), Hlen.
Qed.

(** Pairs of a mapped list. *)
Lemma unorderedPairs_fmap {A B} (f : A -> B) (l : list A) :
  unorderedPairs (f <$> l) = prod_map f f <$> unorderedPairs l.
Proof.
  induction l as [|x l IH]; [done|]. rewrite fmap_cons. cbn [unorderedPairs].
  rewrite fmap_app, IH, <- !list_fmap_compose. done.
Qed.


(** The lookup table holds, for each id of the index, its record. *)
Lemma buildFpMap_snoc fps fp :
  buildFpMap (fps ++ [fp]) = <[ID fp := fp]> (buildFpMap fps).
Proof. unfold buildFpMap. by rewrite foldl_app. Qed.

(** What the lookup table holds for an id of the list. *)
Lemma buildFpMap_lookup fps fp :
  NoDup (ID <$> fps) -> fp ∈ fps -> buildFpMap fps !! ID fp = Some fp.
Proof.
  induction fps as [|x fps IH] using rev_ind; intros Hnd Hin; [by apply elem_of_nil in Hin|].
  rewrite buildFpMap_snoc. rewrite fmap_app in Hnd. apply NoDup_app in Hnd as (Hnd & Hx & _).
  apply elem_of_app in Hin as [Hin|Hin].
  - rewrite lookup_insert_ne; [by apply IH|]. intros E.
    apply (Hx (ID fp)); [by apply list_elem_of_fmap_2|]. rewrite <- E. simpl. left.
  - apply list_elem_of_singleton in Hin as ->. apply lookup_insert_eq.
Qed.

Lemma buildFpMap_elem fps id fp :
  buildFpMap fps !! id = Some fp -> ID fp = id /\ fp ∈ fps.
Proof.
  induction fps as [|x fps IH] using rev_ind; [done|].
  rewrite buildFpMap_snoc, lookup_insert. case_decide as E.
  - intros [= <-]. split; [done|]. apply elem_of_app. right. left.
  - intros H. destruct (IH H) as [? ?]. split; [done|]. apply elem_of_app. by left.
Qed.

(** One inner round of [calculateGroupConfidence] on present ids. *)
Lemma confidenceStep_present c fps a b t n :
  is_Some (buildFpMap fps !! a) -> is_Some (buildFpMap fps !! b) ->
  confidenceStep c (buildFpMap fps) a (t, n) b
  = (t + simOf c (fpOf fps a, fpOf fps b), (n + 1)%Z).
Proof.
  intros [fa Ha] [fb Hb]. unfold confidenceStep, simOf, fpOf. rewrite Ha, Hb. simpl.
  pose proof (CompareFingerprints_nil_error c fa fb) as Herr.
  destruct (CompareFingerprints c fa fb) as [sim err]. simpl in *. by subst err.
Qed.

(** The inner loop adds the similarity of [a] with every later id. *)
Lemma confidenceStep_fold c fps a later : forall t n,
  is_Some (buildFpMap fps !! a) ->
  (forall b, b ∈ later -> is_Some (buildFpMap fps !! b)) ->
  (foldl (confidenceStep c (buildFpMap fps) a) (t, n) later).2
    = (n + Z.of_nat (length later))%Z /\
  (foldl (confidenceStep c (buildFpMap fps) a) (t, n) later).1
    == t + Qsum (simOf c <$> (pair (fpOf fps a) <$> (fpOf fps <$> later))).
Proof.
  intros t n Ha. revert t n.
  induction later as [|b later IH]; intros t n Hl.
  - simpl. split; [lia|unfold Qsum; simpl; ring].
  - cbn [foldl]. rewrite confidenceStep_present; [|done|apply Hl; left].
    destruct (IH (t + simOf c (fpOf fps a, fpOf fps b)) (n + 1)%Z) as [IH2 IH1];
      [intros b' Hb'; apply Hl; by right|].
    split; [rewrite IH2, length_cons; lia|].
    rewrite IH1, !fmap_cons.
    change (Qsum (?x :: ?l)) with (x + Qsum l). ring.
Qed.

(** The nested loops sum the similarity over the unordered pairs. *)
Lemma confidenceLoop_spec c fps images : forall t n,
  (forall a, a ∈ images -> is_Some (buildFpMap fps !! a)) ->
  (confidenceLoop c (buildFpMap fps) images (t, n)).2
    = (n + Z.of_nat (length (unorderedPairs images)))%Z /\
  (confidenceLoop c (buildFpMap fps) images (t, n)).1
    == t + Qsum (simOf c <$> unorderedPairs (fpOf fps <$> images)).
Proof.
  induction images as [|a later IH]; intros t n Hl.
  - simpl. split; [lia|unfold Qsum; simpl; ring].
  - cbn [confidenceLoop].
    destruct (confidenceStep_fold c fps a later t n) as [H2 H1];
      [apply Hl; left|intros b Hb; apply Hl; by right|].
    destruct (foldl _ _ later) as [t' n']. simpl in H1, H2. subst n'.
    destruct (IH t' (n + Z.of_nat (length later))%Z) as [IH2 IH1];
      [intros b Hb; apply Hl; by right|].
    split.
    + rewrite IH2. cbn [unorderedPairs]. rewrite length_app, length_fmap. lia.
    + rewrite IH1, H1, fmap_cons. cbn [unorderedPairs]. rewrite fmap_app, Qsum_app. ring.
Qed.

(** Two members make at least one pair. *)
Lemma unorderedPairs_nonempty {A} (l : list A) :
  (1 < length l)%nat -> (0 < length (unorderedPairs l))%nat.
Proof.
  destruct l as [|x [|y l]]; simpl; try lia.
Qed.

(** For candidates that all have a record, [calculateGroupConfidence] is
    the mean of the pairwise similarities of their records. *)
Lemma calculateGroupConfidence_mean e images fps :
  (1 < length images)%nat ->
  (forall a, a ∈ images -> is_Some (buildFpMap fps !! a)) ->
  calculateGroupConfidence e images fps
  == meanPairwiseSimilarity (similarity e) (fpOf fps <$> images).
Proof.
  intros Hlen Hl. unfold calculateGroupConfidence.
  destruct (Z.ltb_spec (Z.of_nat (length images)) 2); [lia|].
  destruct (confidenceLoop_spec (similarity e) fps images 0 0%Z Hl) as [H2 H1].
  destruct (confidenceLoop _ _ images _) as [total comparisons]. simpl in H1, H2.
  pose proof (unorderedPairs_nonempty images Hlen) as Hpos.
  destruct (Z.eqb_spec comparisons 0); [lia|].
  unfold meanPairwiseSimilarity. subst comparisons.
  rewrite (unorderedPairs_length (fpOf fps <$> images) images) by apply length_fmap.
  rewrite H1. unfold simOf. rewrite Z.add_0_l, Qplus_0_l. reflexivity.
Qed.

(** Removing an id that does not occur changes nothing. *)
Lemma removeElement_absent (l : list ImageID) (x : ImageID) :
  x ∉ l -> removeElement l x = l.
Proof.
  unfold removeElement. induction l as [|a l IH]; intros Hx; [done|].
  rewrite filter_cons. case_decide as E.
  - f_equal. apply IH. intros Hin. apply Hx. by right.
  - exfalso. apply Hx. destruct (decide (a = x)) as [->|]; [left|done].
Qed.

(** A list without repetition is, up to order, its chosen element followed
    by the others. *)
Lemma removeElement_perm (l : list ImageID) (x : ImageID) :
  NoDup l -> x ∈ l -> x :: removeElement l x ≡ₚ l.
Proof.
  induction l as [|a l IH]; intros Hnd Hx; [by apply elem_of_nil in Hx|].
  apply NoDup_cons in Hnd as [Ha Hnd].
  apply elem_of_cons in Hx as [->|Hx].
  - unfold removeElement. rewrite filter_cons. case_decide; [done|].
    fold (removeElement l a). by rewrite removeElement_absent.
  - unfold removeElement. rewrite filter_cons. case_decide as E; [|by subst a].
    fold (removeElement l x). rewrite Permutation_swap. constructor. by apply IH.
Qed.


(** Every group of the outer loop is a [nearGroup] of at least two
    candidates taken from the index. *)
Lemma nearLoop_groups e threshold fingerprints rest :
  forall groups processed groupCounter g,
  g ∈ nearLoop e threshold fingerprints rest groups processed groupCounter ->
  g ∈ groups \/
  exists similarImages groupID,
    NoDup similarImages /\ (1 < length similarImages)%nat /\
    (forall id, id ∈ similarImages -> id ∈ (ID <$> rest)) /\
    g = nearGroup e fingerprints similarImages groupID.
Proof.
  induction rest as [|fp1 later IH]; intros groups processed groupCounter g; [by left|].
  assert (Hweaken : forall similarImages : list ImageID,
            (forall id, id ∈ similarImages -> id ∈ (ID <$> later)) ->
            forall id, id ∈ similarImages -> id ∈ (ID <$> fp1 :: later)).
  { intros si H id Hid. rewrite fmap_cons. right. by apply H. }
  assert (Hlater : forall groups' processed' groupCounter',
            g ∈ nearLoop e threshold fingerprints later groups' processed' groupCounter' ->
            g ∈ groups' \/
            exists similarImages groupID,
              NoDup similarImages /\ (1 < length similarImages)%nat /\
              (forall id, id ∈ similarImages -> id ∈ (ID <$> fp1 :: later)) /\
              g = nearGroup e fingerprints similarImages groupID).
  { intros groups' processed' groupCounter' Hg.
    destruct (IH _ _ _ _ Hg) as [?|(si & gid & ? & ? & ? & ?)]; [by left|].
    right. exists si, gid. eauto. }
  cbn [nearLoop]. destruct (bool_decide (ID fp1 ∈ processed)) eqn:Hfp1; [apply Hlater|].
  pose proof (nearStep_fold e threshold fp1 later [ID fp1] (processed ∪ {[ID fp1]})) as H.
  destruct (foldl _ _ later) as [similarImages processed'].
  cbn [fst snd] in H. destruct H as (Hsub & added & -> & Hnd & Hadd).
  destruct (Z.ltb_spec 1 (Z.of_nat (length ([ID fp1] ++ added)))) as [Hlen|Hlen];
    [|apply Hlater].
  intros Hg. apply Hlater in Hg as [Hg|Hg]; [|by right].
  apply elem_of_app in Hg as [Hg|Hg]; [by left|].
  apply list_elem_of_singleton in Hg as ->. right.
  exists ([ID fp1] ++ added), ("near_" +:+ pretty groupCounter).
  split; [|split; [lia|split; [|done]]].
  - apply NoDup_app. split; [apply NoDup_singleton|]. split; [|done].
    intros id Hid Hin. apply list_elem_of_singleton in Hid as ->.
    destruct (Hadd _ Hin) as (Hn & _). apply Hn, elem_of_union_r, elem_of_singleton. done.
  - intros id Hid. rewrite fmap_cons. apply elem_of_app in Hid as [Hid|Hid].
    + apply list_elem_of_singleton in Hid as ->. left.
    + right. by destruct (Hadd _ Hid) as (_ & _ & ?).
Qed.

(** Every id of the list has an entry in the lookup table. *)
Lemma buildFpMap_is_Some fps id :
  id ∈ (ID <$> fps) -> is_Some (buildFpMap fps !! id).
Proof.
  induction fps as [|x fps IH] using rev_ind; [intros H; by apply elem_of_nil in H|].
  rewrite buildFpMap_snoc, fmap_app, elem_of_app, lookup_insert. intros [H|H].
  - case_decide; [done|by apply IH].
  - apply list_elem_of_singleton in H as ->. by rewrite decide_True.
Qed.

(** The records read for a list of ids of the index carry those ids and
    are records of the index. *)
Lemma fmap_fpOf_ids fps (l : list ImageID) :
  (forall id, id ∈ l -> id ∈ (ID <$> fps)) ->
  ID <$> (fpOf fps <$> l) = l /\
  (forall m, m ∈ (fpOf fps <$> l) -> m ∈ fps) /\
  (forall id, id ∈ l -> is_Some (buildFpMap fps !! id)).
Proof.
  intros Hl.
  assert (H : forall id, id ∈ l ->
                exists fp, buildFpMap fps !! id = Some fp /\ ID fp = id /\ fp ∈ fps).
  { intros id Hid. destruct (buildFpMap_is_Some fps id (Hl id Hid)) as [fp E].
    exists fp. split; [done|]. by apply buildFpMap_elem. }
  split; [|split].
  - rewrite <- list_fmap_compose. rewrite <- (list_fmap_id l) at 2.
    apply Forall_fmap_ext, Forall_forall. intros id Hid.
    destruct (H id Hid) as (fp & E & <- & _). simpl. unfold fpOf. by rewrite E.
  - intros m Hm. apply list_elem_of_fmap in Hm as (id & -> & Hid).
    destruct (H id Hid) as (fp & E & _ & Hfp). unfold fpOf. by rewrite E.
  - intros id Hid. destruct (H id Hid) as (fp & E & _). by rewrite E.
Qed.



(** The sample index is reached by three saves. *)
Lemma sampleEngine_reachable : Index.reachable (index sampleEngine).
Proof. do 3 apply Index.reachable_save. apply Index.reachable_init. Qed.


(** The sample group is one of the groups reported. *)
Lemma sampleNearGroup_emitted : sampleNearGroup ∈ FindNearDuplicates sampleEngine (8 # 10).
Proof. vm_compute. left. Qed.


(** The grouper of grouping.go, which the engine does not call, keeps as
    confidence the similarity of the main image with the member accepted
    last; on the three sample records that is not the mean over the pairs. *)
Lemma GroupBySimilarity_keeps_last_similarity :
  exists g, sampleGrouped = [g] /\
    group_ids g = [ID fpA; ID fpB; ID fpC] /\
    Confidence g = (CompareFingerprints (similarity sampleEngine) fpA fpC).1 /\
    ~ Confidence g == meanPairwiseSimilarity (similarity sampleEngine) [fpA; fpB; fpC].
Proof.
  eexists. split; [by vm_compute|]. split; [by vm_compute|]. split; [by vm_compute|].
  intros H. apply Qeq_bool_iff in H. by vm_compute in H.
Qed.

End GroupingFacts.

(** * Further properties of the code

    What the functions around the ones above do: the rest of the comparator
    and of the grouper, the two stores, the selection of the main image,
    the hash kernels and the analyzer. *)

(** ** The comparator: range, symmetry and the distance of two hashes *)

Section ComparatorRange.

Import Similarity.

Local Open Scope Q_scope.

(** The similarity is a number between 0 and 1. *)
Lemma CompareFingerprints_range c fp1 fp2 :
  0 <= (CompareFingerprints c fp1 fp2).1 <= 1.
Proof.
  unfold CompareFingerprints.
  destruct (accumulate _ _ _ compareWHash _) as [totalSimilarity totalWeight].
  destruct (F64.eqb totalWeight 0); cbn [fst]; [lra|].
  set (x := totalSimilarity / totalWeight).
  destruct (Min_spec 1 x) as [[? ->]|[? ->]];
    [destruct (Max_spec 0 x) as [[? ->]|[? ->]]
    |destruct (Max_spec 0 1) as [[? ->]|[? ->]]]; lra.
Qed.

(** A kind of hash that one of the two fingerprints lacks takes no part. *)
Lemma accumulate_skip weight h1 h2 cmp acc :
  h1 = 0%Z \/ h2 = 0%Z -> accumulate weight h1 h2 cmp acc = acc.
Proof.
  intros H. unfold accumulate. destruct acc as [ts tw].
  destruct H as [-> | ->]; cbn [Z.eqb negb]; by rewrite ?andb_false_r.
Qed.

(** X1.  For every comparator and every two fingerprints the similarity lies
    between 0 and 1 and does not depend on the order of the two
    fingerprints; when for each of the four kinds of hash at least one of
    the two fingerprints has the hash 0, the similarity is 0 and no error is
    returned. *)
Theorem X1_similarity_range_symmetric (c : ComparatorConfig) (fp1 fp2 : ImageFingerprint) :
  0 <= (CompareFingerprints c fp1 fp2).1 <= 1 /\
  CompareFingerprints c fp1 fp2 = CompareFingerprints c fp2 fp1 /\
  ((AHash (PHashes fp1) = 0%Z \/ AHash (PHashes fp2) = 0%Z) ->
   (PHash (PHashes fp1) = 0%Z \/ PHash (PHashes fp2) = 0%Z) ->
   (DHash (PHashes fp1) = 0%Z \/ DHash (PHashes fp2) = 0%Z) ->
   (WHash (PHashes fp1) = 0%Z \/ WHash (PHashes fp2) = 0%Z) ->
   CompareFingerprints c fp1 fp2 = (0, None)).
Proof.
  split; [apply CompareFingerprints_range|]. split; [apply CompareFingerprints_sym|].
  intros Ha Hp Hd Hw. unfold CompareFingerprints.
  rewrite (accumulate_skip _ _ _ compareAHash _ Ha), (accumulate_skip _ _ _ comparePHash _ Hp),
    (accumulate_skip _ _ _ compareDHash _ Hd), (accumulate_skip _ _ _ compareWHash _ Hw).
  reflexivity.
Qed.

(** Only zero has no bit set. *)
Lemma popcount_zero (x : Z) : (0 <= x)%Z -> popcount x = 0%nat -> x = 0%Z.
Proof.
  intros Hx Hp. destruct x as [|p|p]; [done| |lia].
  pose proof (popcountPos_pos p). simpl in Hp. lia.
Qed.

Local Close Scope Q_scope.

(** The index package carries a copy of the loop. *)
Lemma index_hammingDistance (a b : Z) :
  Index.hammingDistance a b = hammingDistance a b.
Proof. unfold Index.hammingDistance, hammingDistance. reflexivity. Qed.

(** X2.  On two 64-bit words [hammingDistance] returns the number of bit
    positions in which they differ: a number between 0 and 64 that is 0
    exactly when the words are equal; the copy of the function in the index
    package returns the same. *)
Theorem X2_hamming_distance_counts_differing_bits (a b : Z) :
  0 <= a < 2 ^ 64 -> 0 <= b < 2 ^ 64 ->
  hammingDistance a b = Z.of_nat (popcount (Z.lxor a b)) /\
  0 <= hammingDistance a b <= 64 /\
  (hammingDistance a b = 0 <-> a = b) /\
  Index.hammingDistance a b = hammingDistance a b.
Proof.
  intros Ha Hb. destruct (hamming_loop_fuel a b 0 Ha Hb) as [Hd _].
  pose proof (lxor_uint64 a b Ha Hb) as Hx.
  assert (Hp : (popcount (Z.lxor a b) <= 64)%nat).
  { destruct (Z.lxor a b) as [|p|p]; [simpl; lia| |lia].
    apply popcountPos_bound. simpl. lia. }
  split; [exact Hd|]. split; [lia|]. split; [|apply index_hammingDistance].
  rewrite Hd. split.
  - intros H0. apply Z.lxor_eq. apply popcount_zero; lia.
  - intros ->. by rewrite Z.lxor_nilpotent.
Qed.

Lemma X2_hamming_distance_counts_differing_bits_witness :
  0 <= 5 < 2 ^ 64 /\ 0 <= 3 < 2 ^ 64 /\
  hammingDistance 5 3 = Z.of_nat (popcount (Z.lxor 5 3)) /\
  0 <= hammingDistance 5 3 <= 64 /\
  (hammingDistance 5 3 = 0 <-> 5 = 3) /\
  Index.hammingDistance 5 3 = hammingDistance 5 3.
Proof.
  split; [lia|]. split; [lia|].
  apply (X2_hamming_distance_counts_differing_bits 5 3); lia.
Defined.

End ComparatorRange.

(** ** Similar images and clusters *)

Section ClusterFacts.

Import Similarity Grouper.

Local Open Scope Q_scope.

(** X3.  [FindSimilarImages] keeps, in their order, the candidates with
    another id than the target whose similarity reaches the threshold. *)
Theorem X3_find_similar_images_is_filter c target candidates threshold :
  FindSimilarImages c target candidates threshold
  = filter (fun candidate =>
              ID candidate <> ID target /\
              F64.geb (CompareFingerprints c target candidate).1 threshold = true)
           candidates.
Proof.
  unfold FindSimilarImages.
  assert (H : forall acc,
    foldl (similarStep c target threshold) acc candidates
    = acc ++ filter (fun candidate =>
              ID candidate <> ID target /\
              F64.geb (CompareFingerprints c target candidate).1 threshold = true)
           candidates).
  { induction candidates as [|cand rest IH]; intros acc.
    - by rewrite app_nil_r.
    - cbn [foldl]. rewrite IH. unfold similarStep.
      pose proof (CompareFingerprints_nil_error c target cand) as Herr.
      rewrite filter_cons.
      destruct (CompareFingerprints c target cand) as [s err]. cbn [snd fst] in *.
      subst err.
      case_bool_decide as Hid.
      + rewrite decide_False by tauto. done.
      + destruct (F64.geb s threshold) eqn:Hle.
        * rewrite decide_True by done. by rewrite <- app_assoc.
        * rewrite decide_False; [done|]. intros [_ ?]. congruence. }
  apply (H []).
Qed.

(** What the inner loop does to the cluster and to the [assigned] map: it
    appends ids of later records that were not assigned yet, each once, and
    marks them; each of them belongs to a record that is similar enough to
    the seed. *)
Lemma clusterStep_fold c threshold fp1 later : forall cluster assigned,
  exists added,
    (foldl (clusterStep c threshold fp1) (cluster, assigned) later).1
      = {| ClusterID := ClusterID cluster; Name := Name cluster;
           Images := Images cluster ++ (ID <$> added); Centroid := Centroid cluster |} /\
    (foldl (clusterStep c threshold fp1) (cluster, assigned) later).2
      = assigned ∪ list_to_set (ID <$> added) /\
    NoDup (ID <$> added) /\
    (forall fp2, fp2 ∈ added ->
       (ID fp2 ∉ assigned) /\ fp2 ∈ later /\
       F64.geb (CompareFingerprints c fp1 fp2).1 threshold = true).
Proof.
  induction later as [|fp2 later IH]; intros cluster assigned.
  - exists []. cbn. rewrite app_nil_r, (right_id_L ∅ (∪)). destruct cluster.
    split; [done|]. split; [done|]. split; [apply NoDup_nil_2|].
    intros ? H. by apply elem_of_nil in H.
  - cbn [foldl]. unfold clusterStep at 2 4.
    pose proof (CompareFingerprints_nil_error c fp1 fp2) as Herr.
    destruct (CompareFingerprints c fp1 fp2) as [s err] eqn:E. cbn [snd] in Herr. subst err.
    case_bool_decide as Hin.
    { destruct (IH cluster assigned) as (added & H1 & H2 & H3 & H4).
      exists added. split; [done|]. split; [done|]. split; [done|].
      intros fp' Hfp'. destruct (H4 _ Hfp') as (? & ? & ?).
      split; [done|]. split; [by apply list_elem_of_further|done]. }
    destruct (F64.geb s threshold) eqn:Hs.
    2:{ destruct (IH cluster assigned) as (added & H1 & H2 & H3 & H4).
        exists added. split; [done|]. split; [done|]. split; [done|].
        intros fp' Hfp'. destruct (H4 _ Hfp') as (? & ? & ?).
        split; [done|]. split; [by apply list_elem_of_further|done]. }
    destruct (IH {| ClusterID := ClusterID cluster; Name := Name cluster;
                    Images := Images cluster ++ [ID fp2]; Centroid := Centroid cluster |}
                 (assigned ∪ {[ID fp2]})) as (added & H1 & H2 & H3 & H4).
    exists (fp2 :: added). rewrite H1, H2. cbn [ClusterID Name Images Centroid].
    rewrite fmap_cons, list_to_set_cons, <- app_assoc. cbn [app].
    split; [done|]. split; [by rewrite (assoc_L (∪))|].
    split.
    + apply NoDup_cons. split; [|done]. intros Hdup.
      apply list_elem_of_fmap in Hdup as (fp' & Hid & Hfp').
      destruct (H4 _ Hfp') as (Hn & _). apply Hn. rewrite <- Hid.
      apply elem_of_union_r, elem_of_singleton. done.
    + intros fp' Hfp'. apply elem_of_cons in Hfp' as [->|Hfp'].
      * split; [done|]. split; [by apply list_elem_of_here|]. by rewrite E.
      * destruct (H4 _ Hfp') as (Hn & Hl & Hg).
        split; [intros ?; apply Hn; by apply elem_of_union_l|].
        split; [by apply list_elem_of_further|done].
Qed.

(** The loop of [ClusterImages] is the loop of [ClusterByContent] started
    at the number of clusters found so far. *)
Lemma clusterImagesLoop_clusterLoop c threshold rest : forall clusters assigned,
  clusterImagesLoop c threshold rest clusters assigned
  = clusterLoop c threshold rest clusters assigned (Z.of_nat (length clusters)).
Proof.
  induction rest as [|fp1 later IH]; intros clusters assigned; [done|].
  cbn [clusterImagesLoop clusterLoop]. case_bool_decide; [apply IH|].
  set (seed := {| ClusterID := _; Name := _; Images := _; Centroid := _ |}).
  destruct (clusterStep_fold c threshold fp1 later seed (assigned ∪ {[ID fp1]}))
    as (added & H1 & H2 & _).
  destruct (foldl _ _ later) as [cluster assigned']. cbn [fst snd] in H1, H2. subst.
  cbn [Images].
  assert (Hpos : (0 <? Z.of_nat (length (Images seed ++ (ID <$> added))))%Z = true).
  { apply Z.ltb_lt. rewrite length_app. subst seed. cbn [Images length]. lia. }
  rewrite Hpos, IH, length_app, Nat2Z.inj_add. done.
Qed.

(** X4.  [Comparator.ClusterImages] and [Grouper.ClusterByContent] return
    the same clusters, with the same ids, for every comparator, list of
    fingerprints and threshold: no cluster is ever empty, so the number of
    clusters found so far and the counter of the grouper agree. *)
Theorem X4_cluster_images_is_cluster_by_content c fingerprints threshold :
  ClusterImages c fingerprints threshold = ClusterByContent c fingerprints threshold.
Proof. apply clusterImagesLoop_clusterLoop. Qed.

Lemma clusteredIds_snoc clusters cl :
  clusteredIds (clusters ++ [cl]) = clusteredIds clusters ++ Images cl.
Proof. unfold clusteredIds. by rewrite fmap_app, concat_app, fmap_cons, concat_cons, app_nil_r. Qed.

(** The seed of a cluster is not among the ids the inner loop adds. *)
Lemma clusterStep_fold_seed c threshold fp1 later assigned cluster :
  Images cluster = [ID fp1] ->
  exists added,
    Images (foldl (clusterStep c threshold fp1) (cluster, assigned ∪ {[ID fp1]}) later).1
      = ID fp1 :: (ID <$> added) /\
    (foldl (clusterStep c threshold fp1) (cluster, assigned ∪ {[ID fp1]}) later).2
      = assigned ∪ {[ID fp1]} ∪ list_to_set (ID <$> added) /\
    NoDup (ID fp1 :: (ID <$> added)) /\
    (forall fp2, fp2 ∈ added ->
       (ID fp2 ∉ assigned) /\ fp2 ∈ later /\
       F64.geb (CompareFingerprints c fp1 fp2).1 threshold = true).
Proof.
  intros Himg.
  destruct (clusterStep_fold c threshold fp1 later cluster (assigned ∪ {[ID fp1]}))
    as (added & H1 & H2 & H3 & H4).
  exists added. rewrite H1, H2. cbn [Images]. rewrite Himg. cbn [app].
  split; [done|]. split; [done|]. split.
  - apply NoDup_cons. split; [|done]. intros Hin.
    apply list_elem_of_fmap in Hin as (fp' & Hid & Hfp').
    destruct (H4 _ Hfp') as (Hn & _). apply Hn. rewrite <- Hid.
    apply elem_of_union_r, elem_of_singleton. done.
  - intros fp2 Hfp2. destruct (H4 _ Hfp2) as (Hn & Hl & Hg).
    split; [intros ?; apply Hn; by apply elem_of_union_l|]. done.
Qed.

Lemma clusterLoop_partition c threshold rest : forall clusters assigned k,
  NoDup (clusteredIds clusters) ->
  (forall id, id ∈ clusteredIds clusters <-> id ∈ assigned) ->
  NoDup (clusteredIds (clusterLoop c threshold rest clusters assigned k)) /\
  (forall id, id ∈ clusteredIds (clusterLoop c threshold rest clusters assigned k)
     <-> id ∈ assigned \/ id ∈ (ID <$> rest)).
Proof.
  induction rest as [|fp1 later IH]; intros clusters assigned k Hnd Hinv.
  - cbn. split; [done|]. intros id. rewrite Hinv, elem_of_nil. tauto.
  - cbn [clusterLoop]. case_bool_decide as Hin.
    + destruct (IH clusters assigned k Hnd Hinv) as [IH1 IH2]. split; [done|].
      intros id. rewrite IH2, fmap_cons, elem_of_cons.
      split; [tauto|]. intros [?|[->|?]]; tauto.
    + set (seed := {| ClusterID := _; Name := _; Images := _; Centroid := _ |}).
      destruct (clusterStep_fold_seed c threshold fp1 later assigned seed eq_refl)
        as (added & H1 & H2 & H3 & H4).
      destruct (foldl _ _ later) as [cluster assigned']. cbn [fst snd] in H1, H2.
      assert (Hpos : (0 <? Z.of_nat (length (Images cluster)))%Z = true).
      { apply Z.ltb_lt. rewrite H1. cbn [length]. lia. }
      rewrite Hpos.
      assert (Hadded : forall id, id ∈ (ID <$> added) -> (id ∉ assigned) /\ id ∈ (ID <$> later)).
      { intros id Hid. apply list_elem_of_fmap in Hid as (fp' & -> & Hfp').
        destruct (H4 _ Hfp') as (? & ? & _). split; [done|].
        apply list_elem_of_fmap. by exists fp'. }
      destruct (IH (clusters ++ [cluster]) assigned' (k + 1)%Z) as [IH1 IH2].
      * rewrite clusteredIds_snoc. apply NoDup_app. split; [done|].
        split; [|by rewrite H1].
        intros id Hold Hnew. rewrite H1 in Hnew. apply Hinv in Hold.
        apply elem_of_cons in Hnew as [->|Hnew]; [done|].
        by destruct (Hadded _ Hnew).
      * intros id. rewrite clusteredIds_snoc, elem_of_app, Hinv, H1, H2.
        rewrite !elem_of_union, elem_of_singleton, elem_of_list_to_set, elem_of_cons.
        tauto.
      * split; [done|]. intros id. rewrite IH2, H2.
        rewrite !elem_of_union, elem_of_singleton, elem_of_list_to_set, fmap_cons, elem_of_cons.
        split; [|tauto]. intros [[[?|?]|Ha]|?]; try tauto.
        destruct (Hadded _ Ha). tauto.
Qed.

(** X5.  The clusters form a partition of the ids of the input: no id occurs
    twice in the clusters, and the ids of the clusters are those of the
    fingerprints. *)
Theorem X5_clusters_partition_the_ids c fingerprints threshold :
  NoDup (clusteredIds (ClusterByContent c fingerprints threshold)) /\
  (forall id, id ∈ clusteredIds (ClusterByContent c fingerprints threshold)
     <-> id ∈ (ID <$> fingerprints)).
Proof.
  destruct (clusterLoop_partition c threshold fingerprints [] ∅ 0%Z) as [H1 H2].
  - apply NoDup_nil_2.
  - intros id. cbn. rewrite elem_of_nil, elem_of_empty. done.
  - split; [exact H1|]. intros id. rewrite (H2 id), elem_of_empty. tauto.
Qed.

Lemma clusterLoop_star c threshold rest : forall clusters assigned k cl,
  cl ∈ clusterLoop c threshold rest clusters assigned k ->
  cl ∈ clusters \/
  exists seed members,
    seed ∈ rest /\ Images cl = ID seed :: (ID <$> members) /\
    (forall m, m ∈ members ->
       m ∈ rest /\ F64.geb (CompareFingerprints c seed m).1 threshold = true).
Proof.
  induction rest as [|fp1 later IH]; intros clusters assigned k cl Hcl.
  - by left.
  - cbn [clusterLoop] in Hcl. case_bool_decide as Hin.
    + destruct (IH _ _ _ _ Hcl) as [?|(seed & members & Hs & Hi & Hm)]; [by left|].
      right. exists seed, members. split; [by apply list_elem_of_further|].
      split; [done|]. intros m Hmm. destruct (Hm _ Hmm).
      split; [by apply list_elem_of_further|done].
    + set (seed := {| ClusterID := _; Name := _; Images := _; Centroid := _ |}) in Hcl.
      destruct (clusterStep_fold_seed c threshold fp1 later assigned seed eq_refl)
        as (added & H1 & H2 & H3 & H4).
      destruct (foldl _ _ later) as [cluster assigned']. cbn [fst snd] in H1, H2.
      assert (Hpos : (0 <? Z.of_nat (length (Images cluster)))%Z = true).
      { apply Z.ltb_lt. rewrite H1. cbn [length]. lia. }
      rewrite Hpos in Hcl.
      destruct (IH _ _ _ _ Hcl) as [Hold|(seed' & members & Hs & Hi & Hm)].
      * apply elem_of_app in Hold as [?|Hnew]; [by left|].
        apply list_elem_of_singleton in Hnew as ->.
        right. exists fp1, added. split; [apply list_elem_of_here|]. split; [done|].
        intros m Hmm. destruct (H4 _ Hmm) as (_ & ? & ?).
        split; [by apply list_elem_of_further|done].
      * right. exists seed', members. split; [by apply list_elem_of_further|].
        split; [done|]. intros m Hmm. destruct (Hm _ Hmm).
        split; [by apply list_elem_of_further|done].
Qed.

(** X6.  Every cluster starts with the id of a record of the input, its
    seed, and continues with ids of records of the input whose similarity
    with the seed reaches the threshold; members are compared with the seed
    only, not with each other. *)
Theorem X6_cluster_members_similar_to_seed c fingerprints threshold cl :
  cl ∈ ClusterByContent c fingerprints threshold ->
  exists seed members,
    seed ∈ fingerprints /\ Images cl = ID seed :: (ID <$> members) /\
    (forall m, m ∈ members ->
       m ∈ fingerprints /\ F64.geb (CompareFingerprints c seed m).1 threshold = true).
Proof.
  intros Hcl. destruct (clusterLoop_star _ _ _ _ _ _ _ Hcl) as [H|H]; [|done].
  by apply elem_of_nil in H.
Qed.

(** The sample cluster is one of the clusters returned. *)
Lemma sampleCluster_found :
  sampleCluster ∈ ClusterByContent (Engine.similarity sampleEngine) [fpA; fpB; fpC] (8 # 10).
Proof. vm_compute. left. Qed.

Lemma X6_cluster_members_similar_to_seed_witness :
  sampleCluster ∈ ClusterByContent (Engine.similarity sampleEngine) [fpA; fpB; fpC] (8 # 10) /\
  exists seed members,
    seed ∈ [fpA; fpB; fpC] /\ Images sampleCluster = ID seed :: (ID <$> members) /\
    (forall m, m ∈ members ->
       m ∈ [fpA; fpB; fpC] /\
       F64.geb (CompareFingerprints (Engine.similarity sampleEngine) seed m).1 (8 # 10) = true).
Proof.
  split; [exact sampleCluster_found|].
  exact (X6_cluster_members_similar_to_seed (Engine.similarity sampleEngine) [fpA; fpB; fpC] (8 # 10)
           sampleCluster sampleCluster_found).
Defined.

Lemma groupStep_clusterStep c threshold fp1 later : forall group cluster assigned,
  group_ids group = Images cluster ->
  group_ids (foldl (Grouper.groupStep c threshold fp1) (group, assigned) later).1
  = Images (foldl (clusterStep c threshold fp1) (cluster, assigned) later).1 /\
  (foldl (Grouper.groupStep c threshold fp1) (group, assigned) later).2
  = (foldl (clusterStep c threshold fp1) (cluster, assigned) later).2.
Proof.
  induction later as [|fp2 later IH]; intros group cluster assigned Hids; [done|].
  cbn [foldl]. unfold Grouper.groupStep at 2 4, clusterStep at 2 4.
  destruct (CompareFingerprints c fp1 fp2) as [s err].
  case_bool_decide; [by apply IH|].
  destruct err; [by apply IH|].
  destruct (F64.geb s threshold); [|by apply IH].
  apply IH. unfold group_ids in *. cbn [MainImage DuplicateIDs Images].
  by rewrite <- Hids.
Qed.

Lemma groupLoop_clusterLoop c threshold rest : forall groups clusters assigned groupID clusterID,
  group_ids <$> groups = filter proper (Images <$> clusters) ->
  group_ids <$> Grouper.groupLoop c threshold rest groups assigned groupID
  = filter proper (Images <$> clusterLoop c threshold rest clusters assigned clusterID).
Proof.
  induction rest as [|fp1 later IH]; intros groups clusters assigned groupID clusterID Hinv;
    [done|].
  cbn [Grouper.groupLoop clusterLoop]. case_bool_decide; [by apply IH|].
  set (group := {| GroupID := _; MainImage := _; DuplicateIDs := _; Reason := _;
                   Confidence := _ |}).
  set (seed := {| ClusterID := _; Name := _; Images := _; Centroid := _ |}).
  destruct (groupStep_clusterStep c threshold fp1 later group seed (assigned ∪ {[ID fp1]})
              eq_refl) as [H1 H2].
  destruct (clusterStep_fold_seed c threshold fp1 later assigned seed eq_refl)
    as (added & H3 & _).
  destruct (foldl (Grouper.groupStep _ _ _) _ later) as [group' assigned1].
  destruct (foldl (clusterStep _ _ _) _ later) as [cluster assigned2].
  cbn [fst snd] in *. subst assigned2.
  assert (Hpos : (0 <? Z.of_nat (length (Images cluster)))%Z = true).
  { apply Z.ltb_lt. rewrite H3. cbn [length]. lia. }
  rewrite Hpos. apply IH.
  rewrite fmap_app, filter_app, <- Hinv. cbn [fmap list_fmap].
  assert (Hlen : length (Images cluster) = S (length (DuplicateIDs group'))).
  { rewrite <- H1. done. }
  destruct (Z.ltb_spec 0 (Z.of_nat (length (DuplicateIDs group')))) as [Hd|Hd].
  - rewrite fmap_app. cbn [fmap list_fmap]. rewrite filter_cons_True; [by rewrite H1|].
    unfold proper. lia.
  - rewrite filter_cons_False; [by rewrite app_nil_r|]. unfold proper. lia.
Qed.

(** X7.  The groups of [GroupBySimilarity] are the clusters of
    [ClusterByContent] that have at least two ids: the main image is the
    first id of the cluster and the duplicates are the others. *)
Theorem X7_groups_are_clusters_of_two_or_more c fingerprints threshold :
  group_ids <$> Grouper.GroupBySimilarity c fingerprints threshold
  = filter proper (Images <$> ClusterByContent c fingerprints threshold).
Proof. by apply groupLoop_clusterLoop. Qed.

Import Engine.

Lemma nearStep_clusterStep e threshold fp1 later : forall cluster assigned,
  foldl (nearStep e threshold fp1) (Images cluster, assigned) later
  = (Images (foldl (clusterStep (similarity e) threshold fp1) (cluster, assigned) later).1,
     (foldl (clusterStep (similarity e) threshold fp1) (cluster, assigned) later).2).
Proof.
  induction later as [|fp2 later IH]; intros cluster assigned; [done|].
  cbn [foldl]. unfold nearStep at 2, clusterStep at 2 4.
  destruct (CompareFingerprints (similarity e) fp1 fp2) as [s err].
  case_bool_decide; [by apply IH|].
  destruct err; [by apply IH|].
  destruct (F64.geb s threshold); [|by apply IH].
  apply (IH {| ClusterID := ClusterID cluster; Name := Name cluster;
               Images := Images cluster ++ [ID fp2]; Centroid := Centroid cluster |}).
Qed.

Lemma nearLoop_clusterLoop e threshold fingerprints rest :
  forall groups clusters processed groupCounter clusterID,
  Forall2 (fun g ids => group_ids g ≡ₚ ids) groups (filter proper (Images <$> clusters)) ->
  Forall2 (fun g ids => group_ids g ≡ₚ ids)
    (nearLoop e threshold fingerprints rest groups processed groupCounter)
    (filter proper
       (Images <$> clusterLoop (similarity e) threshold rest clusters processed clusterID)).
Proof.
  induction rest as [|fp1 later IH];
    intros groups clusters processed groupCounter clusterID Hinv; [done|].
  cbn [nearLoop clusterLoop]. case_bool_decide; [by apply IH|].
  set (seed := {| ClusterID := _; Name := _; Images := _; Centroid := _ |}).
  pose proof (nearStep_clusterStep e threshold fp1 later seed (processed ∪ {[ID fp1]})) as H1.
  change (Images seed) with [ID fp1] in H1. rewrite H1.
  destruct (clusterStep_fold_seed (similarity e) threshold fp1 later processed seed eq_refl)
    as (added & H3 & _ & Hnd & _).
  destruct (foldl (clusterStep _ _ _) _ later) as [cluster assigned']. cbn [fst snd] in *.
  assert (Hpos : (0 <? Z.of_nat (length (Images cluster)))%Z = true).
  { apply Z.ltb_lt. rewrite H3. cbn [length]. lia. }
  rewrite Hpos.
  destruct (Z.ltb_spec 1 (Z.of_nat (length (Images cluster)))) as [Hl|Hl].
  - apply IH. rewrite fmap_app, filter_app. cbn [fmap list_fmap].
    rewrite filter_cons_True by (unfold proper; lia).
    apply Forall2_app; [done|]. constructor; [|constructor].
    unfold group_ids. cbn [MainImage DuplicateIDs].
    apply removeElement_perm; [by rewrite H3|].
    apply selectBestImage_elem. rewrite H3. done.
  - apply IH. rewrite fmap_app, filter_app. cbn [fmap list_fmap].
    rewrite filter_cons_False by (unfold proper; lia). by rewrite app_nil_r.
Qed.

(** X8.  The near-duplicate groups of the engine are, in order, the clusters
    of [ClusterByContent] over the records of the index that have at least
    two ids; within a group the ids are reordered so that the best image
    comes first. *)
Theorem X8_near_groups_are_clusters e threshold :
  Forall2 (fun g ids => group_ids g ≡ₚ ids)
    (FindNearDuplicates e threshold)
    (filter proper
       (Images <$> ClusterByContent (similarity e)
                     (Index.GetAllFingerprints (index e)) threshold)).
Proof. apply nearLoop_clusterLoop. constructor. Qed.

End ClusterFacts.

(** ** The BoltDB store: invariants of the buckets *)

Section BucketFacts.

Import Index.

Lemma Put_bucketsExist name key value tx tx' :
  Put name key value tx = Some tx' -> bucketsExist tx -> bucketsExist tx'.
Proof.
  unfold Put. intros H He n Hn. destruct (buckets tx !! name) as [b|] eqn:Eb; [|done].
  cbn in H. destruct (keyOK key); [|done]. injection H as <-. cbn.
  destruct (decide (name = n)) as [->|Hne].
  - rewrite lookup_insert_eq. done.
  - rewrite lookup_insert_ne by done. by apply He.
Qed.

Lemma Delete_bucketsExist name key tx tx' :
  Delete name key tx = Some tx' -> bucketsExist tx -> bucketsExist tx'.
Proof.
  unfold Delete. intros H He n Hn. destruct (buckets tx !! name) as [b|] eqn:Eb; [|done].
  cbn in H. injection H as <-. cbn.
  destruct (decide (name = n)) as [->|Hne].
  - rewrite lookup_insert_eq. done.
  - rewrite lookup_insert_ne by done. by apply He.
Qed.

Lemma updateHashIndex_bucketsExist name hash id tx tx' :
  updateHashIndex name hash id tx = Some tx' -> bucketsExist tx -> bucketsExist tx'.
Proof.
  unfold updateHashIndex. intros H He. destruct (hash =? 0); [by injection H as <-|].
  destruct (match Get name (hex16 hash) tx with Some d => unmarshalIDs d | None => Some [] end)
    as [images|]; [|done].
  cbn in H. case_bool_decide; [by injection H as <-|]. by eapply Put_bucketsExist.
Qed.

Lemma removeFromHashIndex_bucketsExist name hash id tx tx' :
  removeFromHashIndex name hash id tx = Some tx' -> bucketsExist tx -> bucketsExist tx'.
Proof.
  unfold removeFromHashIndex. intros H He. destruct (hash =? 0); [by injection H as <-|].
  destruct (Get name (hex16 hash) tx) as [d|]; [|by injection H as <-].
  destruct (unmarshalIDs d) as [images|]; [|done]. cbn in H.
  destruct (filter _ images); [by eapply Delete_bucketsExist|by eapply Put_bucketsExist].
Qed.

Lemma saveTx_bucketsExist fp tx tx' :
  saveTx fp tx = Some tx' -> bucketsExist tx -> bucketsExist tx'.
Proof.
  intros H He. apply saveTx_steps in H as (t1 & t2 & t3 & t4 & t5 & t6 & H1 & H2 & H3 & H4 & H5 & H6 & H7).
  assert (He1 : bucketsExist t1).
  { unfold putFingerprint in H1. destruct (keyOK (ID fp)); [|done]. by injection H1 as <-. }
  eapply updateHashIndex_bucketsExist; [exact H7|].
  eapply updateHashIndex_bucketsExist; [exact H6|].
  eapply updateHashIndex_bucketsExist; [exact H5|].
  eapply updateHashIndex_bucketsExist; [exact H4|].
  eapply Put_bucketsExist; [exact H3|].
  eapply Put_bucketsExist; [exact H2|]. exact He1.
Qed.

Lemma deleteTx_bucketsExist id tx tx' :
  deleteTx id tx = Some tx' -> bucketsExist tx -> bucketsExist tx'.
Proof.
  intros H He. apply deleteTx_steps in H as (fp & t1 & t2 & t3 & t4 & t5 & H0 & H1 & H2 & H3 & H4 & H5 & H6).
  eapply removeFromHashIndex_bucketsExist; [exact H6|].
  eapply removeFromHashIndex_bucketsExist; [exact H5|].
  eapply removeFromHashIndex_bucketsExist; [exact H4|].
  eapply removeFromHashIndex_bucketsExist; [exact H3|].
  eapply Delete_bucketsExist; [exact H2|].
  eapply Delete_bucketsExist; [exact H1|]. exact He.
Qed.

(** An invariant of the transactions holds in every reachable state. *)
Lemma reachable_ind_tx (P : DB -> Prop) :
  P initBuckets ->
  (forall fp tx tx', saveTx fp tx = Some tx' -> P tx -> P tx') ->
  (forall id tx tx', deleteTx id tx = Some tx' -> P tx -> P tx') ->
  forall db, reachable db -> P db.
Proof.
  intros H0 Hs Hd db Hr. induction Hr as [|fp db Hr IH|id db Hr IH]; [done| |].
  - unfold SaveFingerprint, Update. destruct (saveTx fp db) eqn:E; [|done]. by eapply Hs.
  - unfold DeleteFingerprint, Update. destruct (deleteTx id db) eqn:E; [|done]. by eapply Hd.
Qed.

Lemma reachable_bucketsExist db : reachable db -> bucketsExist db.
Proof.
  apply reachable_ind_tx.
  - intros name Hn. unfold indexBuckets in Hn.
    repeat (apply elem_of_cons in Hn as [->|Hn]; [by eexists|]). by apply elem_of_nil in Hn.
  - apply saveTx_bucketsExist.
  - apply deleteTx_bucketsExist.
Qed.

Lemma sameExcept_listsOnly name n tx tx' :
  sameExcept name tx tx' -> n <> name -> listsOnly n tx -> listsOnly n tx'.
Proof.
  intros Hs Hn Hl key value Hg. rewrite (Get_sameExcept _ _ _ _ _ Hs Hn) in Hg. by eapply Hl.
Qed.

Lemma updateHashIndex_listsOnly name hash id tx tx' n :
  updateHashIndex name hash id tx = Some tx' -> listsOnly n tx -> listsOnly n tx'.
Proof.
  intros H Hl. destruct (decide (n = name)) as [->|Hn].
  2:{ eapply sameExcept_listsOnly; [by eapply updateHashIndex_sameExcept|done|done]. }
  unfold updateHashIndex in H. destruct (hash =? 0); [by injection H as <-|].
  destruct (Get name (hex16 hash) tx) as [d|] eqn:Eg.
  - destruct (Hl _ _ Eg) as (ids & -> & Hne & Hnd). cbn in H.
    case_bool_decide as Hin; [by injection H as <-|].
    intros key value Hg. rewrite (Get_Put _ _ _ _ _ _ H) in Hg.
    case_decide; [|by eapply Hl].
    injection Hg as <-. exists (ids ++ [id]). split; [done|].
    split; [by destruct ids|]. apply NoDup_app. split; [done|].
    split; [|apply NoDup_singleton].
    intros x Hx Hx'. apply list_elem_of_singleton in Hx' as ->. done.
  - cbn in H. case_bool_decide as Hin; [by injection H as <-|].
    intros key value Hg. rewrite (Get_Put _ _ _ _ _ _ H) in Hg.
    case_decide; [|by eapply Hl].
    injection Hg as <-. exists [id]. split; [done|]. split; [done|]. apply NoDup_singleton.
Qed.

Lemma removeFromHashIndex_listsOnly name hash id tx tx' n :
  removeFromHashIndex name hash id tx = Some tx' -> listsOnly n tx -> listsOnly n tx'.
Proof.
  intros H Hl. destruct (decide (n = name)) as [->|Hn].
  2:{ eapply sameExcept_listsOnly; [by eapply removeFromHashIndex_sameExcept|done|done]. }
  unfold removeFromHashIndex in H. destruct (hash =? 0); [by injection H as <-|].
  destruct (Get name (hex16 hash) tx) as [d|] eqn:Eg; [|by injection H as <-].
  destruct (Hl _ _ Eg) as (ids & -> & Hne & Hnd). cbn in H.
  destruct (filter (fun x => x <> id) ids) as [|x rest] eqn:Ef.
  - intros key value Hg. rewrite (Get_Delete _ _ _ _ _ H) in Hg.
    case_decide; [done|by eapply Hl].
  - intros key value Hg. rewrite (Get_Put _ _ _ _ _ _ H) in Hg.
    case_decide; [|by eapply Hl].
    injection Hg as <-. exists (x :: rest). split; [done|]. split; [done|].
    rewrite <- Ef. by apply NoDup_filter.
Qed.

Lemma saveTx_listsOnly fp tx tx' n :
  n ∈ hashBuckets -> saveTx fp tx = Some tx' -> listsOnly n tx -> listsOnly n tx'.
Proof.
  intros Hn H Hl.
  apply saveTx_steps in H as (t1 & t2 & t3 & t4 & t5 & t6 & H1 & H2 & H3 & H4 & H5 & H6 & H7).
  assert (Hl1 : listsOnly n t1).
  { unfold putFingerprint in H1. destruct (keyOK (ID fp)); [|done]. by injection H1 as <-. }
  assert (Hn1 : n <> "sha256_index" /\ n <> "path_index").
  { unfold hashBuckets in Hn.
    repeat (apply elem_of_cons in Hn as [->|Hn]; [done|]). by apply elem_of_nil in Hn. }
  eapply updateHashIndex_listsOnly; [exact H7|].
  eapply updateHashIndex_listsOnly; [exact H6|].
  eapply updateHashIndex_listsOnly; [exact H5|].
  eapply updateHashIndex_listsOnly; [exact H4|].
  eapply sameExcept_listsOnly; [by eapply Put_sameExcept|tauto|].
  eapply sameExcept_listsOnly; [by eapply Put_sameExcept|tauto|]. exact Hl1.
Qed.

Lemma deleteTx_listsOnly id tx tx' n :
  n ∈ hashBuckets -> deleteTx id tx = Some tx' -> listsOnly n tx -> listsOnly n tx'.
Proof.
  intros Hn H Hl.
  apply deleteTx_steps in H as (fp & t1 & t2 & t3 & t4 & t5 & H0 & H1 & H2 & H3 & H4 & H5 & H6).
  assert (Hn1 : n <> "sha256_index" /\ n <> "path_index").
  { unfold hashBuckets in Hn.
    repeat (apply elem_of_cons in Hn as [->|Hn]; [done|]). by apply elem_of_nil in Hn. }
  eapply removeFromHashIndex_listsOnly; [exact H6|].
  eapply removeFromHashIndex_listsOnly; [exact H5|].
  eapply removeFromHashIndex_listsOnly; [exact H4|].
  eapply removeFromHashIndex_listsOnly; [exact H3|].
  eapply sameExcept_listsOnly; [by eapply Delete_sameExcept|tauto|].
  eapply sameExcept_listsOnly; [by eapply Delete_sameExcept|tauto|]. exact Hl.
Qed.

(** *** The keys of the hash buckets *)

Lemma hexval_hexdigit (d : Z) : 0 <= d < 16 -> hexval (hexdigit d) = d.
Proof.
  intros Hd.
  assert (H : d = 0 \/ d = 1 \/ d = 2 \/ d = 3 \/ d = 4 \/ d = 5 \/ d = 6 \/ d = 7 \/
              d = 8 \/ d = 9 \/ d = 10 \/ d = 11 \/ d = 12 \/ d = 13 \/ d = 14 \/ d = 15)
    by lia.
  repeat (destruct H as [->|H]; [reflexivity|]). by subst.
Qed.

Lemma length_hex_digits (n : nat) : forall h acc,
  String.length (hex_digits n h acc) = (n + String.length acc)%nat.
Proof.
  induction n as [|n IH]; intros h acc; [done|].
  cbn [hex_digits]. rewrite IH. cbn [String.length]. lia.
Qed.

Lemma parseHex_hex_digits (n : nat) : forall h acc v,
  parseHex (hex_digits n h acc) v = parseHex acc (v * 16 ^ Z.of_nat n + h mod 16 ^ Z.of_nat n).
Proof.
  induction n as [|n IH]; intros h acc v.
  - cbn [hex_digits]. f_equal. change (16 ^ Z.of_nat 0) with 1. rewrite Z.mod_1_r. lia.
  - cbn [hex_digits]. rewrite IH. cbn [parseHex].
    rewrite hexval_hexdigit by (apply Z.mod_pos_bound; lia). f_equal.
    rewrite Nat2Z.inj_succ, Z.pow_succ_r by lia.
    rewrite (Z.rem_mul_r h 16 (16 ^ Z.of_nat n)) by lia. ring.
Qed.

(** [Sprintf("%016x", hash)] has 16 characters and can be read back. *)
Lemma hex16_length (hash : Z) : String.length (hex16 hash) = 16%nat.
Proof. unfold hex16. by rewrite length_hex_digits. Qed.

Lemma parseHex_hex16 (hash : Z) :
  0 <= hash < 2 ^ 64 -> parseHex (hex16 hash) 0 = hash.
Proof.
  intros Hh. unfold hex16. rewrite parseHex_hex_digits. cbn [parseHex].
  change (16 ^ Z.of_nat 16) with (2 ^ 64). rewrite Z.mod_small by done. lia.
Qed.

Lemma hex16_inj (h1 h2 : Z) :
  0 <= h1 < 2 ^ 64 -> 0 <= h2 < 2 ^ 64 -> hex16 h1 = hex16 h2 -> h1 = h2.
Proof.
  intros H1 H2 E. rewrite <- (parseHex_hex16 h1 H1), <- (parseHex_hex16 h2 H2). by rewrite E.
Qed.

Lemma keyOK_hex16 (hash : Z) : keyOK (hex16 hash) = true.
Proof.
  unfold keyOK. rewrite hex16_length.
  destruct (String.eqb_spec (hex16 hash) EmptyString) as [E|_]; [|done].
  pose proof (hex16_length hash) as Hl. rewrite E in Hl. done.
Qed.

(** *** When a transaction succeeds *)

Lemma hashBuckets_indexBuckets n : n ∈ hashBuckets -> n ∈ indexBuckets.
Proof.
  unfold hashBuckets, indexBuckets. intros Hn.
  repeat (apply elem_of_cons in Hn as [->|Hn];
          [repeat first [apply list_elem_of_here|apply list_elem_of_further]|]).
  by apply elem_of_nil in Hn.
Qed.

(** Every state of the index is well formed. *)
Lemma reachable_wellFormed db : reachable db -> wellFormed db.
Proof.
  intros Hr. split; [by apply reachable_bucketsExist|].
  intros n Hn. revert db Hr. apply reachable_ind_tx.
  - intros key value Hg. unfold hashBuckets in Hn.
    repeat (apply elem_of_cons in Hn as [->|Hn]; [done|]). by apply elem_of_nil in Hn.
  - intros fp tx tx'. by apply saveTx_listsOnly.
  - intros id tx tx'. by apply deleteTx_listsOnly.
Qed.

Lemma Put_Some name key value tx :
  bucketsExist tx -> name ∈ indexBuckets -> keyOK key = true ->
  is_Some (Put name key value tx).
Proof.
  intros He Hn Hk. unfold Put. destruct (He _ Hn) as [b ->]. cbn. rewrite Hk. by eexists.
Qed.


Lemma Delete_Some name key tx :
  bucketsExist tx -> name ∈ indexBuckets -> is_Some (Delete name key tx).
Proof.
  intros He Hn. unfold Delete. destruct (He _ Hn) as [b ->]. cbn. by eexists.
Qed.


Lemma removeFromHashIndex_Some name hash id tx :
  bucketsExist tx -> name ∈ hashBuckets -> listsOnly name tx ->
  is_Some (removeFromHashIndex name hash id tx).
Proof.
  intros He Hn Hl. unfold removeFromHashIndex. destruct (hash =? 0); [by eexists|].
  destruct (Get name (hex16 hash) tx) as [d|] eqn:Eg; [|by eexists].
  destruct (Hl _ _ Eg) as (ids & -> & _). cbn.
  destruct (filter _ ids).
  - apply Delete_Some; [done|by apply hashBuckets_indexBuckets].
  - apply Put_Some; [done|by apply hashBuckets_indexBuckets|apply keyOK_hex16].
Qed.

Lemma wellFormed_step (f : DB -> option DB) tx tx' :
  (forall tx tx', f tx = Some tx' -> bucketsExist tx -> bucketsExist tx') ->
  (forall n tx tx', n ∈ hashBuckets -> f tx = Some tx' -> listsOnly n tx -> listsOnly n tx') ->
  f tx = Some tx' -> wellFormed tx -> wellFormed tx'.
Proof. intros H1 H2 Hf [He Hl]. split; [by eapply H1|]. intros n Hn. eapply H2; eauto. Qed.


Lemma Delete_wellFormed name key tx tx' :
  name ∉ hashBuckets -> Delete name key tx = Some tx' ->
  wellFormed tx -> wellFormed tx'.
Proof.
  intros Hn H [He Hl]. split; [by eapply Delete_bucketsExist|].
  intros n Hnn. eapply sameExcept_listsOnly; [by eapply Delete_sameExcept| |by apply Hl].
  intros ->. done.
Qed.


Lemma removeFromHashIndex_wellFormed name hash id tx tx' :
  removeFromHashIndex name hash id tx = Some tx' -> wellFormed tx -> wellFormed tx'.
Proof.
  intros H [He Hl]. split; [by eapply removeFromHashIndex_bucketsExist|].
  intros n Hn. eapply removeFromHashIndex_listsOnly; [done|by apply Hl].
Qed.

Lemma not_hashBucket_sha256 : "sha256_index" ∉ hashBuckets.
Proof. unfold hashBuckets. rewrite !not_elem_of_cons. repeat split; try done. apply not_elem_of_nil. Qed.

Lemma not_hashBucket_path : "path_index" ∉ hashBuckets.
Proof. unfold hashBuckets. rewrite !not_elem_of_cons. repeat split; try done. apply not_elem_of_nil. Qed.

Ltac in_list := repeat first [apply list_elem_of_here|apply list_elem_of_further].


(** In a well-formed index the delete transaction goes through exactly
    when the id has a record. *)
Lemma deleteTx_Some id tx :
  wellFormed tx -> (is_Some (deleteTx id tx) <-> is_Some (GetFingerprint id tx)).
Proof.
  intros Hw. split.
  - intros [tx' H]. apply deleteTx_steps in H as (fp & _ & _ & _ & _ & _ & H0 & _). by eexists.
  - intros [fp E]. unfold deleteTx. rewrite E. cbn [mbind option_bind].
    set (t0 := {| fingerprints := _; buckets := buckets tx |}).
    assert (Hw0 : wellFormed t0) by (destruct Hw as [He Hl]; by split).
    destruct (Delete_Some "sha256_index" (SHA256 (Metadata fp)) t0)
      as [t1 E1]; [apply Hw0|unfold indexBuckets; in_list|].
    rewrite E1. cbn [mbind option_bind].
    pose proof (Delete_wellFormed _ _ _ _ not_hashBucket_sha256 E1 Hw0) as Hw1.
    destruct (Delete_Some "path_index" (Path (Metadata fp)) t1)
      as [t2 E2]; [apply Hw1|unfold indexBuckets; in_list|].
    rewrite E2. cbn [mbind option_bind].
    pose proof (Delete_wellFormed _ _ _ _ not_hashBucket_path E2 Hw1) as Hw2.
    destruct (removeFromHashIndex_Some "ahash_index" (AHash (PHashes fp)) id t2)
      as [t3 E3]; [apply Hw2|unfold hashBuckets; in_list|apply Hw2; unfold hashBuckets; in_list|].
    rewrite E3. cbn [mbind option_bind].
    pose proof (removeFromHashIndex_wellFormed _ _ _ _ _ E3 Hw2) as Hw3.
    destruct (removeFromHashIndex_Some "phash_index" (PHash (PHashes fp)) id t3)
      as [t4 E4]; [apply Hw3|unfold hashBuckets; in_list|apply Hw3; unfold hashBuckets; in_list|].
    rewrite E4. cbn [mbind option_bind].
    pose proof (removeFromHashIndex_wellFormed _ _ _ _ _ E4 Hw3) as Hw4.
    destruct (removeFromHashIndex_Some "dhash_index" (DHash (PHashes fp)) id t4)
      as [t5 E5]; [apply Hw4|unfold hashBuckets; in_list|apply Hw4; unfold hashBuckets; in_list|].
    rewrite E5. cbn [mbind option_bind].
    pose proof (removeFromHashIndex_wellFormed _ _ _ _ _ E5 Hw4) as Hw5.
    apply removeFromHashIndex_Some;
      [apply Hw5|unfold hashBuckets; in_list|apply Hw5; unfold hashBuckets; in_list].
Qed.

(** *** What the store answers after a save and after a delete *)



(** The records [GetAllFingerprints] lists are those stored under their
    own id. *)
Lemma GetAllFingerprints_elem db fp :
  keyedById db ->
  (fp ∈ GetAllFingerprints db <-> GetFingerprint (ID fp) db = Some fp).
Proof.
  intros Hk. unfold GetAllFingerprints, GetFingerprint. rewrite list_elem_of_fmap. split.
  - intros ([k fp'] & -> & Hin). apply elem_of_map_to_list in Hin. cbn.
    by rewrite (Hk _ _ Hin).
  - intros Hfp. exists (ID fp, fp). split; [done|]. by apply elem_of_map_to_list.
Qed.

End BucketFacts.

(** ** The BoltDB store: what a caller observes *)

Section IndexTheorems.

Import Index Engine.






(** X11.  In every state of the index, deleting an id without a record
    returns an error and changes nothing; deleting an id with a record
    returns no error, removes that record and keeps all others. *)
Theorem X11_delete_removes_one_record id db :
  reachable db ->
  (GetFingerprint id db = None -> DeleteFingerprint id db = (db, true)) /\
  (is_Some (GetFingerprint id db) ->
     (DeleteFingerprint id db).2 = false /\
     GetFingerprint id (DeleteFingerprint id db).1 = None /\
     (forall id', id' <> id ->
        GetFingerprint id' (DeleteFingerprint id db).1 = GetFingerprint id' db)).
Proof.
  intros Hr. pose proof (deleteTx_Some id db (reachable_wellFormed _ Hr)) as Hs.
  unfold DeleteFingerprint, Update. split.
  - intros Hn. destruct (deleteTx id db) as [db'|] eqn:E; [|done].
    destruct Hs as [Hs _]. destruct Hs as [fp Hfp]; [by eexists|]. congruence.
  - intros Hfp. apply Hs in Hfp as [db' E]. rewrite E. cbn [fst snd].
    unfold GetFingerprint. rewrite (deleteTx_fingerprints _ _ _ E).
    split; [done|]. split; [apply lookup_delete_eq|].
    intros id' Hid. by apply lookup_delete_ne.
Qed.

Lemma X11_delete_removes_one_record_witness :
  reachable (index sampleEngine) /\
  (GetFingerprint "img_00000000000000ff" (index sampleEngine) = None ->
   DeleteFingerprint "img_00000000000000ff" (index sampleEngine)
   = (index sampleEngine, true)).
Proof.
  split; [exact sampleEngine_reachable|].
  exact (proj1 (X11_delete_removes_one_record "img_00000000000000ff" (index sampleEngine)
                  sampleEngine_reachable)).
Defined.





(** X13.  In every state of the index [GetAllFingerprints] lists exactly the
    records [GetFingerprint] finds, and no id twice. *)
Theorem X13_get_all_lists_each_record_once (db : DB) :
  reachable db ->
  NoDup (ID <$> GetAllFingerprints db) /\
  (forall fp, fp ∈ GetAllFingerprints db <-> GetFingerprint (ID fp) db = Some fp).
Proof.
  intros Hr. pose proof (reachable_keyedById _ Hr) as Hk.
  split; [by apply GetAllFingerprints_NoDup|].
  intros fp. by apply GetAllFingerprints_elem.
Qed.

Lemma X13_get_all_lists_each_record_once_witness :
  reachable (index sampleEngine) /\
  NoDup (ID <$> GetAllFingerprints (index sampleEngine)).
Proof.
  split; [exact sampleEngine_reachable|].
  exact (proj1 (X13_get_all_lists_each_record_once (index sampleEngine) sampleEngine_reachable)).
Defined.

(** X14.  In every state of the index each of the four perceptual-hash
    buckets holds, under every key, a JSON list of ids that is not empty and
    names no id twice: [updateHashIndex] never appends an id that is listed,
    and [removeFromHashIndex] deletes the key with its last id. *)
Theorem X14_hash_buckets_hold_id_lists (db : DB) (name : string) :
  reachable db -> name ∈ hashBuckets ->
  forall key value, Get name key db = Some value ->
    exists ids, value = JSONIDs ids /\ ids <> [] /\ NoDup ids.
Proof.
  intros Hr Hn. change (listsOnly name db). revert db Hr. apply reachable_ind_tx.
  - intros key value Hg. unfold hashBuckets in Hn.
    repeat (apply elem_of_cons in Hn as [->|Hn]; [done|]). by apply elem_of_nil in Hn.
  - intros fp tx tx'. by apply saveTx_listsOnly.
  - intros id tx tx'. by apply deleteTx_listsOnly.
Qed.

(** The a-hash bucket is one of the four. *)
Lemma ahash_index_hashBucket : "ahash_index" ∈ hashBuckets.
Proof. apply list_elem_of_here. Qed.

Lemma X14_hash_buckets_hold_id_lists_witness :
  reachable (index sampleEngine) /\ "ahash_index" ∈ hashBuckets /\
  forall key value, Get "ahash_index" key (index sampleEngine) = Some value ->
    exists ids, value = JSONIDs ids /\ ids <> [] /\ NoDup ids.
Proof.
  split; [exact sampleEngine_reachable|]. split; [exact ahash_index_hashBucket|].
  exact (X14_hash_buckets_hold_id_lists (index sampleEngine) "ahash_index"
           sampleEngine_reachable ahash_index_hashBucket).
Defined.

(** X15.  The key of a hash in the hash buckets, [Sprintf("%016x", hash)],
    has 16 characters and is a key BoltDB accepts; on 64-bit hashes it reads
    back as the hash, so different hashes have different keys. *)
Theorem X15_hash_key_round_trip :
  (forall hash, String.length (hex16 hash) = 16%nat /\ keyOK (hex16 hash) = true) /\
  (forall hash, 0 <= hash < 2 ^ 64 -> parseHex (hex16 hash) 0 = hash) /\
  (forall h1 h2, 0 <= h1 < 2 ^ 64 -> 0 <= h2 < 2 ^ 64 -> hex16 h1 = hex16 h2 -> h1 = h2).
Proof.
  split; [intros hash; split; [apply hex16_length|apply keyOK_hex16]|].
  split; [apply parseHex_hex16|apply hex16_inj].
Qed.

End IndexTheorems.

(** ** The in-memory store *)

Section MemoryStoreFacts.

Import Index.








(** X17.  [MemoryStore.FindSimilarHashes] returns the stored records whose
    hash of the requested kind is not zero and lies within the distance; for
    an unknown kind it returns nothing. *)
Theorem X17_memory_find_similar_hashes targetHash maxDistance hashType m fp :
  fp ∈ MemFindSimilarHashes targetHash maxDistance hashType m <->
  fp ∈ MemGetAllFingerprints m /\
  exists hashValue,
    hashOfType hashType fp = Some hashValue /\ hashValue <> 0 /\
    hammingDistance targetHash hashValue <= maxDistance.
Proof.
  unfold MemFindSimilarHashes, MemGetAllFingerprints.
  generalize ((map_to_list (m_fingerprints m)).*2). intros l.
  assert (H : forall acc,
    fp ∈ foldl (similarHashStep targetHash maxDistance hashType) acc l <->
    fp ∈ acc \/ (fp ∈ l /\ exists hashValue,
       hashOfType hashType fp = Some hashValue /\ hashValue <> 0 /\
       hammingDistance targetHash hashValue <= maxDistance)).
  { induction l as [|x l IH]; intros acc.
    - cbn [foldl]. rewrite elem_of_nil. tauto.
    - cbn [foldl]. rewrite IH, elem_of_cons. unfold similarHashStep at 1.
      destruct (hashOfType hashType x) as [h|] eqn:Eh.
      + destruct (Z.eqb_spec h 0) as [Hz|Hz].
        * split; [tauto|]. intros [?|[[->|?] Hx]]; [tauto| |tauto].
          destruct Hx as (h' & Hh' & Hn & _). congruence.
        * destruct (Z.leb_spec (hammingDistance targetHash h) maxDistance) as [Hd|Hd].
          -- rewrite elem_of_app, list_elem_of_singleton. split.
             ++ intros [[?| ->]|?]; [tauto| |tauto]. right. split; [by left|]. by exists h.
             ++ intros [?|[[->|?] ?]]; tauto.
          -- split; [tauto|]. intros [?|[[->|?] Hx]]; [tauto| |tauto].
             destruct Hx as (h' & Hh' & _ & Hd'). assert (h' = h) as -> by congruence. lia.
      + split; [tauto|]. intros [?|[[->|?] Hx]]; [tauto| |tauto].
        destruct Hx as (h' & Hh' & _). congruence. }
  rewrite H, elem_of_nil. tauto.
Qed.

End MemoryStoreFacts.

(** ** The engine: the main image and the shape of the groups *)

Section EngineGroupFacts.

Import Similarity Engine.

Local Open Scope Q_scope.






Lemma exactStep_fold_sound e fps entries : forall groups n g,
  g ∈ (foldl (exactStep e fps) (groups, n) entries).1 ->
  g ∈ groups \/
  exists k ids n', (k, ids) ∈ entries /\ (1 < length ids)%nat /\ g = exactGroup fps n' ids.
Proof.
  induction entries as [|[k ids] entries IH]; intros groups n g Hg; [by left|].
  cbn [foldl] in Hg. unfold exactStep at 2 in Hg. cbn [snd] in Hg.
  destruct (Z.ltb_spec 1 (Z.of_nat (length ids))) as [Hl|Hl].
  - destruct (IH _ _ _ Hg) as [Hold|(k' & ids' & n' & Hin & Hlen & ->)].
    + apply elem_of_app in Hold as [?|Hnew]; [by left|].
      apply list_elem_of_singleton in Hnew as ->. right.
      exists k, ids, n. split; [apply list_elem_of_here|]. split; [lia|done].
    + right. exists k', ids', n'. split; [by apply list_elem_of_further|done].
  - destruct (IH _ _ _ Hg) as [?|(k' & ids' & n' & Hin & Hlen & ->)]; [by left|].
    right. exists k', ids', n'. split; [by apply list_elem_of_further|done].
Qed.

Lemma exactStep_fold_mono e fps entries : forall groups n g,
  g ∈ groups -> g ∈ (foldl (exactStep e fps) (groups, n) entries).1.
Proof.
  induction entries as [|[k ids] entries IH]; intros groups n g Hg; [done|].
  cbn [foldl]. unfold exactStep at 2. cbn [snd].
  destruct (1 <? Z.of_nat (length ids))%Z; apply IH; [|done].
  apply elem_of_app. by left.
Qed.

Lemma exactStep_fold_complete e fps entries : forall groups n k ids,
  (k, ids) ∈ entries -> (1 < length ids)%nat ->
  exists n', exactGroup fps n' ids ∈ (foldl (exactStep e fps) (groups, n) entries).1.
Proof.
  induction entries as [|[k0 ids0] entries IH]; intros groups n k ids Hin Hlen.
  - by apply elem_of_nil in Hin.
  - cbn [foldl]. apply elem_of_cons in Hin as [Heq|Hin].
    + injection Heq as <- <-. unfold exactStep at 2. cbn [snd].
      destruct (Z.ltb_spec 1 (Z.of_nat (length ids))) as [_|?]; [|lia].
      exists n. apply exactStep_fold_mono. apply elem_of_app. right.
      apply list_elem_of_here.
    + destruct (exactStep e fps (groups, n) (k0, ids0)) as [groups' n0]. by eapply IH.
Qed.

Lemma idsWithDigest_elem fps k id :
  id ∈ idsWithDigest fps k <-> exists fp, fp ∈ fps /\ ID fp = id /\ SHA256 (Metadata fp) = k.
Proof.
  unfold idsWithDigest. rewrite list_elem_of_fmap. split.
  - intros (fp & -> & Hin). apply list_elem_of_filter in Hin as [? ?]. by exists fp.
  - intros (fp & Hin & <- & Hk). exists fp. split; [done|]. by apply list_elem_of_filter.
Qed.

Lemma idsWithDigest_NoDup fps k :
  NoDup (ID <$> fps) -> NoDup (idsWithDigest fps k).
Proof.
  intros Hnd. eapply sublist_NoDup; [exact Hnd|].
  apply fmap_sublist, sublist_filter.
Qed.

Lemma exactGroup_ids fps n ids :
  NoDup ids -> ids <> [] -> group_ids (exactGroup fps n ids) ≡ₚ ids.
Proof.
  intros Hnd Hne. unfold group_ids, exactGroup. cbn [MainImage DuplicateIDs].
  apply removeElement_perm; [done|]. by apply selectBestImage_elem.
Qed.

Lemma removeElement_not_elem (l : list ImageID) (x : ImageID) : x ∉ removeElement l x.
Proof. unfold removeElement. rewrite list_elem_of_filter. tauto. Qed.

Lemma removeElement_NoDup (l : list ImageID) (x : ImageID) :
  NoDup l -> NoDup (removeElement l x).
Proof. apply NoDup_filter. Qed.

Lemma removeElement_nonempty (l : list ImageID) (x : ImageID) :
  NoDup l -> x ∈ l -> (1 < length l)%nat -> removeElement l x <> [].
Proof.
  intros Hnd Hin Hlen E. pose proof (removeElement_perm l x Hnd Hin) as Hp.
  rewrite E in Hp. apply Permutation_length in Hp. cbn in Hp. lia.
Qed.

(** X19.  In every state of the index the groups of [FindExactDuplicates]
    are the digests that at least two stored records share: each group has
    reason [exact] and confidence 1, at least one duplicate, a main image
    that is not among the duplicates, and its ids are exactly the stored ids
    with one digest; and every two stored records with different ids and the
    same digest are together in one group. *)
Theorem X19_exact_groups_are_shared_digests e :
  Index.reachable (index e) ->
  (forall g, g ∈ FindExactDuplicates e ->
     Reason g = "exact" /\ Confidence g = 1%Q /\
     DuplicateIDs g <> [] /\ NoDup (group_ids g) /\
     exists digest, forall id,
       id ∈ group_ids g <->
       exists fp, Index.GetFingerprint id (index e) = Some fp /\
                  SHA256 (Metadata fp) = digest) /\
  (forall fp1 fp2,
     Index.GetFingerprint (ID fp1) (index e) = Some fp1 ->
     Index.GetFingerprint (ID fp2) (index e) = Some fp2 ->
     ID fp1 <> ID fp2 -> SHA256 (Metadata fp1) = SHA256 (Metadata fp2) ->
     exists g, g ∈ FindExactDuplicates e /\ ID fp1 ∈ group_ids g /\ ID fp2 ∈ group_ids g).
Proof.
  intros Hr. pose proof (reachable_keyedById _ Hr) as Hkey.
  pose proof (GetAllFingerprints_NoDup _ Hkey) as Hnd.
  assert (Hall : forall fp, fp ∈ Index.GetAllFingerprints (index e)
                   <-> Index.GetFingerprint (ID fp) (index e) = Some fp)
    by (intros fp; by apply GetAllFingerprints_elem).
  set (fps := Index.GetAllFingerprints (index e)) in *.
  assert (Hstored : forall k id,
    id ∈ idsWithDigest fps k <->
    exists fp, Index.GetFingerprint id (index e) = Some fp /\ SHA256 (Metadata fp) = k).
  { intros k id. rewrite idsWithDigest_elem. split.
    - intros (fp & Hin & <- & Hk). exists fp. split; [by apply Hall|done].
    - intros (fp & Hg & Hk). exists fp. pose proof (Hkey _ _ Hg) as Hid.
      split; [apply Hall; by rewrite Hid|done]. }
  assert (Hentry : forall k ids, (k, ids) ∈ map_to_list (buildHashGroups fps) ->
                                 ids = idsWithDigest fps k).
  { intros k ids Hin. apply elem_of_map_to_list in Hin.
    rewrite buildHashGroups_lookup in Hin. destruct (idsWithDigest fps k); congruence. }
  split.
  - intros g Hg. unfold FindExactDuplicates in Hg. fold fps in Hg.
    apply exactStep_fold_sound in Hg as [Hg|(k & ids & n' & Hin & Hlen & ->)];
      [by apply elem_of_nil in Hg|].
    pose proof (Hentry _ _ Hin) as ->.
    pose proof (idsWithDigest_NoDup fps k Hnd) as Hndk.
    assert (Hne : idsWithDigest fps k <> []) by (intros E; rewrite E in Hlen; cbn in Hlen; lia).
    pose proof (exactGroup_ids fps n' _ Hndk Hne) as Hperm.
    split; [done|]. split; [done|]. split.
    { cbn [exactGroup DuplicateIDs]. apply removeElement_nonempty; [done| |done].
      by apply selectBestImage_elem. }
    split; [by rewrite Hperm|].
    exists k. intros id. rewrite Hperm. apply Hstored.
  - intros fp1 fp2 H1 H2 Hne Hsha.
    set (k := SHA256 (Metadata fp1)).
    assert (Hi1 : ID fp1 ∈ idsWithDigest fps k) by (apply Hstored; by exists fp1).
    assert (Hi2 : ID fp2 ∈ idsWithDigest fps k) by (apply Hstored; by exists fp2).
    pose proof (idsWithDigest_NoDup fps k Hnd) as Hndk.
    assert (Hlen : (1 < length (idsWithDigest fps k))%nat).
    { destruct (idsWithDigest fps k) as [|a [|b l]]; cbn; [|exfalso|lia].
      - by apply elem_of_nil in Hi1.
      - apply list_elem_of_singleton in Hi1, Hi2. congruence. }
    assert (Hin : (k, idsWithDigest fps k) ∈ map_to_list (buildHashGroups fps)).
    { apply elem_of_map_to_list. rewrite buildHashGroups_lookup.
      destruct (idsWithDigest fps k); [cbn in Hlen; lia|done]. }
    destruct (exactStep_fold_complete e fps _ [] 0%Z _ _ Hin Hlen) as [n' Hg].
    exists (exactGroup fps n' (idsWithDigest fps k)). split; [exact Hg|].
    assert (Hne' : idsWithDigest fps k <> []) by (intros E; rewrite E in Hlen; cbn in Hlen; lia).
    rewrite (exactGroup_ids fps n' _ Hndk Hne'). done.
Qed.

Lemma X19_exact_groups_are_shared_digests_witness :
  Index.reachable (index sampleEngine) /\
  (forall g, g ∈ FindExactDuplicates sampleEngine ->
     Reason g = "exact" /\ Confidence g = 1%Q /\
     DuplicateIDs g <> [] /\ NoDup (group_ids g) /\
     exists digest, forall id,
       id ∈ group_ids g <->
       exists fp, Index.GetFingerprint id (index sampleEngine) = Some fp /\
                  SHA256 (Metadata fp) = digest).
Proof.
  split; [exact sampleEngine_reachable|].
  exact (proj1 (X19_exact_groups_are_shared_digests sampleEngine sampleEngine_reachable)).
Defined.

Lemma Qsum_bounds (l : list Q) :
  (forall x, x ∈ l -> 0 <= x <= 1) -> 0 <= Qsum l <= F64.ofZ (Z.of_nat (length l)).
Proof.
  induction l as [|x l IH]; intros Hl.
  - change (Qsum []) with 0. change (F64.ofZ (Z.of_nat (length (@nil Q)))) with 0. lra.
  - destruct IH as [IH1 IH2]; [intros y Hy; apply Hl; by apply list_elem_of_further|].
    destruct (Hl x) as [Hx1 Hx2]; [apply list_elem_of_here|].
    change (Qsum (x :: l)) with (x + Qsum l). rewrite length_cons, Nat2Z.inj_succ.
    unfold F64.ofZ, Z.succ in *. rewrite inject_Z_plus. change (inject_Z 1) with 1. lra.
Qed.

Lemma meanPairwiseSimilarity_range c members :
  (1 < length members)%nat -> 0 <= meanPairwiseSimilarity c members <= 1.
Proof.
  intros Hlen. unfold meanPairwiseSimilarity.
  set (sims := (fun p => (CompareFingerprints c p.1 p.2).1) <$> unorderedPairs members).
  assert (Hn : length sims = length (unorderedPairs members)) by apply length_fmap.
  rewrite <- Hn.
  destruct (Qsum_bounds sims) as [H1 H2].
  { intros x Hx. apply list_elem_of_fmap in Hx as (p & -> & _).
    apply CompareFingerprints_range. }
  assert (Hpos : 0 < F64.ofZ (Z.of_nat (length sims))).
  { pose proof (unorderedPairs_nonempty members Hlen) as Hp. rewrite <- Hn in Hp.
    unfold F64.ofZ. change 0 with (inject_Z 0). rewrite <- Zlt_Qlt. lia. }
  split.
  - apply Qle_shift_div_l; [done|]. lra.
  - apply Qle_shift_div_r; [done|]. lra.
Qed.

(** X20.  Every group of [FindNearDuplicates] has reason [near], at least
    one duplicate, no id twice (the main image is not among the duplicates),
    only ids of stored records, and a confidence between 0 and 1. *)
Theorem X20_near_group_shape e threshold g :
  g ∈ FindNearDuplicates e threshold ->
  Reason g = "near" /\ DuplicateIDs g <> [] /\ NoDup (group_ids g) /\
  (forall id, id ∈ group_ids g ->
     exists fp, fp ∈ Index.GetAllFingerprints (index e) /\ ID fp = id) /\
  0 <= Confidence g <= 1.
Proof.
  intros Hg. set (fps := Index.GetAllFingerprints (index e)).
  unfold FindNearDuplicates in Hg. fold fps in Hg.
  apply nearLoop_groups in Hg as [Hg|(si & gid & Hsi & Hlen & Hids & ->)];
    [by apply elem_of_nil in Hg|].
  assert (Hmain : selectBestImage si fps PolicyHighestQuality ∈ si).
  { apply selectBestImage_elem. intros ->. cbn in Hlen. lia. }
  pose proof (removeElement_perm si _ Hsi Hmain) as Hperm.
  split; [done|]. split; [by apply removeElement_nonempty|].
  unfold group_ids, nearGroup. cbn [MainImage DuplicateIDs Confidence].
  split; [by rewrite Hperm|]. split.
  - intros id Hid. rewrite Hperm in Hid. apply Hids, list_elem_of_fmap in Hid as (fp & -> & ?).
    by exists fp.
  - destruct (fmap_fpOf_ids fps si Hids) as (_ & _ & Hpres).
    rewrite (calculateGroupConfidence_mean e si fps Hlen Hpres).
    apply meanPairwiseSimilarity_range. by rewrite length_fmap.
Qed.

Lemma X20_near_group_shape_witness :
  sampleNearGroup ∈ FindNearDuplicates sampleEngine (8 # 10) /\
  Reason sampleNearGroup = "near" /\ DuplicateIDs sampleNearGroup <> [] /\
  NoDup (group_ids sampleNearGroup) /\
  (forall id, id ∈ group_ids sampleNearGroup ->
     exists fp, fp ∈ Index.GetAllFingerprints (index sampleEngine) /\ ID fp = id) /\
  0 <= Confidence sampleNearGroup <= 1.
Proof.
  split; [exact sampleNearGroup_emitted|].
  exact (X20_near_group_shape sampleEngine (8 # 10) sampleNearGroup
           sampleNearGroup_emitted).
Defined.

End EngineGroupFacts.

(** ** The hash kernels of the engine, bit by bit *)

Section KernelFacts.

Import EngineHash.

Lemma bind_singleton_fmap {A B} (f : A -> B) (l : list A) :
  (l ≫= fun x => [f x]) = f <$> l.
Proof. induction l as [|x l IH]; [done|]. rewrite bind_cons, IH. done. Qed.

Lemma grid_cons y ys xs :
  grid (y :: ys) xs = ((fun x => (x, y)) <$> xs) ++ grid ys xs.
Proof. unfold grid. by rewrite bind_cons, bind_singleton_fmap. Qed.

(** The [i]-th position of a scan of [w] columns and [h] rows. *)
Lemma grid_lookup (n : nat) : forall (x0 y0 w : Z) (i : nat),
  0 < w ->
  grid (seqZ y0 (Z.of_nat n)) (seqZ x0 w) !! i =
  if Z.of_nat i <? w * Z.of_nat n
  then Some (x0 + Z.of_nat i mod w, y0 + Z.of_nat i / w) else None.
Proof.
  induction n as [|n IH]; intros x0 y0 w i Hw.
  - cbn. rewrite Z.mul_0_r. destruct (Z.ltb_spec (Z.of_nat i) 0); [lia|done].
  - rewrite seqZ_cons by lia. rewrite grid_cons, lookup_app.
    replace (Z.pred (Z.of_nat (S n))) with (Z.of_nat n) by lia.
    rewrite list_lookup_fmap, length_fmap, length_seqZ.
    destruct (Z.ltb_spec (Z.of_nat i) w) as [Hi|Hi].
    + rewrite lookup_seqZ_lt by done. cbn.
      destruct (Z.ltb_spec (Z.of_nat i) (w * Z.of_nat (S n))); [|nia].
      rewrite Z.mod_small, Z.div_small by lia. f_equal. f_equal; lia.
    + rewrite lookup_seqZ_ge by done. cbn. rewrite IH by done.
      replace (Z.of_nat (i - Z.to_nat w)) with (Z.of_nat i - w) by lia.
      destruct (Z.ltb_spec (Z.of_nat i - w) (w * Z.of_nat n)),
               (Z.ltb_spec (Z.of_nat i) (w * Z.of_nat (S n))); try nia; [|done].
      f_equal. f_equal.
      * f_equal. replace (Z.of_nat i - w) with (Z.of_nat i + (-1) * w) by lia.
        by rewrite Z.mod_add by lia.
      * replace (Z.of_nat i - w) with (Z.of_nat i + (-1) * w) by lia.
        rewrite Z.div_add by lia. unfold Z.succ. lia.
Qed.

Lemma grid_range_lookup (x0 x1 y0 y1 : Z) (i : nat) :
  x0 < x1 -> y0 <= y1 ->
  grid (range y0 y1) (range x0 x1) !! i =
  if Z.of_nat i <? (x1 - x0) * (y1 - y0)
  then Some (x0 + Z.of_nat i mod (x1 - x0), y0 + Z.of_nat i / (x1 - x0)) else None.
Proof.
  intros Hx Hy. unfold range.
  replace (y1 - y0) with (Z.of_nat (Z.to_nat (y1 - y0))) by lia.
  apply grid_lookup. lia.
Qed.

(** [hash |= 1 << b] sets bit [b] when [b] is below 64 and nothing otherwise. *)
Lemma setBit_testbit_any (h b k : Z) :
  0 <= b -> 0 <= k ->
  Z.testbit (setBit h b) k = Z.testbit h k || ((b =? k) && (b <? 64)).
Proof.
  intros Hb Hk. unfold setBit. rewrite Z.lor_spec, Z.shiftl_1_l.
  rewrite Z.testbit_mod_pow2 by lia. rewrite Z.pow2_bits_eqb by lia.
  f_equal. destruct (Z.eqb_spec b k) as [->|?]; [|by rewrite andb_false_r].
  by rewrite andb_true_r.
Qed.

Lemma bitStep_fold {A} (test : A -> bool) (pos : Z -> Z) (l : list A) :
  (forall i, 0 <= i -> 0 <= pos i) ->
  forall (h i0 k : Z), 0 <= i0 -> 0 <= k ->
  Z.testbit (foldl (bitStep test pos) (h, i0) l).1 k = true <->
  Z.testbit h k = true \/
  exists (j : nat) (x : A),
    l !! j = Some x /\ test x = true /\ pos (i0 + Z.of_nat j) = k /\ k < 64.
Proof.
  intros Hpos. induction l as [|x l IH]; intros h i0 k Hi Hk.
  - cbn. split; [by left|]. intros [?|(j & y & Hj & _)]; [done|]. by destruct j.
  - cbn [foldl]. unfold bitStep at 2. rewrite IH by lia. split.
    + intros [Hh|(j & y & Hj & Ht & Hp & Hk64)].
      * destruct (test x) eqn:Ex; [|by left].
        rewrite setBit_testbit_any in Hh by (try apply Hpos; lia).
        apply orb_true_iff in Hh as [?|Hh]; [by left|].
        apply andb_true_iff in Hh as [He Hl]. apply Z.eqb_eq in He. apply Z.ltb_lt in Hl.
        right. exists 0%nat, x. rewrite Z.add_0_r. split; [done|]. split; [done|]. lia.
      * right. exists (S j), y. split; [done|]. split; [done|].
        split; [|done]. rewrite <- Hp. f_equal. lia.
    + intros [Hh|(j & y & Hj & Ht & Hp & Hk64)].
      * left. destruct (test x); [|done].
        rewrite setBit_testbit_any by (try apply Hpos; lia). by rewrite Hh.
      * destruct j as [|j].
        -- cbn in Hj. injection Hj as ->. rewrite Ht. left.
           rewrite setBit_testbit_any by (try apply Hpos; lia).
           rewrite Z.add_0_r in Hp. rewrite Hp, Z.eqb_refl.
           destruct (Z.ltb_spec k 64); [|lia]. by rewrite orb_true_r.
        -- right. exists j, y. split; [done|]. split; [done|].
           split; [|done]. rewrite <- Hp. f_equal. lia.
Qed.

Lemma bind_grid {B} (f : Z -> Z -> B) (ys xs : list Z) :
  (y ← ys; x ← xs; [f x y]) = (fun p => f p.1 p.2) <$> grid ys xs.
Proof.
  induction ys as [|y ys IH]; [done|].
  rewrite bind_cons, IH, grid_cons, fmap_app, bind_singleton_fmap, <- list_fmap_compose.
  done.
Qed.

Lemma foldl_step_ext {A B} (f g : A -> B -> A) (l : list B) :
  (forall a b, f a b = g a b) -> forall a, foldl f a l = foldl g a l.
Proof. intros H. induction l as [|b l IH]; intros a; [done|]. cbn. by rewrite H, IH. Qed.

Lemma computeAHash_unfold (gray : Image) :
  computeAHash gray =
  if Z.of_nat (length (ahashPixels gray)) =? 0 then None
  else Some (foldl (bitStep (fun pixel => ahashMean gray <? pixel) id) (0, 0)
                   (ahashPixels gray)).1.
Proof.
  unfold computeAHash, ahashMean, ahashPixels, lum.
  rewrite (bind_grid (fun x y => (cr (At gray x y) + cg (At gray x y) + cb (At gray x y)) / 3)).
  destruct (_ =? 0); [reflexivity|]. apply (f_equal Some), (f_equal fst).
  apply foldl_step_ext. intros [hash i] pixel. reflexivity.
Qed.

Lemma length_grid_range' (x0 x1 y0 y1 : Z) :
  x0 <= x1 -> y0 <= y1 ->
  Z.of_nat (length (grid (range y0 y1) (range x0 x1))) = (x1 - x0) * (y1 - y0).
Proof. intros. rewrite length_grid_range by done. ring. Qed.

(** X21.  [computeAHash] panics on an image without pixels. Otherwise bit
    [k] of the hash is set exactly when [k] is below 64, the image has a
    [k]-th pixel in row-major order, and that pixel is brighter than the
    integer mean of all pixels. *)
Theorem X21_engine_ahash_bits (gray : Image) :
  (Dx gray <= 0 \/ Dy gray <= 0 -> computeAHash gray = None) /\
  (0 < Dx gray -> 0 < Dy gray ->
   exists hash, computeAHash gray = Some hash /\
     forall k, 0 <= k ->
       (Z.testbit hash k = true <->
        k < 64 /\ k < Dx gray * Dy gray /\
        ahashMean gray < lum gray (MinX gray + k mod Dx gray) (MinY gray + k / Dx gray))).
Proof.
  rewrite computeAHash_unfold. unfold Dx, Dy. split.
  - intros Hd. unfold ahashPixels, range. rewrite length_fmap, length_grid, !length_seqZ.
    destruct (Z.eqb_spec (Z.of_nat (Z.to_nat (MaxY gray - MinY gray)
                                    * Z.to_nat (MaxX gray - MinX gray))) 0); [done|nia].
  - intros Hx Hy.
    assert (Hlen : Z.of_nat (length (ahashPixels gray))
                   = (MaxX gray - MinX gray) * (MaxY gray - MinY gray)).
    { unfold ahashPixels. rewrite length_fmap. apply length_grid_range'; lia. }
    destruct (Z.eqb_spec (Z.of_nat (length (ahashPixels gray))) 0); [nia|].
    eexists. split; [done|]. intros k Hk.
    rewrite (bitStep_fold _ id) by (unfold id; lia).
    rewrite Z.bits_0. split.
    + intros [?|(j & x & Hj & Ht & Hp & Hk64)]; [done|].
      unfold id in Hp. assert (k = Z.of_nat j) as -> by lia.
      unfold ahashPixels in Hj. rewrite list_lookup_fmap, grid_range_lookup in Hj by lia.
      destruct (Z.ltb_spec (Z.of_nat j) ((MaxX gray - MinX gray) * (MaxY gray - MinY gray)));
        [|done].
      cbn in Hj. injection Hj as <-. apply Z.ltb_lt in Ht. done.
    + intros (Hk64 & Hkn & Hb). right.
      exists (Z.to_nat k), (lum gray (MinX gray + k mod (MaxX gray - MinX gray))
                                     (MinY gray + k / (MaxX gray - MinX gray))).
      split.
      * unfold ahashPixels. rewrite list_lookup_fmap, grid_range_lookup by lia.
        rewrite Z2Nat.id by done.
        destruct (Z.ltb_spec k ((MaxX gray - MinX gray) * (MaxY gray - MinY gray))); [done|lia].
      * split; [by apply Z.ltb_lt|]. unfold id. split; [lia|done].
Qed.

Local Open Scope Q_scope.



Local Close Scope Q_scope.

Lemma dhashStep_fold (gray : Image) (l : list (Z * Z)) :
  forall (h b k : Z), 0 <= b -> 0 <= k ->
  Z.testbit (foldl (dhashStep gray) (h, b) l).1 k = true <->
  Z.testbit h k = true \/
  exists (j : nat) (p : Z * Z),
    l !! j = Some p /\ lum gray p.1 p.2 < lum gray (p.1 + 1) p.2 /\
    b + Z.of_nat j = k /\ k < 64.
Proof.
  induction l as [|[x y] l IH]; intros h b k Hb Hk.
  - cbn. split; [by left|]. intros [?|(j & p & Hj & _)]; [done|]. by destruct j.
  - cbn [foldl]. unfold dhashStep at 2. destruct (Z.leb_spec 64 b) as [Hfull|Hroom].
    + rewrite IH by lia. split.
      * intros [?|(j & p & Hj & _ & ? & ?)]; [by left|lia].
      * intros [?|(j & p & Hj & _ & ? & ?)]; [by left|lia].
    + rewrite IH by lia. fold (lum gray x y). fold (lum gray (x + 1) y). split.
      * intros [Hh|(j & p & Hj & Ht & Hp & Hk64)].
        -- destruct (Z.ltb_spec (lum gray x y) (lum gray (x + 1) y)) as [Hlt|]; [|by left].
           rewrite setBit_testbit_any in Hh by lia.
           apply orb_true_iff in Hh as [?|Hh]; [by left|].
           apply andb_true_iff in Hh as [He Hl]. apply Z.eqb_eq in He.
           right. exists 0%nat, (x, y). split; [done|]. split; [done|]. lia.
        -- right. exists (S j), p. split; [done|]. split; [done|]. lia.
      * intros [Hh|(j & p & Hj & Ht & Hp & Hk64)].
        -- left. destruct (lum gray x y <? lum gray (x + 1) y); [|done].
           rewrite setBit_testbit_any by lia. by rewrite Hh.
        -- destruct j as [|j].
           ++ cbn in Hj. injection Hj as <-. cbn [fst snd] in Ht.
              destruct (Z.ltb_spec (lum gray x y) (lum gray (x + 1) y)); [|lia]. left.
              rewrite setBit_testbit_any by lia.
              assert (b = k) as -> by lia. rewrite Z.eqb_refl.
              destruct (Z.ltb_spec k 64); [|lia]. by rewrite orb_true_r.
           ++ right. exists j, p. split; [done|]. split; [done|]. lia.
Qed.

(** X23.  Bit [k] of the d-hash is set exactly when [k] is below 64, the
    scan of the image without its last column has a [k]-th pixel in
    row-major order, and the right neighbour of that pixel is brighter than
    the pixel. The hash of an image of at most one column is 0. *)
Theorem X23_engine_dhash_bits (gray : Image) :
  (Dx gray <= 1 \/ Dy gray <= 0 -> computeDHash gray = 0) /\
  (1 < Dx gray -> 0 < Dy gray ->
   forall k, 0 <= k ->
     (Z.testbit (computeDHash gray) k = true <->
      k < 64 /\ k < (Dx gray - 1) * Dy gray /\
      lum gray (MinX gray + k mod (Dx gray - 1)) (MinY gray + k / (Dx gray - 1))
      < lum gray (MinX gray + k mod (Dx gray - 1) + 1) (MinY gray + k / (Dx gray - 1)))).
Proof.
  unfold computeDHash, Dx, Dy. split.
  - intros Hd.
    assert (E : grid (range (MinY gray) (MaxY gray)) (range (MinX gray) (MaxX gray - 1)) = []).
    { apply length_zero_iff_nil. unfold range. rewrite length_grid, !length_seqZ. nia. }
    by rewrite E.
  - intros Hx Hy k Hk. rewrite dhashStep_fold by lia. rewrite Z.bits_0.
    replace (MaxX gray - MinX gray - 1) with (MaxX gray - 1 - MinX gray) by lia.
    split.
    + intros [?|(j & p & Hj & Ht & Hp & Hk64)]; [done|].
      rewrite grid_range_lookup in Hj by lia.
      destruct (Z.ltb_spec (Z.of_nat j) ((MaxX gray - 1 - MinX gray) * (MaxY gray - MinY gray)));
        [|done].
      injection Hj as <-. cbn [fst snd] in Ht. assert (k = Z.of_nat j) as -> by lia. done.
    + intros (Hk64 & Hkn & Hb). right.
      exists (Z.to_nat k), (MinX gray + k mod (MaxX gray - 1 - MinX gray),
                            MinY gray + k / (MaxX gray - 1 - MinX gray)).
      rewrite grid_range_lookup by lia. rewrite Z2Nat.id by done.
      destruct (Z.ltb_spec k ((MaxX gray - 1 - MinX gray) * (MaxY gray - MinY gray))); [|lia].
      split; [done|]. split; [done|]. lia.
Qed.

End KernelFacts.

(** ** The stand-alone p-hash and w-hash, bit by bit *)

Section BlockHashFacts.

Import EngineHash Perceptual.

(** The bits of a hash packed from the 63 entries of the 8 x 8 block
    besides (0,0). *)
Lemma packed_block_bits (f : Z * Z -> Q) :
  let coeffs := f <$> blockCoords 8 in
  let mean := (foldl Qplus 0%Q coeffs / 63)%Q in
  (forall y x, 0 <= y < 8 -> 0 <= x < 8 -> (y, x) <> (0, 0) ->
     Z.testbit (packBits coeffs mean) (8 * y + x - 1) = F64.gtb (f (y, x)) mean) /\
  (forall k, 63 <= k -> Z.testbit (packBits coeffs mean) k = false).
Proof.
  intros coeffs mean.
  assert (Hlen : length coeffs = 63%nat).
  { unfold coeffs. rewrite length_fmap. by vm_compute. }
  split.
  - intros y x Hy Hx Hne.
    assert (Hk : 0 <= 8 * y + x - 1 < 63).
    { assert (y <> 0 \/ x <> 0) as [|].
      { destruct (decide (y = 0)) as [->|]; [right; intros ->; by apply Hne|by left]. }
      all: lia. }
    rewrite packBits_bits by (rewrite ?Hlen; lia). rewrite Hlen.
    destruct (Z.ltb_spec (8 * y + x - 1) (Z.of_nat 63)); [|lia].
    unfold coeffs.
    rewrite (nth_indep _ _ (f (0, 0)))
      by (rewrite length_fmap; change (length (blockCoords 8)) with 63%nat; lia).
    transitivity (F64.gtb (f (nth (Z.to_nat (8 * y + x - 1)) (blockCoords 8) (0, 0))) mean).
    { apply (f_equal (fun v => F64.gtb v mean)).
      exact (map_nth f (blockCoords 8) (0, 0) (Z.to_nat (8 * y + x - 1))). }
    rewrite blockCoords_8_nth by lia.
    replace ((8 * y + x - 1 + 1) / 8) with y by (apply Z.div_unique with x; lia).
    replace ((8 * y + x - 1 + 1) mod 8) with x by (apply Z.mod_unique with y; lia).
    done.
  - intros k Hk. rewrite packBits_bits by (rewrite ?Hlen; lia). rewrite Hlen.
    destruct (Z.ltb_spec k (Z.of_nat 63)); [lia|done].
Qed.

(** X24.  The stand-alone [PHash.Compute] with an 8 x 8 block stores the
    comparison of the DCT coefficient in row [y] and column [x] with the
    mean of the 63 coefficients besides (0,0) at bit [8 y + x - 1];
    [WHash.Compute] does the same with the absolute values of the
    transformed matrix; both leave bit 63 and all higher bits 0. *)
Theorem X24_block_hash_bits (Cos : Q -> Q) (Pi : Q) (resized : Image) :
  (forall y x, 0 <= y < 8 -> 0 <= x < 8 -> (y, x) <> (0, 0) ->
     Z.testbit (PHashCompute Cos Pi 8 resized) (8 * y + x - 1)
     = F64.gtb (at2 (applyDCT Cos Pi resized) y x) (blockMean (applyDCT Cos Pi resized))) /\
  (forall y x, 0 <= y < 8 -> 0 <= x < 8 -> (y, x) <> (0, 0) ->
     Z.testbit (WHashCompute resized) (8 * y + x - 1)
     = F64.gtb (Qabs (at2 (haarWavelet resized) y x)) (absBlockMean (haarWavelet resized))) /\
  (forall k, 63 <= k ->
     Z.testbit (PHashCompute Cos Pi 8 resized) k = false /\
     Z.testbit (WHashCompute resized) k = false).
Proof.
  pose proof (packed_block_bits (fun p => at2 (applyDCT Cos Pi resized) p.1 p.2)) as [P1 P2].
  pose proof (packed_block_bits (fun p => Qabs (at2 (haarWavelet resized) p.1 p.2))) as [W1 W2].
  split; [exact P1|]. split; [exact W1|].
  intros k Hk. split; [exact (P2 k Hk)|exact (W2 k Hk)].
Qed.

End BlockHashFacts.

(** ** The analyzer and the score calculator: ranges and edge cases *)

Section QualityRanges.

Import Quality.

Local Open Scope Q_scope.

Lemma clamp_range (lo hi x : Q) : lo <= hi -> lo <= F64.Max lo (F64.Min hi x) <= hi.
Proof.
  intros H.
  destruct (Min_spec hi x) as [[? ->]|[? ->]];
    [destruct (Max_spec lo x) as [[? ->]|[? ->]]
    |destruct (Max_spec lo hi) as [[? ->]|[? ->]]]; lra.
Qed.

Lemma clamp_id (lo hi x : Q) : lo <= x <= hi -> F64.Max lo (F64.Min hi x) == x.
Proof.
  intros H.
  destruct (Min_spec hi x) as [[? ->]|[? ->]];
    [destruct (Max_spec lo x) as [[? ->]|[? ->]]
    |destruct (Max_spec lo hi) as [[? ->]|[? ->]]]; lra.
Qed.

(** The helpers of score_calculator.go return what [math.Abs], [math.Max]
    and [math.Min] return. *)
Lemma abs_Qabs (x : Q) : abs x == Qabs x.
Proof.
  unfold abs. destruct (F64.ltb x 0) eqn:E.
  - apply ltb_lt in E. rewrite Qabs_neg by lra. reflexivity.
  - apply ltb_ge in E. rewrite Qabs_pos by lra. reflexivity.
Qed.

Lemma max_Max (a b : Q) : max a b == F64.Max a b.
Proof.
  unfold max. destruct (F64.gtb a b) eqn:E.
  - apply gtb_gt in E. destruct (Max_spec a b) as [[? ->]|[? ->]]; lra.
  - apply gtb_le in E. destruct (Max_spec a b) as [[? ->]|[? ->]]; lra.
Qed.

Lemma min_Min (a b : Q) : min a b == F64.Min a b.
Proof.
  unfold min. destruct (F64.ltb a b) eqn:E.
  - apply ltb_lt in E. destruct (Min_spec a b) as [[? ->]|[? ->]]; lra.
  - apply ltb_ge in E. destruct (Min_spec a b) as [[? ->]|[? ->]]; lra.
Qed.

Ltac analyzer_weights :=
  change (weight analyzerWeights "sharpness") with (3 # 10);
  change (weight analyzerWeights "noise") with (25 # 100);
  change (weight analyzerWeights "exposure") with (2 # 10);
  change (weight analyzerWeights "contrast") with (15 # 100);
  change (weight analyzerWeights "compression") with (5 # 100);
  change (weight analyzerWeights "color_cast") with (5 # 100).

(** X25.  The composite score lies between 0 and 100 whatever the metrics
    are; for metrics between 0 and 1 the clamp is idle and the score is 100
    times the weighted sum. *)
Theorem X25_final_score_range (q : ImageQuality) :
  0 <= calculateFinalScore q <= 100 /\
  (0 <= Sharpness q <= 1 -> 0 <= Noise q <= 1 -> 0 <= Exposure q <= 1 ->
   0 <= Contrast q <= 1 -> 0 <= Compression q <= 1 -> 0 <= ColorCast q <= 1 ->
   calculateFinalScore q ==
   (Sharpness q * (3 # 10) + (1 - Noise q) * (25 # 100)
    + (1 - Qabs (Exposure q - (5 # 10)) * 2) * (2 # 10) + Contrast q * (15 # 100)
    + (1 - Compression q) * (5 # 100) + (1 - ColorCast q) * (5 # 100)) * 100).
Proof.
  unfold calculateFinalScore, weightedScore. analyzer_weights.
  split; [apply clamp_range; lra|].
  intros H1 H2 H3 H4 H5 H6. apply clamp_id.
  assert (Ha : 0 <= Qabs (Exposure q - (5 # 10)) <= 5 # 10).
  { split; [apply Qabs_nonneg|]. apply Qabs_Qle_condition. lra. }
  lra.
Qed.

(** X26.  For every weight table the final score of the calculator is, in
    exact arithmetic, the weighted sum of the sub-scores that
    [CalculateSubscores] returns, clamped to the range from 0 to 100 by the
    helpers [max] and [min] of the file. *)
Theorem X26_final_score_from_subscores (sc : ScoreCalculator) (q : ImageQuality) :
  CalculateFinalScore sc q ==
  max 0 (min 100
    (foldr (fun name total =>
              weight (weights sc) name * weight (CalculateSubscores sc q) name + total)
           0 metricNames)).
Proof.
  etransitivity; [|symmetry; etransitivity;
                    [apply max_Max|apply Max_compat; [reflexivity|apply min_Min]]].
  unfold CalculateFinalScore, weightedScore.
  apply Max_compat; [reflexivity|]. apply Min_compat; [reflexivity|].
  unfold metricNames. cbn [foldr].
  change (weight (CalculateSubscores sc q) "sharpness") with (Sharpness q * 100).
  change (weight (CalculateSubscores sc q) "noise") with ((1 - Noise q) * 100).
  change (weight (CalculateSubscores sc q) "exposure")
    with ((1 - abs (Exposure q - (5 # 10)) * 2) * 100).
  change (weight (CalculateSubscores sc q) "contrast") with (Contrast q * 100).
  change (weight (CalculateSubscores sc q) "compression") with ((1 - Compression q) * 100).
  change (weight (CalculateSubscores sc q) "color_cast") with ((1 - ColorCast q) * 100).
  rewrite abs_Qabs. ring.
Qed.

Lemma ofZ_pos (n : Z) : (0 < n)%Z -> 0 < F64.ofZ n.
Proof. intros H. unfold F64.ofZ. change 0 with (inject_Z 0). by rewrite <- Zlt_Qlt. Qed.

Lemma ofZ_nonneg (n : Z) : (0 <= n)%Z -> 0 <= F64.ofZ n.
Proof. intros H. unfold F64.ofZ. change 0 with (inject_Z 0). by rewrite <- Zle_Qle. Qed.

Lemma Qdiv_nonneg (a b : Q) : 0 <= a -> 0 <= b -> 0 <= a / b.
Proof.
  intros Ha Hb. unfold Qdiv. apply Qmult_le_0_compat; [done|]. by apply Qinv_le_0_compat.
Qed.

Lemma Sqrt_nonneg (x : Q) : 0 <= Sqrt x.
Proof.
  unfold Sqrt. destruct (Qle_bool x 0); [lra|].
  apply Qdiv_nonneg; [|done].
  change 0 with (inject_Z 0). rewrite <- Zle_Qle. apply Z.sqrt_nonneg.
Qed.

Lemma Min_one_range (x : Q) : 0 <= x -> 0 <= F64.Min x 1 <= 1.
Proof. intros H. destruct (Min_spec x 1) as [[? ->]|[? ->]]; lra. Qed.

Lemma sharpnessStep_fold gray l : forall s n,
  0 <= s -> (0 <= n)%Z ->
  0 <= (foldl (sharpnessStep gray) (s, n) l).1 /\ (0 <= (foldl (sharpnessStep gray) (s, n) l).2)%Z.
Proof.
  induction l as [|[x y] l IH]; intros s n Hs Hn; [done|].
  cbn [foldl]. unfold sharpnessStep at 2 4. apply IH; [|lia].
  pose proof (Qabs_nonneg (4 * Y gray x y
                           - (Y gray x (y - 1) + Y gray x (y + 1) + Y gray (x - 1) y
                              + Y gray (x + 1) y))). lra.
Qed.

Lemma noiseStep_fold gray l : forall s n,
  0 <= s -> (0 <= n)%Z ->
  0 <= (foldl (noiseStep gray) (s, n) l).1 /\ (0 <= (foldl (noiseStep gray) (s, n) l).2)%Z.
Proof.
  induction l as [|[x y] l IH]; intros s n Hs Hn; [done|].
  cbn [foldl]. unfold noiseStep at 2 4.
  match goal with |- context [F64.ltb ?g 10] => destruct (F64.ltb g 10) end; [|by apply IH].
  apply IH; [|lia].
  match goal with |- context [Sqrt ?v] => pose proof (Sqrt_nonneg v) end. lra.
Qed.

(** X27.  Whatever the image, the analyzer returns sharpness, noise,
    exposure and contrast between 0 and 1, compression 0.1 or 0.3, a color
    cast that is not negative, and a final score between 0 and 100. *)
Theorem X27_analyze_ranges (img : Image) :
  let q := Analyze img in
  0 <= Sharpness q <= 1 /\ 0 <= Noise q <= 1 /\ 0 <= Exposure q <= 1 /\
  0 <= Contrast q <= 1 /\ (Compression q = 1 # 10 \/ Compression q = 3 # 10) /\
  0 <= ColorCast q /\ 0 <= FinalScore q <= 100.
Proof.
  cbv zeta. unfold Analyze, withFinalScore.
  cbn [Sharpness Noise Exposure Contrast Compression ColorCast FinalScore].
  split; [|split; [|split; [|split; [|split; [|split]]]]].
  - unfold analyzeSharpness. destruct (_ || _); [cbn; lra|].
    destruct (sharpnessStep_fold (toGray img) (interior (toGray img)) 0 0%Z) as [H1 H2];
      [lra|lia|].
    destruct (foldl _ _ _) as [sum count]. cbn [fst snd] in *.
    destruct (Z.eqb_spec count 0); [cbn; lra|]. cbn [fst].
    apply Min_one_range. apply Qdiv_nonneg; [|lra].
    apply Qdiv_nonneg; [done|]. apply ofZ_nonneg. lia.
  - unfold analyzeNoise. destruct (_ || _); [cbn; lra|].
    destruct (noiseStep_fold (toGray img) (interior (toGray img)) 0 0%Z) as [H1 H2];
      [lra|lia|].
    destruct (foldl _ _ _) as [noiseSum count]. cbn [fst snd] in *.
    destruct (Z.eqb_spec count 0); [cbn; lra|]. cbn [fst].
    apply Min_one_range. apply Qdiv_nonneg; [|lra].
    apply Qdiv_nonneg; [done|]. apply ofZ_nonneg. lia.
  - unfold analyzeExposure. destruct (_ =? _)%Z; [cbn; lra|].
    destruct (foldl _ _ _) as [[sum darkPixels] brightPixels]. cbn [fst].
    apply clamp_range. lra.
  - unfold analyzeContrast. destruct (_ =? _)%Z; [cbn; lra|].
    destruct (foldl _ _ _) as [sum sumSquares]. cbn [fst].
    apply Min_one_range. apply Qdiv_nonneg; [apply Sqrt_nonneg|lra].
  - unfold analyzeCompression. destruct (_ || _); [by left|by right].
  - unfold analyzeColorCast. destruct (_ =? _)%Z; [cbn; lra|].
    destruct (foldl _ _ _) as [[rSum gSum] bSum].
    destruct (F64.eqb _ 0); [cbn; lra|]. cbn [fst].
    apply Qdiv_nonneg; apply Sqrt_nonneg.
  - unfold calculateFinalScore, weightedScore. apply clamp_range. lra.
Qed.


End QualityRanges.

(** ** The analyzer on images of one colour and on gray images *)

Section UniformImages.
Import Quality.
Local Open Scope Q_scope.

Variables (w h : Z) (c : Color).

(** The gray level of every pixel of the uniform image of colour [c]. *)
Let L : Q := F64.ofZ (grayLevel c).
Let gray : Gray := toGray (constantImage w h c).

Lemma Y_uniform x y : Y gray x y = L.
Proof. reflexivity. Qed.

Lemma uniform_sharpnessStep s n p :
  sharpnessStep gray (s, n) p = (s + Qabs (4 * L - (L + L + L + L)), (n + 1)%Z).
Proof. destruct p as [x y]. unfold sharpnessStep. by rewrite !Y_uniform. Qed.

Lemma uniform_noiseStep s n p :
  noiseStep gray (s, n) p = (s + 0, (n + 1)%Z).
Proof.
  destruct p as [x y]. unfold noiseStep. rewrite !Y_uniform. cbn [foldl length].
  change (F64.ofZ (Z.of_nat 8)) with 8.
  set (mean := (0 + L + L + L + L + L + L + L + L) / 8).
  assert (Hm : mean == L) by (unfold mean; field).
  set (variance := _ / 8).
  assert (Hv : variance == 0) by (unfold variance; rewrite Hm; field).
  assert (Hg : F64.ltb (Qabs (L - mean)) 10 = true).
  { apply ltb_lt. rewrite Hm. setoid_replace (L - L) with 0 using relation Qeq by ring. done. }
  rewrite Hg, Sqrt_nonpositive by lra. done.
Qed.

Lemma uniform_contrastStep s q p :
  contrastStep gray (s, q) p = (s + L / 255, q + L / 255 * (L / 255)).
Proof. destruct p as [x y]. unfold contrastStep. by rewrite !Y_uniform. Qed.

Lemma uniform_exposureStep s d b p :
  (26 <= grayLevel c <= 229)%Z ->
  exposureStep gray (s, d, b) p = (s + L / 255, d, b).
Proof.
  intros Hl. destruct p as [x y]. unfold exposureStep. rewrite !Y_uniform.
  assert (H1 : F64.ltb (L / 255) (1 # 10) = false).
  { apply ltb_ge. apply Qle_shift_div_l; [done|]. unfold L, F64.ofZ, Qle. cbn. lia. }
  assert (H2 : F64.gtb (L / 255) (9 # 10) = false).
  { apply gtb_le. apply Qle_shift_div_r; [done|]. unfold L, F64.ofZ, Qle. cbn. lia. }
  by rewrite H1, H2.
Qed.

Lemma uniform_interior :
  (3 <= w)%Z -> (3 <= h)%Z ->
  Z.of_nat (length (interior gray)) = ((h - 2) * (w - 2))%Z.
Proof.
  intros Hw Hh.
  change (interior gray) with (grid (range (0 + 1) (h - 1)) (range (0 + 1) (w - 1))).
  rewrite length_grid_range by lia. ring.
Qed.

Lemma uniform_allPixels :
  (0 <= w)%Z -> (0 <= h)%Z ->
  Z.of_nat (length (allPixels gray)) = ((w - 0) * (h - 0))%Z.
Proof.
  intros Hw Hh. change (allPixels gray) with (grid (range 0 h) (range 0 w)).
  rewrite length_grid_range by lia. ring.
Qed.

Lemma uniform_not_small :
  (3 <= w)%Z -> (3 <= h)%Z -> (gDx gray <? 3)%Z || (gDy gray <? 3)%Z = false.
Proof.
  intros Hw Hh. change (gDx gray) with (w - 0)%Z. change (gDy gray) with (h - 0)%Z.
  rewrite !(proj2 (Z.ltb_ge _ _)) by lia. done.
Qed.

Lemma uniform_sharpness :
  (3 <= w)%Z -> (3 <= h)%Z -> (analyzeSharpness gray).1 == 0.
Proof.
  intros Hw Hh. unfold analyzeSharpness. rewrite uniform_not_small by done.
  destruct (foldl_sum_count _ _ uniform_sharpnessStep (interior gray) 0 0%Z) as [H2 H1].
  destruct (foldl _ _ (interior _)) as [sum count]. cbn [fst snd] in H1, H2.
  destruct (Z.eqb_spec count 0); [reflexivity|]. cbn [fst].
  assert (Ha : Qabs (4 * L - (L + L + L + L)) == 0).
  { setoid_replace (4 * L - (L + L + L + L)) with 0 using relation Qeq by ring. reflexivity. }
  assert (Hs : sum == 0) by (rewrite H1, Ha; ring).
  rewrite (Min_compat _ 0 1 1); [reflexivity| |reflexivity].
  rewrite Hs. unfold Qdiv. ring.
Qed.

Lemma uniform_noise :
  (3 <= w)%Z -> (3 <= h)%Z -> (analyzeNoise gray).1 == 0.
Proof.
  intros Hw Hh. unfold analyzeNoise. rewrite uniform_not_small by done.
  destruct (foldl_sum_count _ _ uniform_noiseStep (interior gray) 0 0%Z) as [H2 H1].
  destruct (foldl _ _ (interior _)) as [noiseSum count]. cbn [fst snd] in H1, H2.
  rewrite uniform_interior in H2 by done.
  destruct (Z.eqb_spec count 0) as [E|E]; [nia|]. cbn [fst].
  assert (Hs : noiseSum == 0) by (rewrite H1; ring).
  rewrite (Min_compat _ 0 1 1); [reflexivity| |reflexivity].
  rewrite Hs. unfold Qdiv. ring.
Qed.

Lemma uniform_contrast :
  (0 < w)%Z -> (0 < h)%Z -> (analyzeContrast gray).1 == 0.
Proof.
  intros Hw Hh. unfold analyzeContrast.
  change (gDx gray) with (w - 0)%Z. change (gDy gray) with (h - 0)%Z.
  assert (Ht : ((w - 0) * (h - 0))%Z <> 0%Z) by nia.
  destruct (Z.eqb_spec ((w - 0) * (h - 0)) 0); [done|].
  destruct (foldl_sum_pair _ _ _ uniform_contrastStep (allPixels gray) 0 0) as [H1 H2].
  destruct (foldl _ _ (allPixels _)) as [sum sumSquares]. cbn [fst snd] in H1, H2.
  rewrite uniform_allPixels in H1, H2 by lia. cbn [fst].
  pose proof (ofZ_nonzero _ Ht) as Hq.
  set (T := F64.ofZ ((w - 0) * (h - 0))) in *.
  set (variance := sumSquares / T - sum / T * (sum / T)).
  assert (Hv : variance == 0).
  { unfold variance. rewrite H1, H2. field. done. }
  assert (Hm : F64.Max 0 variance <= 0).
  { destruct (Max_spec 0 variance) as [[? ->]|[? ->]]; lra. }
  rewrite (Sqrt_nonpositive _ Hm). reflexivity.
Qed.

Lemma uniform_exposure :
  (0 < w)%Z -> (0 < h)%Z -> (26 <= grayLevel c <= 229)%Z ->
  (analyzeExposure gray).1 == L / 255.
Proof.
  intros Hw Hh Hl. unfold analyzeExposure.
  change (gDx gray) with (w - 0)%Z. change (gDy gray) with (h - 0)%Z.
  assert (Ht : ((w - 0) * (h - 0))%Z <> 0%Z) by nia.
  destruct (Z.eqb_spec ((w - 0) * (h - 0)) 0); [done|].
  destruct (foldl_sum_only _ _ (fun s d b p => uniform_exposureStep s d b p Hl)
              (allPixels gray) 0 0%Z 0%Z) as (sum & -> & Hs).
  rewrite uniform_allPixels in Hs by lia.
  pose proof (ofZ_nonzero _ Ht) as Hq.
  assert (E0 : F64.ofZ 0 / F64.ofZ ((w - 0) * (h - 0)) == 0)
    by (change (F64.ofZ 0) with (0 : Q); unfold Qdiv; ring).
  assert (Hg : F64.gtb (F64.ofZ 0 / F64.ofZ ((w - 0) * (h - 0))) (3 # 10) = false).
  { apply gtb_le. rewrite E0. done. }
  rewrite Hg. cbn [fst].
  assert (E : sum / F64.ofZ ((w - 0) * (h - 0)) == L / 255).
  { rewrite Hs. field. done. }
  assert (Hr : 0 <= L / 255 <= 1).
  { split; [apply Qle_shift_div_l|apply Qle_shift_div_r]; try done;
      unfold L, F64.ofZ, Qle; cbn; lia. }
  rewrite (Max_compat 0 0 _ (F64.Min 1 (L / 255)));
    [by apply clamp_id|reflexivity|by apply Min_compat].
Qed.

End UniformImages.

Section UniformTheorems.
Import Quality.
Local Open Scope Q_scope.

(** X29.  An image of one colour, at least 3 pixels wide and high, has
    sharpness 0 and noise 0 and, computed exactly, contrast 0; when the
    8-bit gray level of the colour lies between 26 and 229 its exposure,
    computed exactly, is that level over 255. *)
Theorem X29_analyze_uniform_image (w h : Z) (c : Color) :
  (3 <= w)%Z -> (3 <= h)%Z ->
  let q := Analyze (constantImage w h c) in
  Sharpness q == 0 /\ Noise q == 0 /\ Contrast q == 0 /\
  ((26 <= grayLevel c <= 229)%Z -> Exposure q == F64.ofZ (grayLevel c) / 255).
Proof.
  intros Hw Hh. cbv zeta. unfold Analyze, withFinalScore.
  cbn [Sharpness Noise Exposure Contrast].
  split; [by apply uniform_sharpness|]. split; [by apply uniform_noise|].
  split; [apply uniform_contrast; lia|]. intros Hl. apply uniform_exposure; [lia|lia|done].
Qed.

Lemma three_le_three : (3 <= 3)%Z.
Proof. lia. Qed.

Lemma X29_analyze_uniform_image_witness :
  (3 <= 3)%Z /\ (3 <= 3)%Z /\
  Sharpness (Analyze (constantImage 3 3 (gray16 0))) == 0.
Proof.
  split; [exact three_le_three|]. split; [exact three_le_three|].
  exact (proj1 (X29_analyze_uniform_image 3 3 (gray16 0) three_le_three three_le_three)).
Defined.

Lemma colorStep_gray img l : forall r g b,
  (forall x y, cr (At img x y) = cg (At img x y) /\ cg (At img x y) = cb (At img x y)) ->
  r = g -> g = b ->
  exists s, foldl (colorStep img) (r, g, b) l = (s, s, s).
Proof.
  induction l as [|[x y] l IH]; intros r g b Hgray -> ->; [by exists b|].
  cbn [foldl]. unfold colorStep at 2. destruct (Hgray x y) as [-> ->]. by apply IH.
Qed.

(** X30.  An image whose every pixel has equal red, green and blue has color
    cast 0. *)
Theorem X30_gray_image_has_no_color_cast (img : Image) :
  (forall x y, cr (At img x y) = cg (At img x y) /\ cg (At img x y) = cb (At img x y)) ->
  ColorCast (Analyze img) == 0.
Proof.
  intros Hgray. unfold Analyze, withFinalScore. cbn [ColorCast]. unfold analyzeColorCast.
  destruct (Dx img * Dy img =? 0)%Z; [reflexivity|].
  destruct (colorStep_gray img (sampled img) 0 0 0 Hgray eq_refl eq_refl) as [s ->].
  set (S := F64.ofZ _). set (avg := s / S).
  assert (Em : F64.Max (F64.Max avg avg) avg = avg).
  { assert (Hlt : F64.ltb avg avg = false) by (apply ltb_ge; lra).
    unfold F64.Max. rewrite Hlt. cbv iota. by rewrite Hlt. }
  rewrite Em. destruct (F64.eqb avg 0) eqn:E0; [reflexivity|]. cbn [fst].
  apply eqb_neq in E0.
  assert (Hn : 1 - avg / avg == 0) by (field; done).
  set (dev := (1 - avg / avg) * (1 - avg / avg) + (1 - avg / avg) * (1 - avg / avg)
              + (1 - avg / avg) * (1 - avg / avg)).
  assert (Hd : dev <= 0) by (unfold dev; rewrite Hn; lra).
  rewrite (Sqrt_nonpositive _ Hd). reflexivity.
Qed.

(** The flat images are gray. *)
Lemma flat_is_gray (w h : Z) :
  forall x y, cr (At (flat w h) x y) = cg (At (flat w h) x y) /\
              cg (At (flat w h) x y) = cb (At (flat w h) x y).
Proof. intros x y. split; reflexivity. Qed.

Lemma X30_gray_image_has_no_color_cast_witness :
  (forall x y, cr (At (flat 4 4) x y) = cg (At (flat 4 4) x y) /\
               cg (At (flat 4 4) x y) = cb (At (flat 4 4) x y)) /\
  ColorCast (Analyze (flat 4 4)) == 0.
Proof.
  split; [exact (flat_is_gray 4 4)|].
  exact (X30_gray_image_has_no_color_cast (flat 4 4) (flat_is_gray 4 4)).
Defined.

End UniformTheorems.
